(** * AOSR8 CLI helper: command tree, suggestion engine and token classifier

    A shallow embedding of the two plugin variants of the repository:

    - [Main]: [src/main.ts], the nested-dictionary variant
      ([normalizeTree], [Aosr8Suggest], the code-block classifier);
    - [R04]: the second plugin file bundled in [src/syntax.ts], the flat
      R04 variant ([buildTreeFromR04], [Aosr8Suggest]);
    - [Realm]: the loops of the two [getSuggestions] along the prototype
      chain of the nodes;
    - [Store]: the two builders on a store of objects, the built-in
      objects [Object.prototype] and [Object] included;
    - [Highlight]: the code-block processors of both files, from the
      source of a block to the spans of its lines;
    - [Lexer]: the stream tokenizer [aosr8Language] of [src/syntax.ts];
    - [SearchModal]: [CommandSearchModal.getSuggestions] of the R04
      file;
    - [Wide]: the suggestion engine of [src/main.ts] on strings of
      UTF-16 code units.

    Conventions of the embedding.

    - Text is ASCII: a JavaScript string is a [string]; the whitespace class
      [\s] is the six ASCII whitespace characters, and [toLowerCase] maps
      [A-Z] to [a-z] and leaves every other character alone.  Beyond
      ASCII, [toLowerCase] can change the length of a string; [Wide] has
      such strings.
    - A tree is the finite map of the own properties of its nodes
      ([gmap string _]).  A node also inherits the properties of
      [Object.prototype] ([Prototype.names]); [Main] and [R04] hold what
      the code does on the own properties and answer [None] where a
      builder follows an inherited property out of the tree, [Realm] and
      [Store] follow the code there.  When the plugin starts,
      [Object.prototype] has its built-in properties and no other.
    - The enumeration order of the raw JSON dictionaries is kept by
      representing them as association lists, in the order [for ... in]
      and [Object.entries] visit them.
    - The files are ES modules, hence strict code: writing a property on a
      primitive raises [TypeError].  A raised exception is the result [None]
      of a function returning [option]. *)

From Stdlib Require Import String Ascii List Bool Arith Lia.
From stdpp Require Import gmap strings pretty list fin_maps sorting.

#[local] Set Warnings "-register-all".
#[local] Open Scope string_scope.

(* ===================================================================== *)
(** * Text primitives *)
(* ===================================================================== *)

Module Text.

(** The character class [\s], restricted to ASCII. *)
Definition is_space (c : ascii) : bool :=
  match c with
  | "009"%char | "010"%char | "011"%char | "012"%char | "013"%char
  | " "%char => true
  | _ => false
  end.

(** [c.toLowerCase()] on one ASCII character. *)
Definition lower_char (c : ascii) : ascii :=
  let n := nat_of_ascii c in
  if Nat.leb 65 n && Nat.leb n 90 then ascii_of_nat (n + 32) else c.

(** [s.toLowerCase()] on a string of ASCII characters.  (On other
    strings the conversion of JavaScript can change the length: see
    [Wide.toLowerCase].) *)
Fixpoint toLowerCase (s : string) : string :=
  match s with
  | EmptyString => EmptyString
  | String c r => String (lower_char c) (toLowerCase r)
  end.

(** Every character of [s] is an ASCII character: its code is below
    128. *)
Fixpoint is_ascii (s : string) : bool :=
  match s with
  | EmptyString => true
  | String c r => Nat.ltb (nat_of_ascii c) 128 && is_ascii r
  end.

(** [s.trimStart()] *)
Fixpoint trimStart (s : string) : string :=
  match s with
  | EmptyString => EmptyString
  | String c r => if is_space c then trimStart r else s
  end.

(** [true] when every character of [s] is whitespace. *)
Fixpoint all_space (s : string) : bool :=
  match s with
  | EmptyString => true
  | String c r => is_space c && all_space r
  end.

(** [s.trimEnd()] *)
Fixpoint trimEnd (s : string) : string :=
  match s with
  | EmptyString => EmptyString
  | String c r => if all_space s then EmptyString else String c (trimEnd r)
  end.

(** [s.trim()] *)
Definition trim (s : string) : string := trimEnd (trimStart s).

(** [s.split(/\s+/)]: the pieces of [s] between maximal runs of
    whitespace.  [inws] tells that the previous character was
    whitespace, i.e. that the separator run is still being consumed.
    The head of the result is the piece under construction, so the
    result is never empty: the empty string splits into one empty
    piece, and leading or trailing whitespace yields an empty first or
    last piece, as in JavaScript. *)
Fixpoint split_from (inws : bool) (s : string) : list string :=
  match s with
  | EmptyString => [EmptyString]
  | String c r =>
      if is_space c then
        if inws then split_from true r
        else EmptyString :: split_from true r
      else
        match split_from false r with
        | t :: ts => String c t :: ts
        | [] => [String c EmptyString]
        end
  end.

Definition split_ws (s : string) : list string := split_from false s.

(** [true] when [s] has no whitespace character. *)
Fixpoint no_space (s : string) : bool :=
  match s with
  | EmptyString => true
  | String c r => negb (is_space c) && no_space r
  end.

(** [sub.match(/(\S+)$/)]: the leftmost position from which the rest
    of [sub] is a non-empty run of non-whitespace characters, with that
    run; [i] is the index of the first character of [s] in [sub]. *)
Fixpoint match_tail (i : nat) (s : string) : option (nat * string) :=
  match s with
  | EmptyString => None
  | String c r => if no_space s then Some (i, s) else match_tail (S i) r
  end.

(** [s.startsWith(q)] *)
Definition startsWith (s q : string) : bool := String.prefix q s.

(** [s.endsWith(q)] for a one-character [q]. *)
Fixpoint endsWithChar (s : string) (q : ascii) : bool :=
  match s with
  | EmptyString => false
  | String c EmptyString => Ascii.eqb c q
  | String _ r => endsWithChar r q
  end.

(** The truth value of a string: only the empty string is falsy. *)
Definition truthy (s : string) : bool :=
  match s with EmptyString => false | String _ _ => true end.

(** The character classes [\d] and, under the flag [i], [[0-9a-f]]. *)
Definition is_digit (c : ascii) : bool :=
  let n := nat_of_ascii c in Nat.leb 48 n && Nat.leb n 57.

Definition is_hex (c : ascii) : bool :=
  let n := nat_of_ascii c in
  is_digit c || (Nat.leb 97 n && Nat.leb n 102)
             || (Nat.leb 65 n && Nat.leb n 70).

(** Greedy [p{0,max}] at the front of [s]: the number of characters
    taken and the rest. *)
Fixpoint eat_upto (p : ascii → bool) (max : nat) (s : string) : nat * string :=
  match max, s with
  | S m, String c r =>
      if p c then let '(n, r') := eat_upto p m r in (S n, r') else (0, s)
  | _, _ => (0, s)
  end.

(** [p{lo,hi}] at the front of [s], when what follows in the pattern
    cannot start with a character of [p]: the rest, or [None]. *)
Definition eat (p : ascii → bool) (lo hi : nat) (s : string) : option string :=
  let '(n, r) := eat_upto p hi s in
  if Nat.leb lo n then Some r else None.

(** One literal character at the front of [s]. *)
Definition eat_char (c : ascii) (s : string) : option string :=
  match s with
  | String d r => if Ascii.eqb c d then Some r else None
  | EmptyString => None
  end.

(** [$]: the end of the text. *)
Definition at_end (s : option string) : bool :=
  match s with
  | Some EmptyString => true
  | _ => false
  end.

(** [/^\s+$/.test(s)] *)
Definition is_whitespace_run (s : string) : bool := truthy s && all_space s.

(** The pieces of a pattern matched one after the other from the front
    of [s]: what is left after the last piece, or [None]. *)
Definition in_sequence (pieces : list (string → option string)) (s : string)
    : option string :=
  fold_left
    (fun left piece => match left with Some r => piece r | None => None end)
    pieces (Some s).

(** [/^\d{1,3}\.\d{1,3}\.\d{1,3}\.\d{1,3}$/.test(s)] *)
Definition is_ipv4 (s : string) : bool :=
  at_end (in_sequence
    [ eat is_digit 1 3; eat_char "."; eat is_digit 1 3; eat_char ".";
      eat is_digit 1 3; eat_char "."; eat is_digit 1 3 ] s).

(** [/^[0-9a-f]{2}(:[0-9a-f]{2}){5}$/i.test(s)] *)
Definition is_mac_colon (s : string) : bool :=
  at_end (in_sequence
    [ eat is_hex 2 2;
      eat_char ":"; eat is_hex 2 2; eat_char ":"; eat is_hex 2 2;
      eat_char ":"; eat is_hex 2 2; eat_char ":"; eat is_hex 2 2;
      eat_char ":"; eat is_hex 2 2 ] s).

(** [/^[0-9a-f]{4}\.[0-9a-f]{4}\.[0-9a-f]{4}$/i.test(s)] *)
Definition is_mac_dot (s : string) : bool :=
  at_end (in_sequence
    [ eat is_hex 4 4; eat_char "."; eat is_hex 4 4; eat_char ".";
      eat is_hex 4 4 ] s).

(** [/^\d+$/.test(s)] *)
Fixpoint all_digits (s : string) : bool :=
  match s with
  | EmptyString => true
  | String c r => is_digit c && all_digits r
  end.

Definition is_number (s : string) : bool := truthy s && all_digits s.

(** The double quote character. *)
Definition dquote : ascii := ascii_of_nat 34.

(** [s.startsWith('"') && s.endsWith('"')] *)
Definition is_quoted (s : string) : bool :=
  startsWith s (String dquote EmptyString) && endsWithChar s dquote.

(** The default comparison of [Array.prototype.sort]: strings are
    compared code unit by code unit. *)
Definition str_le (a b : string) : Prop := Is_true (String.leb a b).
Definition str_lt (a b : string) : Prop := Is_true (String.ltb a b).

#[export] Instance str_le_dec a b : Decision (str_le a b) := _.

(** [l.sort()] with the default comparison. *)
Definition sort (l : list string) : list string := merge_sort str_le l.

End Text.

Import Text.

(* ===================================================================== *)
(** * The host interface used by both variants *)
(* ===================================================================== *)

Module Host.

(** [EditorSuggestTriggerInfo], for the line of the cursor: the columns
    of [start] and [end], and the query. *)
Record TriggerInfo : Type := mkTrigger {
  start : nat;
  end_ : nat;
  query : string
}.

(** The calls a suggestion makes on the host editor, in order. *)
Inductive EditorCall : Type :=
| replaceRange (replacement : string) (from to : nat)
| setCursor (ch : nat).

(** The line after [editor.replaceRange(replacement, from, to)]. *)
Definition spliced (line replacement : string) (from to : nat) : string :=
  substring 0 from line ++ replacement
    ++ substring to (String.length line - to) line.

End Host.

Import Host.

(* ===================================================================== *)
(** * The properties every object inherits *)
(* ===================================================================== *)

Module Prototype.

(** The names of the properties of [Object.prototype] (ECMAScript,
    sections 20.1.3 and B.2.2).  An object made by [{}] or read from a
    JSON document has [Object.prototype] as its prototype, so [o[name]]
    finds these properties when [o] has no own property [name]: the
    function [Object] under [constructor], the prototype itself under
    [__proto__], and a built-in method under each of the others. *)
Definition names : list string :=
  [ "constructor"; "__proto__"; "hasOwnProperty"; "isPrototypeOf";
    "propertyIsEnumerable"; "toLocaleString"; "toString"; "valueOf";
    "__defineGetter__"; "__defineSetter__"; "__lookupGetter__";
    "__lookupSetter__" ].

(** [key] names a property of [Object.prototype]. *)
Definition inherited (key : string) : bool :=
  existsb (String.eqb key) names.

End Prototype.

(* ===================================================================== *)
(** * [src/main.ts]: the nested-dictionary variant *)
(* ===================================================================== *)

Module Main.

(** [interface CommandNode { [key: string]: CommandNode }]: a node is
    the dictionary of its children. *)
Inductive CommandNode : Type :=
  Node (children : gmap string CommandNode).

Definition children (n : CommandNode) : gmap string CommandNode :=
  match n with Node c => c end.

(** The object literal [{}]. *)
Definition empty_node : CommandNode := Node ∅.

(** The raw dictionary is the imported JSON document.  The members of
    an object are listed in enumeration order; their keys are pairwise
    distinct, as in every JavaScript object. *)
Inductive Json : Type :=
| JNull
| JBool (b : bool)
| JNum (n : Z)
| JStr (s : string)
| JArr (items : list Json)
| JObj (members : list (string * Json)).

(** [raw[key]] on the members of an object: [None] is [undefined]. *)
Fixpoint member (key : string) (members : list (string * Json)) : option Json :=
  match members with
  | [] => None
  | (k, v) :: rest => if String.eqb k key then Some v else member key rest
  end.

(** [typeof v === 'object' && !Array.isArray(v)]: objects, and [null]. *)
Definition is_plain_object (v : Json) : bool :=
  match v with
  | JObj _ | JNull => true
  | _ => false
  end.

(** [temp[part]] after [if (!temp[part]) temp[part] = {}], line 95, as
    long as it is a node of the tree: the own child (every stored child
    is an object, hence truthy), or the new child when [temp[part]] is
    [undefined].  When [temp] has no own property [part] and [part] names
    a property inherited from [Object.prototype], [temp[part]] is that
    built-in object: nothing is created, and what the loop does next it
    does to the built-in object, off the tree.  That is left to [Store]:
    the answer here is [None]. *)
Definition child_at (temp : CommandNode) (part : string)
    : option CommandNode :=
  match children temp !! part with
  | Some child => Some child
  | None => if Prototype.inherited part then None else Some empty_node
  end.

(** The loop over [parts] in [traverse], lines 92-104.  [temp] is the
    node the loop stands on; on the last part the continuation [last]
    runs on [temp[part]] (the recursive call of [traverse], which
    updates that child in place), otherwise the loop steps into the
    child.  The in-place updates of the child are written back into its
    parent.  The result [None] is "no tree": an exception, or a loop
    that leaves the tree (see [child_at]). *)
Fixpoint insert_parts (parts : list string)
    (last : CommandNode → option CommandNode) (temp : CommandNode)
    : option CommandNode :=
  match parts with
  | [] => Some temp
  | part :: rest =>
      child ← child_at temp part;
      child' ← match rest with
               | [] => last child
               | _ :: _ => insert_parts rest last child
               end;
      Some (Node (<[part := child']> (children temp)))
  end.

(** One round of [raw._options.forEach], lines 107-110:
    [opt.toLowerCase()] raises [TypeError] unless [opt] is a string.
    [currentRoot[o]] is truthy when [o] is an own child, and also when
    [o] names a property inherited from [Object.prototype]: in both
    cases nothing is created. *)
Definition add_option (currentRoot : CommandNode) (opt : Json)
    : option CommandNode :=
  match opt with
  | JStr s =>
      let o := toLowerCase s in
      match children currentRoot !! o with
      | Some _ => Some currentRoot
      | None =>
          if Prototype.inherited o then Some currentRoot
          else Some (Node (<[o := empty_node]> (children currentRoot)))
      end
  | _ => None
  end.

Fixpoint forEach_option (opts : list Json) (currentRoot : CommandNode)
    : option CommandNode :=
  match opts with
  | [] => Some currentRoot
  | opt :: rest =>
      r ← add_option currentRoot opt; forEach_option rest r
  end.

(** Lines 106-111.  [options] is the value of [raw._options], where
    [raw] is the argument of [normalizeTree] (the outermost dictionary),
    whichever level [traverse] is working on. *)
Definition add_options (options : option Json) (currentRoot : CommandNode)
    : option CommandNode :=
  match options with
  | Some (JArr opts) => forEach_option opts currentRoot
  | _ => Some currentRoot
  end.

(** The loop [for (const key in currentRaw)], lines 89-105, over the
    members of [currentRaw]; [body] is the body of the loop for a key
    other than [_options], with the value [currentRaw[key]]. *)
Fixpoint for_in (body : string → Json → CommandNode → option CommandNode)
    (members : list (string * Json)) (currentRoot : CommandNode)
    : option CommandNode :=
  match members with
  | [] => Some currentRoot
  | (key, nextLevel) :: rest =>
      if String.eqb key "_options" then for_in body rest currentRoot
      else
        root' ← body key nextLevel currentRoot;
        for_in body rest root'
  end.

(** [traverse(currentRaw, currentRoot)], lines 88-112.  [for ... in]
    enumerates the members of an object and nothing for [null]. *)
Fixpoint traverse (options : option Json) (currentRaw : Json)
    (currentRoot : CommandNode) {struct currentRaw} : option CommandNode :=
  match currentRaw with
  | JObj members =>
      root' ← for_in
                (fun key nextLevel root =>
                   insert_parts (split_ws (toLowerCase key))
                     (fun node =>
                        if is_plain_object nextLevel
                        then traverse options nextLevel node
                        else Some node)
                     root)
                members currentRoot;
      add_options options root'
  | _ => add_options options currentRoot
  end.

(** [normalizeTree(raw)], lines 86-115, for a dictionary [raw] given by
    its members. *)
Definition normalizeTree (raw : list (string * Json)) : option CommandNode :=
  traverse (member "_options" raw) (JObj raw) empty_node.

(** ** [Aosr8Suggest] *)

(** [onTrigger], lines 130-138; [line] is [editor.getLine(cursor.line)]
    and [ch] is [cursor.ch].  [None] is the result [null]. *)
Definition onTrigger (line : string) (ch : nat) : option TriggerInfo :=
  let sub := substring 0 ch line in
  if truthy (trimStart sub) then
    match match_tail 0 sub with
    | Some (index, m) => Some (mkTrigger index ch m)
    | None => Some (mkTrigger ch ch EmptyString)
    end
  else None.

(** The loop of lines 146-149 along the own children of the nodes:
    [None] is the early [return []].  ([current[token]] finds the
    inherited properties too: [Realm.resolve] is the loop with them.) *)
Fixpoint resolve (current : CommandNode) (tokens : list string)
    : option CommandNode :=
  match tokens with
  | [] => Some current
  | token :: rest =>
      match children current !! token with
      | Some next => resolve next rest
      | None => None
      end
  end.

(** [Object.keys(current)] *)
Definition keys (current : CommandNode) : list string :=
  (map_to_list (children current)).*1.

(** [getSuggestions], lines 140-153, along the own children of the
    nodes; [line] is the line of [context.start]. *)
Definition getSuggestions (data : CommandNode) (line : string)
    (context : TriggerInfo) : list string :=
  let preStr := trim (substring 0 (start context) line) in
  let tokens :=
    if Nat.ltb 0 (String.length preStr)
    then split_ws (toLowerCase preStr) else [] in
  let query := toLowerCase (query context) in
  match resolve data tokens with
  | None => []
  | Some current =>
      let suggestions := keys current in
      let suggestions :=
        if truthy query
        then filter (λ s, startsWith s query) suggestions
        else suggestions in
      sort suggestions
  end.

(** [selectSuggestion], lines 159-165; [context] is [this.context],
    [None] when it is unset. *)
Definition selectSuggestion (value : string) (context : option TriggerInfo)
    : list EditorCall :=
  match context with
  | None => []
  | Some c =>
      [ replaceRange (value ++ " ") (start c) (end_ c);
        setCursor (start c + String.length value + 1) ]
  end.

(** ** The code-block processor: classification of one part *)

(** The keyword sets exported by [./keywords]; that module is not among
    the sources at hand, so the five sets are a parameter. *)
Record Keywords : Type := mkKeywords {
  keywords1 : gset string;
  keywords2 : gset string;
  keywords3 : gset string;
  keywords4 : gset string;
  keywords5 : gset string
}.

(** [set.has(word)] *)
Definition has (set : gset string) (word : string) : bool :=
  bool_decide (word ∈ set).

(** [lineDiv.createSpan({ text, cls })]; [cls = None] when the call
    passes no class. *)
Record Span : Type := mkSpan {
  text : string;
  cls : option string
}.

(** The body of the loop over [parts], lines 40-81: [None] is the
    [continue] of line 41, which creates no span. *)
Definition classify (keywords : Keywords) (part : string) : option Span :=
  if String.eqb part EmptyString then None
  else
    let lower := toLowerCase part in
    Some
      (if is_whitespace_run part then mkSpan part None
       else if is_ipv4 part then mkSpan part (Some "aosr8-number")
       else if is_mac_colon part || is_mac_dot part
            then mkSpan part (Some "aosr8-mac")
       else if is_number part then mkSpan part (Some "aosr8-number")
       else if is_quoted part then mkSpan part (Some "aosr8-string")
       else if has (keywords1 keywords) lower
            then mkSpan part (Some "aosr8-keyword")
       else if has (keywords2 keywords) lower
            then mkSpan part (Some "aosr8-type")
       else if has (keywords3 keywords) lower
            then mkSpan part (Some "aosr8-invalid")
       else if has (keywords4 keywords) lower
            then mkSpan part (Some "aosr8-atom")
       else if has (keywords5 keywords) lower
            then mkSpan part (Some "aosr8-variable")
       else mkSpan part None).

(** ** The suggestion engine as the host drives it *)

(** The host calls [onTrigger] and, unless it answers [null], calls
    [getSuggestions] with the trigger information as context.  [None]
    is "no trigger". *)
Definition suggest (data : CommandNode) (line : string) (ch : nat)
    : option (list string) :=
  context ← onTrigger line ch; Some (getSuggestions data line context).

(** ** Vocabulary of the statements *)

(** [reaches n tokens n']: following one child edge per token from [n]
    leads to [n']. *)
Inductive reaches : CommandNode → list string → CommandNode → Prop :=
| reaches_here n : reaches n [] n
| reaches_step n token child tokens n' :
    children n !! token = Some child →
    reaches child tokens n' →
    reaches n (token :: tokens) n'.

(** The token sequence comes to a token with no matching child. *)
Definition dead_end (root : CommandNode) (tokens : list string) : Prop :=
  ∃ (done : list string) (token : string) (rest : list string) n,
    tokens = (done ++ token :: rest)%list ∧
    reaches root done n ∧
    children n !! token = None.

(** Every edge below [root] carries a label satisfying [P]. *)
Definition edges_all (P : string → Prop) (root : CommandNode) : Prop :=
  ∀ tokens n, reaches root tokens n → Forall P tokens.

(** [grows root root']: every path of [root] is a path of [root']. *)
Definition grows (root root' : CommandNode) : Prop :=
  ∀ tokens n, reaches root tokens n → ∃ n', reaches root' tokens n'.

(** The token paths spelled by the keys of a nested dictionary: the
    tokens of a key, followed by a path of its value when [traverse]
    descends into it. *)
Inductive key_path : Json → list string → Prop :=
| key_path_here j : key_path j []
| key_path_key members key nextLevel :
    (key, nextLevel) ∈ members → key ≠ "_options" →
    key_path (JObj members) (split_ws (toLowerCase key))
| key_path_below members key nextLevel tokens :
    (key, nextLevel) ∈ members → key ≠ "_options" →
    is_plain_object nextLevel = true →
    key_path nextLevel tokens →
    key_path (JObj members) (split_ws (toLowerCase key) ++ tokens)%list.

(** The names [traverse] adds from the options list [raw._options]. *)
Definition option_names (options : option Json) : list string :=
  match options with
  | Some (JArr opts) =>
      omap (fun opt => match opt with
                       | JStr s => Some (toLowerCase s)
                       | _ => None
                       end) opts
  | _ => []
  end.




End Main.

(* ===================================================================== *)
(** * The R04 plugin file in [src/syntax.ts]: the flat variant *)
(* ===================================================================== *)

Module R04.

(** [interface CommandNode { _desc?: string;
                             [key: string]: CommandNode | string | undefined }]:
    one dictionary holds the child nodes and, under [_desc], the
    description.  A property is a string or a node. *)
Inductive Value : Type :=
| Str (s : string)
| Obj (props : gmap string Value).

Abbreviation CommandNode := (gmap string Value).

(** [interface CommandDetail], lines 71-84. *)
Record CommandDetail : Type := mkDetail {
  command : string;
  description : string;
  syntax : string;
  parameters : list (string * string);
  defaults : string;
  platforms_supported : list (string * string);
  usage_guidelines : list string;
  examples : list string;
  release_history : list string;
  related_commands : list (string * string);
  mib_objects : list string;
  output_definitions : list (string * string)
}.

(** [currentLevel[part]] after
    [if (!currentLevel[part]) currentLevel[part] = {}], lines 144-146, as
    long as it is a node of the tree: the node already there, or the new
    node that replaces a missing or falsy (empty string) property.  The
    answer is [None] when the loop leaves the tree:
    - the own property is a non-empty string: the loop then stands on a
      primitive, where the property write that follows (line 145 of the
      next round, or line 153) raises [TypeError], unless the next part
      names a method of strings, which the loop enters;
    - there is no own property [part] and [part] names a property
      inherited from [Object.prototype]: [currentLevel[part]] is that
      built-in object, nothing is created, and the loop goes on in the
      built-in object.  [Store] follows it there. *)
Definition child_at (currentLevel : CommandNode) (part : string)
    : option CommandNode :=
  match currentLevel !! part with
  | None => if Prototype.inherited part then None else Some ∅
  | Some (Str s) => if truthy s then None else Some ∅
  | Some (Obj node) => Some node
  end.

(** The loop over [parts] in [buildTreeFromR04], lines 141-155.  The
    result [None] is "no tree": an exception, or a loop that leaves the
    tree (see [child_at]). *)
Fixpoint insert_command (parts : list string) (desc : string)
    (currentLevel : CommandNode) : option CommandNode :=
  match parts with
  | [] => Some currentLevel
  | p :: rest =>
      let part := toLowerCase p in
      child ← child_at currentLevel part;
      child' ← match rest with
               | [] => Some (<["_desc" := Str desc]> child)
               | _ :: _ => insert_command rest desc child
               end;
      Some (<[part := Obj child']> currentLevel)
  end.

(** The loop over [Object.entries(this.commandsR04)], lines 135-156. *)
Fixpoint build_from (entries : list (string * CommandDetail))
    (autocompleteTree : CommandNode) : option CommandNode :=
  match entries with
  | [] => Some autocompleteTree
  | (cmdName, details) :: rest =>
      tree ← insert_command (split_ws (trim cmdName)) (description details)
               autocompleteTree;
      build_from rest tree
  end.

(** [buildTreeFromR04()], lines 131-157; the result is
    [this.autocompleteTree]. *)
Definition buildTreeFromR04 (commandsR04 : list (string * CommandDetail))
    : option CommandNode :=
  build_from commandsR04 ∅.

(** [onTrigger], lines 172-188. *)
Definition onTrigger (line : string) (ch : nat) : option TriggerInfo :=
  let sub := substring 0 ch line in
  if truthy (trim sub) then
    match match_tail 0 sub with
    | Some (index, m) => Some (mkTrigger index ch m)
    | None => Some (mkTrigger ch ch EmptyString)
    end
  else None.

(** The loop of lines 203-211 along the own properties of the nodes:
    [None] is [validPath = false].  ([Realm.resolve] is the loop with
    the inherited properties; the suggestions are the same.) *)
Fixpoint resolve (current : CommandNode) (pathTokens : list string)
    : option CommandNode :=
  match pathTokens with
  | [] => Some current
  | token :: rest =>
      match current !! toLowerCase token with
      | Some (Obj next) => resolve next rest
      | _ => None
      end
  end.

(** [Object.keys(current)] *)
Definition keys (current : CommandNode) : list string :=
  (map_to_list current).*1.

(** [getSuggestions], lines 190-221. *)
Definition getSuggestions (data : CommandNode) (line : string)
    (context : TriggerInfo) : list string :=
  let prefix := trim (substring 0 (start context) line) in
  let pathTokens :=
    if Nat.ltb 0 (String.length prefix) then split_ws prefix else [] in
  match resolve data pathTokens with
  | None => []
  | Some current =>
      let query := toLowerCase (query context) in
      let suggestions :=
        filter
          (λ k, negb (String.eqb k "_desc") && startsWith k query)
          (keys current) in
      sort suggestions
  end.

(** [selectSuggestion], lines 229-234: the cursor is left to the host. *)
Definition selectSuggestion (value : string) (context : option TriggerInfo)
    : list EditorCall :=
  match context with
  | None => []
  | Some c => [ replaceRange (value ++ " ") (start c) (end_ c) ]
  end.

(** The host calls [onTrigger] and, unless it answers [null], calls
    [getSuggestions] with the trigger information as context. *)
Definition suggest (data : CommandNode) (line : string) (ch : nat)
    : option (list string) :=
  context ← onTrigger line ch; Some (getSuggestions data line context).

(** ** Vocabulary of the statements *)

(** [metadata n]: the description attached to the node, if any. *)
Definition metadata (n : CommandNode) : option string :=
  match n !! "_desc" with
  | Some (Str d) => Some d
  | _ => None
  end.

(** [reaches n tokens n']: following one child edge per token from [n]
    leads to [n']; a child is a property holding a node. *)
Inductive reaches : CommandNode → list string → CommandNode → Prop :=
| reaches_here n : reaches n [] n
| reaches_step (n : CommandNode) token child tokens n' :
    n !! token = Some (Obj child) →
    reaches child tokens n' →
    reaches n (token :: tokens) n'.

(** The token sequence comes to a token with no matching child. *)
Definition dead_end (root : CommandNode) (tokens : list string) : Prop :=
  ∃ (done : list string) (token : string) (rest : list string)
    (n : CommandNode),
    tokens = (done ++ token :: rest)%list ∧
    reaches root done n ∧
    ∀ child, n !! token ≠ Some (Obj child).

(** Every edge below [root] carries a label satisfying [P]. *)
Definition edges_all (P : string → Prop) (root : CommandNode) : Prop :=
  ∀ tokens n, reaches root tokens n → Forall P tokens.

(** The tokens of a command string: split on whitespace after
    trimming, each piece in lower case. *)
Definition command_tokens (cmdName : string) : list string :=
  toLowerCase <$> split_ws (trim cmdName).

(** The description in force for a token path: the one of the last
    entry of the dictionary with this path. *)
Fixpoint description_of (commandsR04 : list (string * CommandDetail))
    (tokens : list string) : option string :=
  match commandsR04 with
  | [] => None
  | (cmdName, details) :: rest =>
      match description_of rest tokens with
      | Some d => Some d
      | None =>
          if decide (command_tokens cmdName = tokens)
          then Some (description details) else None
      end
  end.

(** The tree has the shape [interface CommandNode] declares: at every
    node, [_desc] is a string and every other property is a node. *)
Definition typed (root : CommandNode) : Prop :=
  ∀ tokens (n : CommandNode), reaches root tokens n →
    ∀ k v, n !! k = Some v → (k = "_desc" ↔ ∃ s, v = Str s).

(** A token that can label an edge of the tree: it is not the name of
    the internal description property, which lives among the children of
    a node, and not the name of a property every node inherits from
    [Object.prototype]. *)
Definition edge_token (token : string) : bool :=
  negb (String.eqb token "_desc") && negb (Prototype.inherited token).

(** The command strings of the dictionary are valid: each of their
    tokens can label an edge. *)
Definition valid_commands (commandsR04 : list (string * CommandDetail)) : Prop :=
  ∀ cmdName details,
    (cmdName, details) ∈ commandsR04 →
    Forall (fun token => edge_token token = true) (command_tokens cmdName).


End R04.

(* ===================================================================== *)
(** * The walk of [getSuggestions] along the prototype chain *)
(* ===================================================================== *)

(** [current[token]] looks [token] up among the own properties of
    [current] and then along its prototype chain.  [Main.resolve] and
    [R04.resolve] follow the own properties of the nodes; this module
    follows the loops of the two [getSuggestions] wherever they go: into
    [Object.prototype] under the token [__proto__], into the function
    [Object] under [constructor], and from there into primitive values.
    No property has been added to [Object.prototype]. *)

Module Realm.

(** What [current] stands on; [Node] is the type of the nodes of the
    tree. *)
Inductive Value (Node : Type) : Type :=
| Own (n : Node)
| ObjectPrototype
| ObjectFunction
| Text (s : string)
| Number (n : Z)
| Undefined
| Null.

Arguments Own {Node} n.
Arguments ObjectPrototype {Node}.
Arguments ObjectFunction {Node}.
Arguments Text {Node} s.
Arguments Number {Node} n.
Arguments Undefined {Node}.
Arguments Null {Node}.

Section Walk.

Context {Node : Type}.

(** The own property [token] of a node, if any, and [Object.keys] of a
    node. *)
Context (own : Node → string → option (Value Node)).
Context (own_keys : Node → list string).

(** [Object.prototype[token]], read through an object that inherits
    from it, or on [Object.prototype] itself ([self]).  [None]: the
    property is one of the built-in methods, which are functions; what
    their properties are is not described here. *)
Definition inherited_property (self : bool) (token : string)
    : option (Value Node) :=
  if String.eqb token "constructor" then Some ObjectFunction
  else if String.eqb token "__proto__"
       then Some (if self then Null else ObjectPrototype)
  else if Prototype.inherited token then None
  else Some Undefined.

(** [s[token]] on a primitive string: its length, its characters under
    their indices; [None] for the other names, which are looked up in
    [String.prototype]. *)
Definition string_property (s token : string) : option (Value Node) :=
  if String.eqb token "length" then Some (Number (Z.of_nat (String.length s)))
  else
    match List.find (fun i => String.eqb (pretty i) token)
            (seq 0 (String.length s)) with
    | Some i =>
        match String.get i s with
        | Some c => Some (Text (String c EmptyString))
        | None => None
        end
    | None => None
    end.

(** [current[token]]; [None] when the answer is a built-in property
    that is not described here.  The loops read no property of
    [undefined] or [null]: they stop on a falsy value. *)
Definition get (current : Value Node) (token : string)
    : option (Value Node) :=
  match current with
  | Own n =>
      match own n token with
      | Some v => Some v
      | None => inherited_property false token
      end
  | ObjectPrototype => inherited_property true token
  | ObjectFunction =>
      if String.eqb token "name" then Some (Text "Object")
      else if String.eqb token "length" then Some (Number 1)
      else if String.eqb token "prototype" then Some ObjectPrototype
      else None
  | Text s => string_property s token
  | Number _ | Undefined | Null => None
  end.

(** The truth value of [v]. *)
Definition truthy (v : Value Node) : bool :=
  match v with
  | Own _ | ObjectPrototype | ObjectFunction => true
  | Text s => Text.truthy s
  | Number n => negb (Z.eqb n 0)
  | Undefined | Null => false
  end.

(** [typeof v === 'object'] *)
Definition is_object (v : Value Node) : bool :=
  match v with
  | Own _ | ObjectPrototype | Null => true
  | ObjectFunction | Text _ | Number _ | Undefined => false
  end.

(** [Object.keys(v)]: the own enumerable properties; the built-in
    objects have none, a string has its indices. *)
Definition keys (v : Value Node) : list string :=
  match v with
  | Own n => own_keys n
  | Text s => pretty <$> seq 0 (String.length s)
  | ObjectPrototype | ObjectFunction | Number _ | Undefined | Null => []
  end.

(** Where a walk ends: on a value, or with the early [return []], or
    on a built-in property that is not described here. *)
Inductive Walk : Type :=
| Reached (current : Value Node)
| DeadEnd
| Unknown.

(** The loop over the tokens; [accept] is the test that lets the loop
    step into [current[token]]. *)
Fixpoint resolve (accept : Value Node → bool) (current : Value Node)
    (tokens : list string) : Walk :=
  match tokens with
  | [] => Reached current
  | token :: rest =>
      match get current token with
      | None => Unknown
      | Some next =>
          if accept next then resolve accept next rest else DeadEnd
      end
  end.

End Walk.

(** The own properties of the nodes of the two trees. *)
Definition main_own (n : Main.CommandNode) (token : string)
    : option (Value Main.CommandNode) :=
  Own <$> (Main.children n !! token).

Definition r04_own (n : R04.CommandNode) (token : string)
    : option (Value R04.CommandNode) :=
  match n !! token with
  | Some (R04.Obj child) => Some (Own child)
  | Some (R04.Str s) => Some (Text s)
  | None => None
  end.

(** [getSuggestions] of [src/main.ts], lines 140-153: the loop steps
    into [current[token]] when it is truthy.  [None]: the walk came upon
    a built-in property that is not described here. *)
Definition getSuggestions (data : Main.CommandNode) (line : string)
    (context : TriggerInfo) : option (list string) :=
  let preStr := trim (substring 0 (start context) line) in
  let tokens :=
    if Nat.ltb 0 (String.length preStr)
    then split_ws (toLowerCase preStr) else [] in
  let query := toLowerCase (query context) in
  match resolve main_own truthy (Own data) tokens with
  | Unknown => None
  | DeadEnd => Some []
  | Reached current =>
      let suggestions := keys Main.keys current in
      let suggestions :=
        if Text.truthy query
        then filter (λ s, startsWith s query) suggestions
        else suggestions in
      Some (sort suggestions)
  end.

(** [getSuggestions] of the R04 file, lines 190-221: the loop steps into
    [current[lowerToken]] when it is truthy and an object. *)
Definition getSuggestionsR04 (data : R04.CommandNode) (line : string)
    (context : TriggerInfo) : option (list string) :=
  let prefix := trim (substring 0 (start context) line) in
  let pathTokens :=
    if Nat.ltb 0 (String.length prefix) then split_ws prefix else [] in
  match resolve r04_own (fun v => truthy v && is_object v) (Own data)
          (toLowerCase <$> pathTokens) with
  | Unknown => None
  | DeadEnd => Some []
  | Reached current =>
      let query := toLowerCase (query context) in
      let suggestions :=
        filter
          (λ k, negb (String.eqb k "_desc") && startsWith k query)
          (keys R04.keys current) in
      Some (sort suggestions)
  end.

(** The host calls [onTrigger] and then [getSuggestions]; the outer
    [None] is "no trigger". *)
Definition suggest (data : Main.CommandNode) (line : string) (ch : nat)
    : option (option (list string)) :=
  context ← Main.onTrigger line ch; Some (getSuggestions data line context).

(** The token sequence comes to a token for which the node has no
    property at all, own or inherited. *)
Definition dead_end (root : Main.CommandNode) (tokens : list string) : Prop :=
  ∃ (done : list string) (token : string) (rest : list string) n,
    tokens = (done ++ token :: rest)%list ∧
    Main.reaches root done n ∧
    Main.children n !! token = None ∧
    Prototype.inherited token = false.

End Realm.

(* ===================================================================== *)
(** * The builders on a store of objects *)
(* ===================================================================== *)

(** The two builders once more, this time with the objects they read and
    write kept in a store, so that the raw dictionary, the tree and the
    built-in objects are objects side by side and a write to the one or
    the other can be told apart. *)

Module Store.

(** A JavaScript value: a primitive, or a reference to an object. *)
Inductive Val : Type :=
| VUndefined
| VNull
| VBool (b : bool)
| VNumber (n : Z)
| VString (s : string)
| VRef (l : nat).

(** An object: whether it is an array, and its own properties in
    enumeration order (for an array, the elements under their indices). *)
Record Object : Type := mkObject {
  is_array : bool;
  props : list (string * Val)
}.

(** The store is the list of the objects allocated so far; a reference
    is an index in it, and allocation appends.  References 0 and 1 are
    the two built-in objects the builders can come upon:
    [Object.prototype], the prototype of every object made by [{}] or
    read from a JSON document, and the function [Object], its
    [constructor].  Of a built-in object the store holds the properties
    added to it since the program started; [get_property] answers its
    built-in properties.  (A reference beyond the end does not occur;
    reading through one yields [undefined] and writing through one does
    nothing.) *)
Definition object_prototype : nat := 0.
Definition object_function : nat := 1.

(** A computation ends with a value, or raises [TypeError], or comes
    upon a part of JavaScript that is not described here ([Beyond]: a
    built-in property other than the ones below, the enumeration of a
    property added to [Object.prototype], a write to an array), or runs
    out of the fuel that bounds the recursion. *)
Inductive Outcome (A : Type) : Type :=
| Done (a : A) (σ : list Object)
| Throw (σ : list Object)
| Beyond
| OutOfFuel.

Arguments Done {A} a σ.
Arguments Throw {A} σ.
Arguments Beyond {A}.
Arguments OutOfFuel {A}.

Definition M (A : Type) : Type := list Object → Outcome A.

#[export] Instance M_ret : MRet M := fun A a σ => Done a σ.

#[export] Instance M_bind : MBind M := fun A B k m σ =>
  match m σ with
  | Done a σ' => k a σ'
  | Throw σ' => Throw σ'
  | Beyond => Beyond
  | OutOfFuel => OutOfFuel
  end.

Definition throw {A} : M A := fun σ => Throw σ.

Definition beyond {A} : M A := fun _ => Beyond.

Definition out_of_fuel {A} : M A := fun _ => OutOfFuel.

(** The object literal [{}]. *)
Definition alloc : M Val :=
  fun σ => Done (VRef (length σ)) (σ ++ [mkObject false []]).

(** The value of the own property [key] in a list of properties, and
    whether there is one. *)
Fixpoint own (key : string) (ps : list (string * Val)) : Val :=
  match ps with
  | [] => VUndefined
  | (k, v) :: rest => if String.eqb k key then v else own key rest
  end.

Fixpoint has (key : string) (ps : list (string * Val)) : bool :=
  match ps with
  | [] => false
  | (k, _) :: rest => String.eqb k key || has key rest
  end.

(** The list of properties after [o[key] = v]. *)
Fixpoint put (key : string) (v : Val) (ps : list (string * Val))
    : list (string * Val) :=
  match ps with
  | [] => [(key, v)]
  | (k, w) :: rest =>
      if String.eqb k key then (k, v) :: rest else (k, w) :: put key v rest
  end.

(** The own properties of a primitive string: its length and its
    characters under their indices. *)
Definition string_own (s key : string) : Val :=
  if String.eqb key "length" then VNumber (Z.of_nat (String.length s))
  else
    match List.find (fun i => String.eqb (pretty i) key)
            (seq 0 (String.length s)) with
    | Some i =>
        match String.get i s with
        | Some c => VString (String c EmptyString)
        | None => VUndefined
        end
    | None => VUndefined
    end.

Definition string_has (s key : string) : bool :=
  String.eqb key "length"
  || existsb (fun i => String.eqb (pretty i) key) (seq 0 (String.length s)).

(** Names that no built-in object has as a property: the names the
    builders read or write by name, and the names of fewer than two
    characters. *)
Definition free_name (key : string) : bool :=
  String.eqb key "_options" || String.eqb key "description"
  || String.eqb key "_desc" || Nat.leb (String.length key) 1.

(** The properties added to [Object.prototype]. *)
Definition added (σ : list Object) : list (string * Val) :=
  match σ !! object_prototype with
  | Some p => props p
  | None => []
  end.

(** [Object.prototype[key]], read through an object that inherits from
    it, or on [Object.prototype] itself ([self]): a property added to
    it, or one of its built-in properties ([Prototype.names]): the
    function [Object] under [constructor], the prototype of the object
    under [__proto__]; the built-in methods are not described. *)
Definition from_object_prototype (self : bool) (key : string) : M Val :=
  fun σ =>
    if has key (added σ) then Done (own key (added σ)) σ
    else if String.eqb key "constructor" then Done (VRef object_function) σ
    else if String.eqb key "__proto__"
         then Done (if self then VNull else VRef object_prototype) σ
    else if Prototype.inherited key then Beyond
    else Done VUndefined σ.

(** What follows the own properties of an array, of the function
    [Object] or of a primitive on the prototype chain, before
    [Object.prototype]: built-in properties that are not described,
    except that none has a [free_name]. *)
Definition past_builtins (key : string) : M Val :=
  fun σ => if free_name key then from_object_prototype false key σ else Beyond.

(** [v[key]]: the own property, or else the property found along the
    prototype chain.  Reading a property of [null] or [undefined] raises
    [TypeError]. *)
Definition get_property (v : Val) (key : string) : M Val :=
  fun σ =>
    match v with
    | VUndefined | VNull => Throw σ
    | VRef l =>
        match σ !! l with
        | Some o =>
            if is_array o && String.eqb key "length"
            then Done (VNumber (Z.of_nat (length (props o)))) σ
            else if has key (props o) then Done (own key (props o)) σ
            else if Nat.eqb l object_prototype
                 then from_object_prototype true key σ
            else if Nat.eqb l object_function then
              if String.eqb key "name" then Done (VString "Object") σ
              else if String.eqb key "length" then Done (VNumber 1) σ
              else if String.eqb key "prototype"
                   then Done (VRef object_prototype) σ
              else past_builtins key σ
            else if is_array o then past_builtins key σ
            else from_object_prototype false key σ
        | None => Done VUndefined σ
        end
    | VString s =>
        if string_has s key then Done (string_own s key) σ
        else past_builtins key σ
    | VBool _ | VNumber _ => past_builtins key σ
    end.

(** [v[key] = w] in strict code.
    - On an object, an own property is updated, a missing one is
      created, except under [__proto__], which is the accessor of
      [Object.prototype]: its setter changes the prototype of the object
      (not described), refuses to change the one of [Object.prototype]
      ([TypeError]), and ignores a primitive [w].
    - On the function [Object], [name], [length] and [prototype] are
      read-only ([TypeError]).
    - On a primitive the write raises [TypeError], except under
      [__proto__], where the setter ignores it. *)
Definition set_property (v : Val) (key : string) (w : Val) : M unit :=
  fun σ =>
    match v with
    | VRef l =>
        match σ !! l with
        | Some o =>
            let written :=
              Done tt
                (alter (fun o => mkObject (is_array o) (put key w (props o)))
                   l σ) in
            if is_array o then Beyond
            else if has key (props o) then written
            else if String.eqb key "__proto__" then
              match w with
              | VRef _ =>
                  if Nat.eqb l object_prototype then Throw σ else Beyond
              | VNull =>
                  if Nat.eqb l object_prototype then Done tt σ else Beyond
              | _ => Done tt σ
              end
            else if Nat.eqb l object_function then
              if String.eqb key "name" || String.eqb key "length"
                 || String.eqb key "prototype" then Throw σ
              else if free_name key then written
              else Beyond
            else written
        | None => Done tt σ
        end
    | VUndefined | VNull => Throw σ
    | VBool _ | VNumber _ | VString _ =>
        if String.eqb key "__proto__" then Done tt σ else Throw σ
    end.

(** The own enumerable properties of a value, in enumeration order. *)
Definition own_names (σ : list Object) (v : Val) : list string :=
  match v with
  | VRef l =>
      match σ !! l with
      | Some o => (props o).*1
      | None => []
      end
  | VString s => pretty <$> seq 0 (String.length s)
  | _ => []
  end.

(** The keys [for (const key in v)] enumerates: the own ones, then the
    ones inherited and not shadowed.  The built-in properties are not
    enumerable; the enumeration of a property added to
    [Object.prototype] is not described. *)
Definition for_in_keys (v : Val) : M (list string) :=
  fun σ =>
    match v with
    | VUndefined | VNull => Done [] σ
    | _ =>
        let inherited :=
          match v with
          | VRef l =>
              if Nat.eqb l object_prototype then []
              else filter (fun k => k ∉ own_names σ v) (added σ).*1
          | _ => filter (fun k => k ∉ own_names σ v) (added σ).*1
          end in
        match inherited with
        | [] => Done (own_names σ v) σ
        | _ :: _ => Beyond
        end
    end.

(** [Object.entries(v)]; it raises [TypeError] on [null] and
    [undefined]. *)
Definition own_entries (v : Val) : M (list (string * Val)) :=
  fun σ =>
    match v with
    | VUndefined | VNull => Throw σ
    | VRef l =>
        match σ !! l with
        | Some o => Done (props o) σ
        | None => Done [] σ
        end
    | VString s =>
        Done ((fun i => (pretty i,
                         match String.get i s with
                         | Some c => VString (String c EmptyString)
                         | None => VUndefined
                         end)) <$> seq 0 (String.length s)) σ
    | _ => Done [] σ
    end.

(** The truth value of a value. *)
Definition truthy (v : Val) : bool :=
  match v with
  | VUndefined | VNull => false
  | VBool b => b
  | VNumber n => negb (Z.eqb n 0)
  | VString s => Text.truthy s
  | VRef _ => true
  end.

(** [Array.isArray(v)] *)
Definition isArray (v : Val) : M bool :=
  fun σ =>
    match v with
    | VRef l =>
        match σ !! l with
        | Some o => Done (is_array o) σ
        | None => Done false σ
        end
    | _ => Done false σ
    end.

(** [typeof v === 'object']: [null] and the objects other than
    functions. *)
Definition is_object (v : Val) : bool :=
  match v with
  | VNull => true
  | VRef l => negb (Nat.eqb l object_function)
  | _ => false
  end.

(** The elements [array.forEach] visits, in order. *)
Definition elements (v : Val) : M (list Val) :=
  fun σ =>
    match v with
    | VRef l =>
        match σ !! l with
        | Some o => Done (props o).*2 σ
        | None => Done [] σ
        end
    | _ => Done [] σ
    end.

(** A loop over a list. *)
Fixpoint for_each {A} (body : A → M unit) (l : list A) : M unit :=
  match l with
  | [] => mret tt
  | x :: rest => body x ;; for_each body rest
  end.

(** ** [normalizeTree] of [src/main.ts] *)

(** [if (!node[name]) node[name] = {}], lines 95 and 109. *)
Definition ensure_child (node : Val) (name : string) : M unit :=
  v ← get_property node name;
  if truthy v then mret tt else o ← alloc; set_property node name o.

(** The loop over [parts], lines 92-104; [recurse] is the recursive
    call [traverse(nextLevel, temp[part])]. *)
Fixpoint loop_parts (recurse : Val → Val → M unit) (currentRaw : Val)
    (key : string) (parts : list string) (temp : Val) : M unit :=
  match parts with
  | [] => mret tt
  | part :: rest =>
      ensure_child temp part ;;
      match rest with
      | [] =>
          nextLevel ← get_property currentRaw key;
          array ← isArray nextLevel;
          if is_object nextLevel && negb array then
            child ← get_property temp part; recurse nextLevel child
          else mret tt
      | _ :: _ =>
          next ← get_property temp part;
          loop_parts recurse currentRaw key rest next
      end
  end.

(** One round of [raw._options.forEach], lines 107-110. *)
Definition add_option (currentRoot : Val) (opt : Val) : M unit :=
  match opt with
  | VString s => ensure_child currentRoot (toLowerCase s)
  | _ => throw
  end.

(** [traverse(currentRaw, currentRoot)], lines 88-112; [raw] is the
    argument of [normalizeTree].  The recursion follows the references
    of the raw dictionary, so it is bounded by [fuel].  Whether
    [for ... in] visits a property that appears while the loop runs is
    left open by ECMAScript: when the keys of [currentRaw] are not the
    same after the loop, the run is not described. *)
Fixpoint traverse (fuel : nat) (raw currentRaw currentRoot : Val) : M unit :=
  match fuel with
  | 0 => out_of_fuel
  | S fuel' =>
      keys ← for_in_keys currentRaw;
      for_each
        (fun key =>
           if String.eqb key "_options" then mret tt
           else loop_parts (traverse fuel' raw) currentRaw key
                  (split_ws (toLowerCase key)) currentRoot)
        keys ;;
      keys' ← for_in_keys currentRaw;
      (if decide (keys' = keys) then mret tt else beyond) ;;
      options ← get_property raw "_options";
      array ← isArray options;
      if truthy options && array then
        opts ← elements options; for_each (add_option currentRoot) opts
      else mret tt
  end.

(** [normalizeTree(raw)], lines 86-115. *)
Definition normalizeTree (fuel : nat) (raw : Val) : M Val :=
  root ← alloc; traverse fuel raw raw root ;; mret root.

(** ** [buildTreeFromR04] of the R04 plugin file *)

(** The loop over [parts], lines 141-155. *)
Fixpoint insert_command (parts : list string) (details : Val)
    (currentLevel : Val) : M unit :=
  match parts with
  | [] => mret tt
  | p :: rest =>
      let part := toLowerCase p in
      ensure_child currentLevel part ;;
      next ← get_property currentLevel part;
      match rest with
      | [] =>
          d ← get_property details "description";
          set_property next "_desc" d
      | _ :: _ => insert_command rest details next
      end
  end.

(** [buildTreeFromR04()], lines 131-157; [commandsR04] is
    [this.commandsR04] and the result is [this.autocompleteTree]. *)
Definition buildTreeFromR04 (commandsR04 : Val) : M Val :=
  autocompleteTree ← alloc;
  entries ← own_entries commandsR04;
  for_each
    (fun '(cmdName, details) =>
       insert_command (split_ws (trim cmdName)) details autocompleteTree)
    entries ;;
  mret autocompleteTree.

(** ** Vocabulary of the statements *)

(** Every object of [σ] is in [σ'], at its place and as it was. *)
Definition unchanged (σ σ' : list Object) : Prop :=
  ∀ l o, σ !! l = Some o → σ' !! l = Some o.

(** The store of a program that starts: the two built-in objects are
    there, and nothing has been added to them. *)
Definition realm (σ : list Object) : Prop :=
  σ !! object_prototype = Some (mkObject false [])
  ∧ σ !! object_function = Some (mkObject false []).

(** [v] is a primitive or a reference to one of the first [n]
    objects. *)
Definition old (n : nat) (v : Val) : Prop :=
  match v with
  | VRef l => (l < n)%nat
  | _ => True
  end.

(** The objects of the store refer to objects of the store. *)
Definition closed (σ : list Object) : Prop :=
  ∀ l o, σ !! l = Some o → Forall (fun kv => old (length σ) kv.2) (props o).

(** The tokens [normalizeTree] makes of a key, and the name it makes
    of an option, are not names of properties every object inherits. *)
Definition plain_key (key : string) : Prop :=
  Forall (fun token => Prototype.inherited token = false)
    (split_ws (toLowerCase key)).

Definition plain_option (opt : Val) : Prop :=
  match opt with
  | VString s => Prototype.inherited (toLowerCase s) = false
  | _ => True
  end.

(** The keys of the objects of the store and the elements of its arrays
    are plain. *)
Definition plain (σ : list Object) : Prop :=
  ∀ l o, σ !! l = Some o →
    Forall
      (fun kv => plain_key kv.1 ∧ (is_array o = true → plain_option kv.2))
      (props o).

(** [v] is an array of the store [σ]. *)
Definition old_array (σ : list Object) (v : Val) : Prop :=
  ∃ l o, v = VRef l ∧ σ !! l = Some o ∧ is_array o = true.

(** [v] is a reference to an object allocated after the first [n]. *)
Definition fresh (n : nat) (v : Val) : Prop :=
  match v with
  | VRef l => (n ≤ l)%nat
  | _ => False
  end.

(** What the loops of the builders stand on: a node allocated after the
    first [n] objects, or [undefined]. *)
Definition node (n : nat) (v : Val) : Prop :=
  match v with
  | VUndefined => True
  | VRef l => (n ≤ l)%nat
  | _ => False
  end.

(** A property of a node of the tree: a reference to a node, or, in
    the tree of [buildTreeFromR04] ([strings]), a string under
    [_desc]. *)
Definition node_property (strings : bool) (n : nat) (kv : string * Val)
    : Prop :=
  match kv.2 with
  | VRef l => (n ≤ l)%nat
  | VString _ => strings = true ∧ kv.1 = "_desc"
  | _ => False
  end.

(** The store extends [σ0], and the objects allocated since are nodes
    of a tree: they hold no reference to an object of [σ0]. *)
Definition extends (strings : bool) (σ0 : list Object) (σ : list Object)
    : Prop :=
  σ0 `prefix_of` σ
  ∧ ∀ l o, (length σ0 ≤ l)%nat → σ !! l = Some o →
      is_array o = false
      ∧ Forall (node_property strings (length σ0)) (props o).

(** The JSON document that the store holds at [v], read down to the
    depth [fuel]; [undefined] is not JSON. *)
Fixpoint read_json (fuel : nat) (σ : list Object) (v : Val)
    : option Main.Json :=
  match fuel with
  | 0 => None
  | S fuel' =>
      match v with
      | VUndefined => None
      | VNull => Some Main.JNull
      | VBool b => Some (Main.JBool b)
      | VNumber n => Some (Main.JNum n)
      | VString s => Some (Main.JStr s)
      | VRef l =>
          o ← σ !! l;
          members ← mapM (fun '(k, w) => j ← read_json fuel' σ w; Some (k, j))
                      (props o);
          Some (if is_array o then Main.JArr members.*2
                else Main.JObj members)
      end
  end.

(** The JSON document read at [v] is the same in [σ'] as in [σ], at
    every depth. *)
Definition same_document (σ σ' : list Object) (v : Val) : Prop :=
  ∀ fuel j, read_json fuel σ v = Some j → read_json fuel σ' v = Some j.

(** The tree of [src/main.ts] that the store holds at [v]. *)
Fixpoint read_node (fuel : nat) (σ : list Object) (v : Val)
    : option Main.CommandNode :=
  match fuel, v with
  | S fuel', VRef l =>
      o ← σ !! l;
      children ← mapM (fun '(k, w) => c ← read_node fuel' σ w; Some (k, c))
                   (props o);
      Some (Main.Node (list_to_map children))
  | _, _ => None
  end.

(** The value of the R04 tree that the store holds at [v]. *)
Fixpoint read_value (fuel : nat) (σ : list Object) (v : Val)
    : option R04.Value :=
  match fuel, v with
  | _, VString s => Some (R04.Str s)
  | S fuel', VRef l =>
      o ← σ !! l;
      ps ← mapM (fun '(k, w) => c ← read_value fuel' σ w; Some (k, c))
             (props o);
      Some (R04.Obj (list_to_map ps))
  | _, _ => None
  end.

(** [m] ends with a value or an error, or runs out of fuel, but stays
    within what is described; it leaves the store an extension of [σ0],
    and its result satisfies [Q]. *)
Definition keeps (strings : bool) (σ0 : list Object) {A} (m : M A)
    (Q : A → Prop) : Prop :=
  ∀ σ, extends strings σ0 σ →
    match m σ with
    | Done a σ' => extends strings σ0 σ' ∧ Q a
    | Throw σ' => extends strings σ0 σ'
    | Beyond => False
    | OutOfFuel => True
    end.

(** [m] does not depend on fuel. *)
Definition fuel_free {A} (m : M A) : Prop :=
  ∀ σ, m σ ≠ OutOfFuel.

(** Within an extension of [σ0], [m] does not run out of fuel. *)
Definition within_fuel (strings : bool) (σ0 : list Object) {A} (m : M A)
    : Prop :=
  ∀ σ, extends strings σ0 σ → m σ ≠ OutOfFuel.

(** The objects below [v] in [σ] are nested less than [fuel] deep, and
    [v] is not a reference beyond the store. *)
Fixpoint shallow (σ : list Object) (fuel : nat) (v : Val) : Prop :=
  match fuel with
  | 0 => False
  | S fuel' =>
      match v with
      | VRef l =>
          match σ !! l with
          | Some o =>
              Forall (fun kv => is_object kv.2 = true → shallow σ fuel' kv.2)
                     (props o)
          | None => False
          end
      | _ => True
      end
  end.

(** The two built-in objects of a store that starts. *)
Definition builtins : list Object :=
  [ mkObject false []; mkObject false [] ].

(** A store with, at reference 2, the nested dictionary
    [{ "_options": ["Detail"], "Show IP": { "isis": null, "Interface": {} } }]. *)
Definition nested_example : list Object :=
  builtins ++
  [ mkObject false [ ("_options", VRef 3); ("Show IP", VRef 4) ];
    mkObject true [ ("0", VString "Detail") ];
    mkObject false [ ("isis", VNull); ("Interface", VRef 5) ];
    mkObject false [] ].

(** A store with, at reference 2, the flat dictionary of the scenarios. *)
Definition flat_example : list Object :=
  builtins ++
  [ mkObject false
      [ ("show ip interface", VRef 3); ("show ip isis status", VRef 4) ];
    mkObject false
      [ ("command", VString "show ip interface");
        ("description", VString "D1") ];
    mkObject false
      [ ("command", VString "show ip isis status");
        ("description", VString "D2") ] ].

(** A store with, at reference 2, the flat dictionary
    [{ "a": { description: "D" }, "a _desc b": { description: "E" } }]. *)
Definition clash_example : list Object :=
  builtins ++
  [ mkObject false [ ("a", VRef 3); ("a _desc b", VRef 4) ];
    mkObject false [ ("description", VString "D") ];
    mkObject false [ ("description", VString "E") ] ].

(** A store with, at reference 2, the flat dictionary
    [{ "__proto__ b": { description: "D" } }], as [JSON.parse] makes
    it. *)
Definition polluting_example : list Object :=
  builtins ++
  [ mkObject false [ ("__proto__ b", VRef 3) ];
    mkObject false [ ("description", VString "D") ] ].

(** A store with, at reference 2, the nested dictionary
    [{ "zz": 1, "__proto__ zz": 2 }]. *)
Definition polluting_nested_example : list Object :=
  builtins ++
  [ mkObject false [ ("zz", VNumber 1); ("__proto__ zz", VNumber 2) ] ].

(** [details.description] is a string in [σ0]. *)
Definition described (σ0 : list Object) (details : Val) : Prop :=
  ∃ l o d, details = VRef l ∧ σ0 !! l = Some o
           ∧ is_array o = false
           ∧ has "description" (props o) = true
           ∧ own "description" (props o) = VString d.

(** [commandsR04] is a dictionary of the type
    [{ [key: string]: CommandDetail }] as far as [buildTreeFromR04]
    reads it: an object of the store, every entry of which is an object
    whose [description] is a string. *)
Definition typed_dictionary (σ : list Object) (commandsR04 : Val) : Prop :=
  ∃ l o, commandsR04 = VRef l ∧ σ !! l = Some o
         ∧ Forall (fun kv => described σ kv.2) (props o).

(** The command strings of the dictionary are valid
    ([R04.valid_commands]). *)
Definition valid_dictionary (σ : list Object) (commandsR04 : Val) : Prop :=
  ∀ l o, commandsR04 = VRef l → σ !! l = Some o →
    Forall
      (fun kv =>
         Forall (fun token => R04.edge_token token = true)
           (R04.command_tokens kv.1))
      (props o).

End Store.

(* ===================================================================== *)
(** * The wording of the specification *)
(* ===================================================================== *)

Module Spec.

(** The completed tokens of a query whose partial token starts at
    column [start]: the text before it, trimmed, split on whitespace
    (no token when that text is empty), each token in lower case. *)
Definition completed_tokens (line : string) (start : nat) : list string :=
  let prefix := trim (substring 0 start line) in
  if String.eqb prefix EmptyString then []
  else toLowerCase <$> split_ws prefix.

(** The dictionary of the scenarios: "show ip interface" and
    "show ip isis status", with the descriptions "D1" and "D2". *)
Definition detail (command description : string) : R04.CommandDetail :=
  R04.mkDetail command description EmptyString [] EmptyString [] [] [] [] []
    [] [].

Definition scenario_commands : list (string * R04.CommandDetail) :=
  [ ("show ip interface", detail "show ip interface" "D1");
    ("show ip isis status", detail "show ip isis status" "D2") ].

(** Strictly ascending order on the token strings. *)
Definition strictly_sorted (l : list string) : Prop :=
  Sorted str_lt l.

(** The classifier as an ordered list of rules: the result is the
    class of the first rule whose test accepts the token, and no class
    when none does. *)
Definition rules (keywords : Main.Keywords)
    : list ((string → bool) * option string) :=
  [ (is_whitespace_run, None);
    (is_ipv4, Some "aosr8-number");
    (fun t => is_mac_colon t || is_mac_dot t, Some "aosr8-mac");
    (is_number, Some "aosr8-number");
    (is_quoted, Some "aosr8-string");
    (fun t => Main.has (Main.keywords1 keywords) (toLowerCase t),
      Some "aosr8-keyword");
    (fun t => Main.has (Main.keywords2 keywords) (toLowerCase t),
      Some "aosr8-type");
    (fun t => Main.has (Main.keywords3 keywords) (toLowerCase t),
      Some "aosr8-invalid");
    (fun t => Main.has (Main.keywords4 keywords) (toLowerCase t),
      Some "aosr8-atom");
    (fun t => Main.has (Main.keywords5 keywords) (toLowerCase t),
      Some "aosr8-variable") ].

Fixpoint first_match (rs : list ((string → bool) * option string))
    (token : string) : option string :=
  match rs with
  | [] => None
  | (test, category) :: rest =>
      if test token then category else first_match rest token
  end.

Definition category_of (keywords : Main.Keywords) (token : string)
    : option string :=
  first_match (rules keywords) token.

End Spec.

(* ===================================================================== *)
(** * The code-block processors: a line split into spans *)
(* ===================================================================== *)

Module Highlight.

(** The character class [[ \t]]. *)
Definition is_blank (c : ascii) : bool :=
  Ascii.eqb c " " || Ascii.eqb c "009".

(** The longest run of [[ \t]] at the front of [s]: its length. *)
Fixpoint blank_run (s : string) : nat :=
  match s with
  | String c r => if is_blank c then S (blank_run r) else 0
  | EmptyString => 0
  end.

(** The character class [[()[\]{} M,]] of [src/main.ts]. *)
Definition is_delimiter (c : ascii) : bool :=
  existsb (Ascii.eqb c) (list_ascii_of_string "()[]{} M,").

(** The separator [/([ \t]+|[()[\]{} M,])/] of [src/main.ts] matched at
    the front of [s]: the number of characters it takes, [0] when it
    does not match there.  The first alternative is tried first and is
    greedy. *)
Definition separator (s : string) : nat :=
  match s with
  | String c _ =>
      if is_blank c then blank_run s
      else if is_delimiter c then 1 else 0
  | EmptyString => 0
  end.

(** The backslash. *)
Definition backslash : ascii := ascii_of_nat 92.

(** The separator [/([ \t]+|[()[\\]{} M,])/] of the R04 file.  Its
    character class ends at the first unescaped bracket, so that the
    second alternative is one of the four characters (, ), [ and
    backslash followed by the six literal characters of "{} M,]". *)
Definition separatorR04 (s : string) : nat :=
  match s with
  | String c r =>
      if is_blank c then blank_run s
      else if existsb (Ascii.eqb c) ["("; ")"; "["; backslash]%char
              && String.prefix "{} M,]" r
           then 7 else 0
  | EmptyString => 0
  end.

(** [s.split(re)] for a pattern [re] that is one capturing group: the
    pieces of [s] between the matches, each match inserted between its
    two pieces.  [sep] gives the length of the match at the front of a
    text and [skip] the number of characters of the current match still
    to be taken.  The head of the result is the element under
    construction: a piece when [skip] is [0], the rest of a match
    otherwise. *)
Fixpoint split_with (sep : string → nat) (skip : nat) (s : string)
    : list string :=
  match s with
  | EmptyString => [EmptyString]
  | String c r =>
      let inside k :=
        match k with
        | 0 => String c EmptyString :: split_with sep 0 r
        | S _ =>
            match split_with sep k r with
            | t :: ts => String c t :: ts
            | [] => [String c EmptyString]
            end
        end in
      match skip with
      | S k => inside k
      | 0 =>
          match sep s with
          | S k => EmptyString :: inside k
          | 0 =>
              match split_with sep 0 r with
              | t :: ts => String c t :: ts
              | [] => [String c EmptyString]
              end
          end
      end
  end.

Definition split (sep : string → nat) (s : string) : list string :=
  split_with sep 0 s.

(** The line feed, and [source.split("\n")]: the head of the result is
    the line under construction. *)
Definition line_feed : ascii := "010".

Fixpoint lines (source : string) : list string :=
  match source with
  | EmptyString => [EmptyString]
  | String c r =>
      if Ascii.eqb c line_feed then EmptyString :: lines r
      else
        match lines r with
        | l :: ls => String c l :: ls
        | [] => [String c EmptyString]
        end
  end.

(** [line.trim().startsWith("!") || line.trim().startsWith("#")] *)
Definition is_comment (line : string) : bool :=
  startsWith (trim line) "!" || startsWith (trim line) "#".

(** The spans created in the [token-line] division of one line by the
    processor of [src/main.ts], lines 27-82. *)
Definition render_line (keywords : Main.Keywords) (line : string)
    : list Main.Span :=
  if is_comment line then [Main.mkSpan line (Some "aosr8-comment")]
  else omap (Main.classify keywords) (split separator line).

(** The processor of [src/main.ts], lines 20-83: one division per line
    of the source, in order, each with its spans. *)
Definition render (keywords : Main.Keywords) (source : string)
    : list (list Main.Span) :=
  render_line keywords <$> lines source.

(** The body of the loop over [parts] in the R04 file, lines 120-126. *)
Definition classifyR04 (keywords : Main.Keywords) (part : string)
    : option Main.Span :=
  if String.eqb part EmptyString then None
  else
    let lower := toLowerCase part in
    Some
      (if is_whitespace_run part then Main.mkSpan part None
       else if Main.has (Main.keywords1 keywords) lower
            then Main.mkSpan part (Some "aosr8-keyword")
       else Main.mkSpan part None).

(** The processor of the R04 file, lines 109-128. *)
Definition render_lineR04 (keywords : Main.Keywords) (line : string)
    : list Main.Span :=
  if is_comment line then [Main.mkSpan line (Some "aosr8-comment")]
  else omap (classifyR04 keywords) (split separatorR04 line).

Definition renderR04 (keywords : Main.Keywords) (source : string)
    : list (list Main.Span) :=
  render_lineR04 keywords <$> lines source.

(** The text shown by a division: its spans one after the other. *)
Definition shown (spans : list Main.Span) : string :=
  String.concat EmptyString (Main.text <$> spans).

(** [lines.join("\n")] *)
Definition join_lines (ls : list string) : string :=
  String.concat (String line_feed EmptyString) ls.

(** A part of a line without any character the pattern of
    [src/main.ts] splits on. *)
Fixpoint plain (s : string) : bool :=
  match s with
  | EmptyString => true
  | String c r => negb (is_blank c) && negb (is_delimiter c) && plain r
  end.

(** A non-empty run of [[ \t]]. *)
Fixpoint blanks (s : string) : bool :=
  match s with
  | EmptyString => false
  | String c EmptyString => is_blank c
  | String c r => is_blank c && blanks r
  end.

(** One delimiter character. *)
Definition one_delimiter (s : string) : bool :=
  match s with
  | String c EmptyString => is_delimiter c
  | _ => false
  end.

(** The shape of a part of a line: a text free of separators, a run of
    blanks, or one delimiter. *)
Definition part_shape (s : string) : bool :=
  plain s || blanks s || one_delimiter s.

End Highlight.

(* ===================================================================== *)
(** * [src/syntax.ts]: the stream tokenizer of the editor *)
(* ===================================================================== *)

Module Lexer.

(** The tags [token] returns: [t.lineComment], [t.string], [t.number],
    [t.special(t.string)], [t.keyword], [t.typeName], [t.invalid],
    [t.atom] and [t.variableName]. *)
Inductive Tag : Type :=
| lineComment
| string_
| number
| special_string
| keyword
| typeName
| invalid
| atom
| variableName.

(** The [StringStream] of the host is the line and a position in it.
    [token] uses it through [eatSpace], [match] with patterns anchored
    at the position and [next] only, which read and move forward; the
    stream is therefore represented by the text from its position on,
    and each method answers with the text left when it succeeds. *)

(** [stream.eatSpace()]: [None] when nothing was taken. *)
Definition eatSpace (s : string) : option string :=
  match s with
  | String c r => if is_space c then Some (trimStart r) else None
  | EmptyString => None
  end.

(** The characters [.] does not match: the line terminators. *)
Definition is_line_terminator (c : ascii) : bool :=
  Ascii.eqb c "010" || Ascii.eqb c "013".

(** Greedy [p*] at the front of [s]: the text left. *)
Fixpoint skip_while (p : ascii → bool) (s : string) : string :=
  match s with
  | String c r => if p c then skip_while p r else s
  | EmptyString => EmptyString
  end.

(** [p+] *)
Definition eat_some (p : ascii → bool) (s : string) : option string :=
  match s with
  | String c r => if p c then Some (skip_while p r) else None
  | EmptyString => None
  end.

(** [stream.match(/^!.*/)] and [stream.match(/^#.*/)], for the mark
    [!] or [#]. *)
Definition match_comment (mark : ascii) (s : string) : option string :=
  r ← eat_char mark s;
  Some (skip_while (fun c => negb (is_line_terminator c)) r).

(** The lazy [.*?] and the closing quote of [stringRegex]: up to the
    first double quote, over characters [.] matches. *)
Fixpoint close_quote (s : string) : option string :=
  match s with
  | EmptyString => None
  | String c r =>
      if Ascii.eqb c dquote then Some r
      else if is_line_terminator c then None
      else close_quote r
  end.

(** [stream.match(stringRegex)] *)
Definition match_string (s : string) : option string :=
  r ← eat_char dquote s; close_quote r.

(** [stream.match(ipRegex)] *)
Definition match_ip (s : string) : option string :=
  in_sequence
    [ eat is_digit 1 3; eat_char "."; eat is_digit 1 3; eat_char ".";
      eat is_digit 1 3; eat_char "."; eat is_digit 1 3 ] s.

(** [stream.match(macRegex)] *)
Definition match_mac (s : string) : option string :=
  in_sequence
    [ eat is_hex 2 2;
      eat_char ":"; eat is_hex 2 2; eat_char ":"; eat is_hex 2 2;
      eat_char ":"; eat is_hex 2 2; eat_char ":"; eat is_hex 2 2;
      eat_char ":"; eat is_hex 2 2 ] s.

(** [stream.match(macRegexDot)] *)
Definition match_mac_dot (s : string) : option string :=
  in_sequence
    [ eat is_hex 4 4; eat_char "."; eat is_hex 4 4; eat_char ".";
      eat is_hex 4 4 ] s.

(** [stream.match(numberRegex)] *)
Definition match_number (s : string) : option string :=
  eat_some is_digit s.

(** The character class [[\w\d\.-]]. *)
Definition is_word_char (c : ascii) : bool :=
  let n := nat_of_ascii c in
  is_digit c || (Nat.leb 97 n && Nat.leb n 122)
             || (Nat.leb 65 n && Nat.leb n 90)
             || Ascii.eqb c "_" || Ascii.eqb c "." || Ascii.eqb c "-".

(** [stream.match(/^[\w\d\.-]+/)] *)
Definition match_word (s : string) : option string :=
  eat_some is_word_char s.

(** [stream.next()]: one character forward, unless at the end. *)
Definition next (s : string) : string :=
  match s with
  | String _ r => r
  | EmptyString => EmptyString
  end.

(** The text a method took: what [s] has in front of [rest]. *)
Definition taken (s rest : string) : string :=
  substring 0 (String.length s - String.length rest) s.

(** The chain of lookups on the word, lines 46-52; [None] is [null]. *)
Definition tag_of_word (keywords : Main.Keywords) (word : string)
    : option Tag :=
  if Main.has (Main.keywords1 keywords) word then Some keyword
  else if Main.has (Main.keywords2 keywords) word then Some typeName
  else if Main.has (Main.keywords3 keywords) word then Some invalid
  else if Main.has (Main.keywords4 keywords) word then Some atom
  else if Main.has (Main.keywords5 keywords) word then Some variableName
  else None.

(** [token(stream)], lines 13-60: the tag, [None] for [null], and the
    stream after the call. *)
Definition token (keywords : Main.Keywords) (s : string)
    : option Tag * string :=
  match eatSpace s with
  | Some r => (None, r)
  | None =>
  match (match match_comment "!" s with
         | Some r => Some r
         | None => match_comment "#" s
         end) with
  | Some r => (Some lineComment, r)
  | None =>
  match match_string s with
  | Some r => (Some string_, r)
  | None =>
  match match_ip s with
  | Some r => (Some number, r)
  | None =>
  match (match match_mac s with
         | Some r => Some r
         | None => match_mac_dot s
         end) with
  | Some r => (Some special_string, r)
  | None =>
  match match_number s with
  | Some r => (Some number, r)
  | None =>
  match match_word s with
  | Some r => (tag_of_word keywords (toLowerCase (taken s r)), r)
  | None => (None, next s)
  end end end end end end end.

(** The host reads a line by calling [token] until the stream is at its
    end; each call must move the stream, or the host gives up with
    "Stream parser failed to advance stream" ([None]).  The result
    lists the tokens with the text of each; [fuel] bounds the number of
    calls. *)
Fixpoint read_line (fuel : nat) (keywords : Main.Keywords) (s : string)
    : option (list (option Tag * string)) :=
  match s with
  | EmptyString => Some []
  | String _ _ =>
      match fuel with
      | 0 => None
      | S fuel' =>
          let '(tag, rest) := token keywords s in
          if Nat.ltb (String.length rest) (String.length s) then
            toks ← read_line fuel' keywords rest;
            Some ((tag, taken s rest) :: toks)
          else None
      end
  end.

(** [rest] is what is left of [s] after some text, and after some
    text that is not empty. *)
Definition left_of (s rest : string) : Prop := ∃ t, s = t ++ rest.

Definition advanced (s rest : string) : Prop :=
  ∃ t, t ≠ EmptyString ∧ s = t ++ rest.

(** A text without line terminator, as the lines of the editor are. *)
Fixpoint one_line (s : string) : bool :=
  match s with
  | EmptyString => true
  | String c r => negb (is_line_terminator c) && one_line r
  end.

End Lexer.

(* ===================================================================== *)
(** * The R04 file: the search modal *)
(* ===================================================================== *)

Module SearchModal.

(** [s.includes(q)] *)
Fixpoint includes (s q : string) : bool :=
  String.prefix q s ||
  match s with
  | EmptyString => false
  | String _ r => includes r q
  end.

(** The test of the filter, lines 246-249, on the query in lower
    case. *)
Definition found (lowerQuery : string) (cmd : R04.CommandDetail) : bool :=
  includes (toLowerCase (R04.command cmd)) lowerQuery
  || includes (toLowerCase (R04.description cmd)) lowerQuery.

(** [CommandSearchModal.getSuggestions(query)], lines 244-250, on the
    dictionary [this.commands] in enumeration order. *)
Definition getSuggestions (commands : list (string * R04.CommandDetail))
    (query : string) : list R04.CommandDetail :=
  let lowerQuery := toLowerCase query in
  take 50 (filter (λ cmd, found lowerQuery cmd) commands.*2).

End SearchModal.

(* ===================================================================== *)
(** * Words of a line *)
(* ===================================================================== *)

Module Words.

(** The text is empty or ends with whitespace: a token boundary. *)
Fixpoint boundary (s : string) : bool :=
  match s with
  | EmptyString => true
  | String c EmptyString => is_space c
  | String _ r => boundary r
  end.

(** The words of a text: its maximal runs of characters other than
    whitespace. *)
Definition words (s : string) : list string :=
  filter (λ t, truthy t) (split_ws s).

End Words.

(* ===================================================================== *)
(** * The levels of a nested dictionary *)
(* ===================================================================== *)

Module Nested.

(** The token paths of the levels [traverse] works on: the dictionary
    itself and, under the tokens of its key, every level of a value the
    recursive call descends into. *)
Inductive level_path : Main.Json → list string → Prop :=
| level_here j : level_path j []
| level_below members key nextLevel tokens :
    (key, nextLevel) ∈ members → key ≠ "_options" →
    Main.is_plain_object nextLevel = true →
    level_path nextLevel tokens →
    level_path (Main.JObj members)
      (split_ws (toLowerCase key) ++ tokens)%list.

End Nested.

(* ===================================================================== *)
(** * Letter case *)
(* ===================================================================== *)

Module Case.

(** A character class that does not tell the two cases of a letter
    apart. *)
Definition caseless (p : ascii → bool) : Prop := ∀ c, p (lower_char c) = p c.

(** A piece of a pattern that does not tell them apart: on the text in
    lower case it leaves what it leaves on the text, in lower case. *)
Definition caseless_piece (piece : string → option string) : Prop :=
  ∀ s, piece (toLowerCase s) = toLowerCase <$> piece s.

End Case.

(* ===================================================================== *)
(** * Lines beyond ASCII *)
(* ===================================================================== *)

(** The suggestion engine of [src/main.ts] once more, on strings as
    JavaScript has them: sequences of UTF-16 code units, where
    [toLowerCase] can change the length of a string. *)

Module Wide.

(** A string: its UTF-16 code units. *)
Definition Str : Type := list N.

(** The class [\s], which is also what [trim] and [trimStart] strip:
    the white space and line terminator code points of ECMAScript. *)
Definition is_space (u : N) : bool :=
  ((9 <=? u) && (u <=? 13) || (u =? 32) || (u =? 160) || (u =? 5760)
   || (8192 <=? u) && (u <=? 8202) || (u =? 8232) || (u =? 8233)
   || (u =? 8239) || (u =? 8287) || (u =? 12288) || (u =? 65279))%N.

(** [toLowerCase] on one code unit, as far as it is described here:
    [A-Z] go to [a-z]; the other ASCII characters and the combining dot
    above (U+0307) are kept; the capital I with dot above (U+0130)
    becomes the two code units of [i] and U+0307.  [None] for every
    other code unit. *)
Definition lower_unit (u : N) : option Str :=
  if ((65 <=? u) && (u <=? 90))%N then Some [(u + 32)%N]
  else if (u <? 128)%N then Some [u]
  else if (u =? 304)%N then Some [105%N; 775%N]
  else if (u =? 775)%N then Some [775%N]
  else None.

(** [s.toLowerCase()] *)
Fixpoint toLowerCase (s : Str) : option Str :=
  match s with
  | [] => Some []
  | u :: r => l ← lower_unit u; r' ← toLowerCase r; Some (l ++ r')%list
  end.

(** [s.trimStart()] and [s.trim()] *)
Fixpoint trimStart (s : Str) : Str :=
  match s with
  | [] => []
  | u :: r => if is_space u then trimStart r else s
  end.

Definition trim (s : Str) : Str :=
  reverse (trimStart (reverse (trimStart s))).

(** [s.split(/\s+/)], as [Text.split_from]. *)
Fixpoint split_from (inws : bool) (s : Str) : list Str :=
  match s with
  | [] => [[]]
  | u :: r =>
      if is_space u then
        if inws then split_from true r else [] :: split_from true r
      else
        match split_from false r with
        | t :: ts => (u :: t) :: ts
        | [] => [[u]]
        end
  end.

Definition split_ws (s : Str) : list Str := split_from false s.

(** [sub.match(/(\S+)$/)], as [Text.match_tail]. *)
Fixpoint match_tail (i : nat) (s : Str) : option (nat * Str) :=
  match s with
  | [] => None
  | u :: r =>
      if forallb (fun u => negb (is_space u)) s then Some (i, s)
      else match_tail (S i) r
  end.

(** [s.startsWith(q)] *)
Fixpoint startsWith (s q : Str) : bool :=
  match q, s with
  | [], _ => true
  | v :: q', u :: s' => (u =? v)%N && startsWith s' q'
  | _ :: _, [] => false
  end.

(** The default comparison of [sort]: code unit by code unit. *)
Fixpoint leb (a b : Str) : bool :=
  match a, b with
  | [], _ => true
  | _ :: _, [] => false
  | u :: a', v :: b' => (u <? v)%N || (u =? v)%N && leb a' b'
  end.

Definition sort (l : list Str) : list Str :=
  merge_sort (fun a b => Is_true (leb a b)) l.

(** A node of the tree: its own properties, under pairwise distinct
    names. *)
Inductive CommandNode : Type :=
  Node (children : list (Str * CommandNode)).

Definition children (n : CommandNode) : list (Str * CommandNode) :=
  match n with Node c => c end.

Fixpoint own (token : Str) (cs : list (Str * CommandNode))
    : option CommandNode :=
  match cs with
  | [] => None
  | (k, child) :: rest =>
      if bool_decide (k = token) then Some child else own token rest
  end.

(** The name of a property every object inherits, in code units. *)
Definition inherited (token : Str) : bool :=
  existsb
    (fun name =>
       bool_decide
         (token = (fun c => N.of_nat (nat_of_ascii c)) <$> list_ascii_of_string name))
    Prototype.names.

Record TriggerInfo : Type := mkTrigger {
  start : nat;
  end_ : nat;
  query : Str
}.

(** [onTrigger], lines 130-138 of [src/main.ts]. *)
Definition onTrigger (line : Str) (ch : nat) : option TriggerInfo :=
  let sub := take ch line in
  match trimStart sub with
  | [] => None
  | _ :: _ =>
      match match_tail 0 sub with
      | Some (index, m) => Some (mkTrigger index ch m)
      | None => Some (mkTrigger ch ch [])
      end
  end.

(** The loop of lines 146-149, along the own children.  The outer
    [None]: the token names an inherited property, which the loop steps
    into ([Realm] follows it there); the inner [None] is the early
    [return []]. *)
Fixpoint resolve (current : CommandNode) (tokens : list Str)
    : option (option CommandNode) :=
  match tokens with
  | [] => Some (Some current)
  | token :: rest =>
      match own token (children current) with
      | Some next => resolve next rest
      | None => if inherited token then None else Some None
      end
  end.

(** [getSuggestions], lines 140-153 of [src/main.ts].  [None]: the
    answer is not described here ([toLowerCase] on a code unit outside
    the table, or an inherited property). *)
Definition getSuggestions (data : CommandNode) (line : Str)
    (context : TriggerInfo) : option (list Str) :=
  let preStr := trim (take (start context) line) in
  tokens ← match preStr with
           | [] => Some []
           | _ :: _ => split_ws <$> toLowerCase preStr
           end;
  query ← toLowerCase (query context);
  current ← resolve data tokens;
  Some match current with
       | None => []
       | Some current =>
           let suggestions := (children current).*1 in
           let suggestions :=
             match query with
             | [] => suggestions
             | _ :: _ => filter (λ s, startsWith s query) suggestions
             end in
           sort suggestions
       end.

(** What the host gets for a cursor position: nothing, when [onTrigger]
    answers [null], or the list of [getSuggestions]. *)
Inductive Answer : Type :=
| NoTrigger
| Suggestions (tokens : list Str).

Definition suggest (data : CommandNode) (line : Str) (ch : nat)
    : option Answer :=
  match onTrigger line ch with
  | None => Some NoTrigger
  | Some context => Suggestions <$> getSuggestions data line context
  end.

(** The code units of an ASCII text. *)
Definition of_string (s : string) : Str :=
  (fun c => N.of_nat (nat_of_ascii c)) <$> list_ascii_of_string s.

(** [toLowerCase] on an ASCII code unit. *)
Definition lower_ascii (u : N) : N :=
  if ((65 <=? u) && (u <=? 90))%N then (u + 32)%N else u.

(** The code units of [s] are ASCII. *)
Definition is_ascii (s : Str) : bool :=
  forallb (fun u => (u <? 128)%N) s.

End Wide.


(* ===================================================================== *)
(** * Facts about the text primitives *)
(* ===================================================================== *)

Section TextFacts.

(** The character classes, read off all 256 characters. *)
Example character_classes :
  List.filter (fun n => is_space (ascii_of_nat n)) (seq 0 256)
    = [9; 10; 11; 12; 13; 32]
  ∧ List.filter (fun n => is_digit (ascii_of_nat n)) (seq 0 256) = seq 48 10
  ∧ List.filter (fun n => is_hex (ascii_of_nat n)) (seq 0 256)
    = (seq 48 10 ++ seq 65 6 ++ seq 97 6)%list
  ∧ List.filter
      (fun n => negb (Ascii.eqb (lower_char (ascii_of_nat n)) (ascii_of_nat n)))
      (seq 0 256) = seq 65 26.
Proof. repeat split; vm_compute; reflexivity. Qed.

(** [split], [trim], [match] and [sort] on the cases where JavaScript is
    easy to get wrong. *)
Example text_primitives :
  split_ws "show  ip	isis" = ["show"; "ip"; "isis"]
  ∧ split_ws " show ip " = [EmptyString; "show"; "ip"; EmptyString]
  ∧ split_ws EmptyString = [EmptyString]
  ∧ trim "  show ip  " = "show ip"
  ∧ trimStart "   " = EmptyString
  ∧ toLowerCase "ShOw Ip-9" = "show ip-9"
  ∧ match_tail 0 "show ip is" = Some (8, "is")
  ∧ match_tail 0 "show ip " = None
  ∧ sort ["isis"; "interface"; "Zeta"; "is"; "10"]
    = ["10"; "Zeta"; "interface"; "is"; "isis"].
Proof. repeat split; vm_compute; reflexivity. Qed.

(** The literal patterns of the classifier. *)
Example literal_patterns :
  is_ipv4 "10.0.0.1" = true ∧ is_ipv4 "10.0.0" = false
  ∧ is_ipv4 "1234.1.1.1" = false ∧ is_ipv4 "1.2.3.4.5" = false
  ∧ is_mac_colon "00:11:22:aa:BB:cc" = true
  ∧ is_mac_colon "00:11:22:aa:BB" = false
  ∧ is_mac_dot "0011.22aa.BBcc" = true ∧ is_mac_dot "0011.22aa.BBcg" = false
  ∧ is_number "0042" = true ∧ is_number "4x" = false
  ∧ is_number EmptyString = false
  ∧ is_whitespace_run "  	" = true ∧ is_whitespace_run EmptyString = false
  ∧ is_quoted (String dquote ("up" ++ String dquote EmptyString)) = true
  ∧ is_quoted (String dquote EmptyString) = true
  ∧ is_quoted "up" = false.
Proof. repeat split; vm_compute; reflexivity. Qed.

Lemma is_space_lower_char c : is_space (lower_char c) = is_space c.
Proof. by destruct c as [[] [] [] [] [] [] [] []]. Qed.

Lemma lower_char_idemp c : lower_char (lower_char c) = lower_char c.
Proof. by destruct c as [[] [] [] [] [] [] [] []]. Qed.

Lemma toLowerCase_idemp s : toLowerCase (toLowerCase s) = toLowerCase s.
Proof. induction s as [|c s IH]; simpl; [done|]. by rewrite lower_char_idemp, IH. Qed.

Lemma toLowerCase_length s : String.length (toLowerCase s) = String.length s.
Proof. induction s as [|c s IH]; simpl; [done|]. by rewrite IH. Qed.

Lemma toLowerCase_app s t : toLowerCase (s ++ t) = toLowerCase s ++ toLowerCase t.
Proof. induction s as [|c s IH]; simpl; [done|]. by rewrite IH. Qed.

Lemma truthy_toLowerCase s : truthy (toLowerCase s) = truthy s.
Proof. by destruct s. Qed.

Lemma truthy_false s : truthy s = false ↔ s = EmptyString.
Proof. by destruct s. Qed.

Lemma truthy_length s : truthy s = Nat.ltb 0 (String.length s).
Proof. by destruct s. Qed.

Lemma eqb_empty s : String.eqb s EmptyString = negb (truthy s).
Proof. by destruct s. Qed.

Lemma substring_toLowerCase n m s :
  substring n m (toLowerCase s) = toLowerCase (substring n m s).
Proof.
  revert n m. induction s as [|c s IH]; intros [|n] [|m]; simpl; try done.
  by rewrite IH.
Qed.

Lemma all_space_toLowerCase s : all_space (toLowerCase s) = all_space s.
Proof. induction s; simpl; [done|]. by rewrite is_space_lower_char, IHs. Qed.

Lemma no_space_toLowerCase s : no_space (toLowerCase s) = no_space s.
Proof. induction s; simpl; [done|]. by rewrite is_space_lower_char, IHs. Qed.

Lemma trimStart_toLowerCase s : trimStart (toLowerCase s) = toLowerCase (trimStart s).
Proof.
  induction s as [|c s IH]; simpl; [done|].
  rewrite is_space_lower_char. by destruct (is_space c).
Qed.

Lemma trimEnd_toLowerCase s : trimEnd (toLowerCase s) = toLowerCase (trimEnd s).
Proof.
  induction s as [|c s IH]; [done|].
  change (toLowerCase (String c s)) with (String (lower_char c) (toLowerCase s)).
  cbn [trimEnd all_space]. rewrite is_space_lower_char, all_space_toLowerCase.
  destruct (is_space c && all_space s); simpl; [done|]. by rewrite IH.
Qed.

Lemma trim_toLowerCase s : trim (toLowerCase s) = toLowerCase (trim s).
Proof. unfold trim. by rewrite trimStart_toLowerCase, trimEnd_toLowerCase. Qed.

Lemma split_from_nonempty b s : split_from b s ≠ [].
Proof.
  revert b. induction s as [|c s IH]; intros b; simpl; [done|].
  destruct (is_space c).
  - destruct b; [apply IH | done].
  - by destruct (split_from false s).
Qed.

Lemma split_from_toLowerCase b s :
  split_from b (toLowerCase s) = toLowerCase <$> split_from b s.
Proof.
  revert b. induction s as [|c s IH]; intros b; simpl; [done|].
  rewrite is_space_lower_char. destruct (is_space c).
  - destruct b; simpl; by rewrite IH.
  - rewrite IH. by destruct (split_from false s).
Qed.

Lemma split_ws_toLowerCase s : split_ws (toLowerCase s) = toLowerCase <$> split_ws s.
Proof. apply split_from_toLowerCase. Qed.

Lemma match_tail_toLowerCase i s :
  match_tail i (toLowerCase s)
  = (fun '(j, m) => (j, toLowerCase m)) <$> match_tail i s.
Proof.
  revert i. induction s as [|c s IH]; intros i; [done|].
  change (toLowerCase (String c s)) with (String (lower_char c) (toLowerCase s)).
  cbn [match_tail no_space]. rewrite is_space_lower_char, no_space_toLowerCase.
  destruct (negb (is_space c) && no_space s); [done|]. apply IH.
Qed.

(** Stripping leading whitespace leaves nothing exactly when the text
    is all whitespace, and then [trim] leaves nothing either. *)
Lemma trimStart_empty s : trimStart s = EmptyString ↔ all_space s = true.
Proof.
  induction s as [|c s IH]; simpl; [done|].
  destruct (is_space c); simpl; [done|]. split; discriminate.
Qed.

Lemma trimEnd_empty s : trimEnd s = EmptyString ↔ all_space s = true.
Proof.
  destruct s as [|c s]; [done|]. cbn [trimEnd].
  destruct (all_space (String c s)); [done|]. split; discriminate.
Qed.

Lemma all_space_trimStart s : all_space (trimStart s) = all_space s.
Proof.
  induction s as [|c s IH]; simpl; [done|].
  destruct (is_space c) eqn:E; simpl; [done|]. by rewrite E.
Qed.

Lemma trim_empty s : trim s = EmptyString ↔ trimStart s = EmptyString.
Proof.
  unfold trim. rewrite trimEnd_empty, all_space_trimStart. symmetry.
  apply trimStart_empty.
Qed.

Lemma truthy_trim s : truthy (trim s) = truthy (trimStart s).
Proof.
  destruct (truthy (trim s)) eqn:E1, (truthy (trimStart s)) eqn:E2; try done.
  - apply truthy_false, trim_empty in E2. by rewrite E2 in E1.
  - apply truthy_false, trim_empty in E1. by rewrite E1 in E2.
Qed.

Lemma all_space_substring n s : all_space s = true → all_space (substring 0 n s) = true.
Proof.
  revert n. induction s as [|c s IH]; intros [|n]; simpl; try done.
  intros [-> Hs]%andb_prop. simpl. by apply IH.
Qed.

Lemma substring_0_0 s : substring 0 0 s = EmptyString.
Proof. by destruct s. Qed.

End TextFacts.

(* ===================================================================== *)
(** * The order of [sort] *)
(* ===================================================================== *)

Section Order.

Lemma ascii_compare_refl c : Ascii.compare c c = Eq.
Proof. unfold Ascii.compare. apply N.compare_refl. Qed.

Lemma compare_le_trans a b c :
  String.compare a b ≠ Gt → String.compare b c ≠ Gt → String.compare a c ≠ Gt.
Proof.
  revert b c. induction a as [|x a IH]; intros [|y b] [|z c]; simpl; try done.
  unfold Ascii.compare.
  destruct (N.compare_spec (N_of_ascii x) (N_of_ascii y)) as [Exy|Lxy|Gxy];
    destruct (N.compare_spec (N_of_ascii y) (N_of_ascii z)) as [Eyz|Lyz|Gyz];
    destruct (N.compare_spec (N_of_ascii x) (N_of_ascii z)) as [Exz|Lxz|Gxz];
    try done; try lia.
  apply IH.
Qed.

Lemma str_le_compare a b : str_le a b ↔ String.compare a b ≠ Gt.
Proof.
  unfold str_le, String.leb. destruct (String.compare a b); simpl; naive_solver.
Qed.

#[local] Instance str_le_trans : Transitive str_le.
Proof. intros a b c. rewrite !str_le_compare. apply compare_le_trans. Qed.

#[local] Instance str_le_total : Total str_le.
Proof.
  intros a b. unfold str_le.
  destruct (String.leb_total a b) as [->| ->]; simpl; auto.
Qed.

Lemma str_lt_le_ne a b : str_le a b → a ≠ b → str_lt a b.
Proof.
  unfold str_le, str_lt, String.leb, String.ltb.
  destruct (String.compare a b) eqn:E; simpl; try done.
  intros _ Hne. by apply String.compare_eq_iff in E.
Qed.

(** A sorted list without repetition is strictly sorted. *)
Lemma strictly_sorted_of_sorted l :
  StronglySorted str_le l → NoDup l → Spec.strictly_sorted l.
Proof.
  intros Hs Hn. apply StronglySorted_Sorted.
  induction Hs as [|x l Hs IH Hx]; [constructor|].
  apply NoDup_cons in Hn as [Hx' Hn]. constructor; [by apply IH|].
  apply Forall_forall. intros y Hy.
  apply str_lt_le_ne; [by eapply Forall_forall in Hx|].
  intros ->. done.
Qed.

Lemma sort_strictly_sorted l :
  NoDup l → Spec.strictly_sorted (sort l) ∧ NoDup (sort l).
Proof.
  intros Hn.
  assert (NoDup (sort l)) as Hn'.
  { unfold sort. by rewrite merge_sort_Permutation. }
  split; [|done]. apply strictly_sorted_of_sorted; [|done].
  apply StronglySorted_merge_sort; apply _.
Qed.

Lemma sort_nil : sort [] = [].
Proof. done. Qed.

Lemma strictly_sorted_nil : Spec.strictly_sorted [] ∧ NoDup (@nil string).
Proof. split; constructor. Qed.

End Order.

(* ===================================================================== *)
(** * The suggestion engine *)
(* ===================================================================== *)

Section Suggest.

Lemma main_keys_NoDup n : NoDup (Main.keys n).
Proof. apply NoDup_fst_map_to_list. Qed.

Lemma r04_keys_NoDup (n : R04.CommandNode) : NoDup (R04.keys n).
Proof. apply NoDup_fst_map_to_list. Qed.

Lemma main_getSuggestions_sorted data line context :
  Spec.strictly_sorted (Main.getSuggestions data line context)
  ∧ NoDup (Main.getSuggestions data line context).
Proof.
  unfold Main.getSuggestions.
  destruct (Main.resolve _ _) as [current|]; [|apply strictly_sorted_nil].
  apply sort_strictly_sorted.
  destruct (truthy _); [apply NoDup_filter|]; apply main_keys_NoDup.
Qed.

Lemma r04_getSuggestions_sorted data line context :
  Spec.strictly_sorted (R04.getSuggestions data line context)
  ∧ NoDup (R04.getSuggestions data line context).
Proof.
  unfold R04.getSuggestions.
  destruct (R04.resolve _ _) as [current|]; [|apply strictly_sorted_nil].
  apply sort_strictly_sorted, NoDup_filter, r04_keys_NoDup.
Qed.

(** The tokens both variants walk are the completed tokens. *)
Lemma main_tokens line start :
  (if Nat.ltb 0 (String.length (trim (substring 0 start line)))
   then split_ws (toLowerCase (trim (substring 0 start line))) else [])
  = Spec.completed_tokens line start.
Proof.
  unfold Spec.completed_tokens.
  rewrite eqb_empty, <- truthy_length, split_ws_toLowerCase.
  by destruct (truthy _).
Qed.

Lemma r04_resolve_lower data tokens :
  R04.resolve data (toLowerCase <$> tokens) = R04.resolve data tokens.
Proof.
  revert data. induction tokens as [|t ts IH]; intros data; simpl; [done|].
  rewrite toLowerCase_idemp.
  destruct (data !! toLowerCase t) as [[|next]|]; auto.
Qed.

Lemma main_resolve_reaches data tokens n :
  Main.reaches data tokens n → Main.resolve data tokens = Some n.
Proof. induction 1 as [|n t c ts n' Hc _ IH]; simpl; [done|]. by rewrite Hc. Qed.

Lemma main_resolve_app data done rest :
  Main.resolve data (done ++ rest)%list
  = Main.resolve data done ≫= fun n => Main.resolve n rest.
Proof.
  revert data. induction done as [|t ts IH]; intros data; simpl; [done|].
  destruct (Main.children data !! t); auto.
Qed.

Lemma main_resolve_dead_end data tokens :
  Main.dead_end data tokens → Main.resolve data tokens = None.
Proof.
  intros (done & t & rest & n & -> & Hr & Ht).
  rewrite main_resolve_app, (main_resolve_reaches _ _ _ Hr). simpl.
  by rewrite Ht.
Qed.

(** Walking the R04 tree: [resolve] puts each token in lower case. *)
Lemma r04_resolve_reaches data done rest n :
  R04.reaches data (toLowerCase <$> done) n →
  R04.resolve data (done ++ rest)%list = R04.resolve n rest.
Proof.
  revert data. induction done as [|t ts IH]; intros data Hr; simpl in *.
  - by inversion Hr.
  - inversion Hr as [|? ? child ? ? Hc Hr']; subst. rewrite Hc. by apply IH.
Qed.

Lemma r04_resolve_dead_end data tokens :
  R04.dead_end data (toLowerCase <$> tokens) → R04.resolve data tokens = None.
Proof.
  intros (done & t & rest & n & Heq & Hr & Ht).
  apply fmap_app_inv in Heq as (ds & rs & -> & Hrs & ->).
  symmetry in Hrs. apply fmap_cons_inv in Hrs as (t0 & rs' & -> & -> & ->).
  rewrite (r04_resolve_reaches _ _ _ _ Hr). simpl.
  destruct (n !! toLowerCase t0) as [[|next]|] eqn:E; try done.
  by destruct (Ht next).
Qed.

Lemma r04_tokens line start :
  toLowerCase <$>
    (if Nat.ltb 0 (String.length (trim (substring 0 start line)))
     then split_ws (trim (substring 0 start line)) else [])
  = Spec.completed_tokens line start.
Proof.
  unfold Spec.completed_tokens. rewrite eqb_empty, <- truthy_length.
  by destruct (truthy _).
Qed.

(** The trigger decision of both variants. *)
Lemma main_onTrigger_None line ch :
  Main.onTrigger line ch = None ↔ trimStart (substring 0 ch line) = EmptyString.
Proof.
  unfold Main.onTrigger. rewrite <- truthy_false.
  destruct (truthy _); [|done].
  by destruct (match_tail 0 _) as [[??]|].
Qed.

Lemma r04_onTrigger_None line ch :
  R04.onTrigger line ch = None ↔ trimStart (substring 0 ch line) = EmptyString.
Proof.
  unfold R04.onTrigger. rewrite truthy_trim, <- truthy_false.
  destruct (truthy _); [|done].
  by destruct (match_tail 0 _) as [[??]|].
Qed.

Lemma onTrigger_toLowerCase line ch :
  Main.onTrigger (toLowerCase line) ch
  = (fun c => mkTrigger (start c) (end_ c) (toLowerCase (query c)))
      <$> Main.onTrigger line ch
  ∧ R04.onTrigger (toLowerCase line) ch
  = (fun c => mkTrigger (start c) (end_ c) (toLowerCase (query c)))
      <$> R04.onTrigger line ch.
Proof.
  unfold Main.onTrigger, R04.onTrigger.
  rewrite substring_toLowerCase, trim_toLowerCase, trimStart_toLowerCase,
    !truthy_toLowerCase, match_tail_toLowerCase.
  split.
  - destruct (truthy _); [|done]. by destruct (match_tail 0 _) as [[??]|].
  - destruct (truthy _); [|done]. by destruct (match_tail 0 _) as [[??]|].
Qed.

Lemma main_getSuggestions_toLowerCase data line c :
  Main.getSuggestions data (toLowerCase line)
    (mkTrigger (start c) (end_ c) (toLowerCase (query c)))
  = Main.getSuggestions data line c.
Proof.
  unfold Main.getSuggestions. simpl.
  by rewrite substring_toLowerCase, trim_toLowerCase, !toLowerCase_idemp,
    toLowerCase_length.
Qed.

Lemma realm_getSuggestions_toLowerCase data line c :
  Realm.getSuggestions data (toLowerCase line)
    (mkTrigger (start c) (end_ c) (toLowerCase (query c)))
  = Realm.getSuggestions data line c.
Proof.
  unfold Realm.getSuggestions. simpl.
  by rewrite substring_toLowerCase, trim_toLowerCase, !toLowerCase_idemp,
    toLowerCase_length.
Qed.

Lemma r04_getSuggestions_toLowerCase data line c :
  R04.getSuggestions data (toLowerCase line)
    (mkTrigger (start c) (end_ c) (toLowerCase (query c)))
  = R04.getSuggestions data line c.
Proof.
  unfold R04.getSuggestions. simpl.
  rewrite substring_toLowerCase, trim_toLowerCase, toLowerCase_idemp,
    toLowerCase_length, split_ws_toLowerCase.
  destruct (Nat.ltb 0 _); [|done]. by rewrite r04_resolve_lower.
Qed.

End Suggest.

(* ===================================================================== *)
(** * The walk along the prototype chain *)
(* ===================================================================== *)

Section RealmFacts.

Lemma inherited_false token :
  Prototype.inherited token = false →
  String.eqb token "constructor" = false
  ∧ String.eqb token "__proto__" = false.
Proof.
  unfold Prototype.inherited, Prototype.names. cbn [existsb].
  rewrite !orb_false_iff. tauto.
Qed.

(** A token in lower case that names an inherited property is
    [constructor] or [__proto__]: the other names have capitals. *)
Lemma inherited_toLowerCase p :
  Prototype.inherited (toLowerCase p) = true →
  toLowerCase p = "constructor" ∨ toLowerCase p = "__proto__".
Proof.
  unfold Prototype.inherited, Prototype.names. cbn [existsb].
  rewrite !orb_true_iff, !String.eqb_eq.
  pose proof (toLowerCase_idemp p) as Hi.
  intros H. repeat destruct H as [H|H]; try done; auto;
    rewrite H in Hi; vm_compute in Hi; discriminate Hi.
Qed.

Lemma inherited_property_plain (Node : Type) self token :
  Prototype.inherited token = false →
  Realm.inherited_property (Node := Node) self token = Some Realm.Undefined.
Proof.
  intros Hi. destruct (inherited_false token Hi) as [E1 E2].
  unfold Realm.inherited_property. by rewrite E1, E2, Hi.
Qed.

(** Along the own children, the walk of [src/main.ts] is the one of
    [Main.resolve]. *)
Lemma realm_resolve_reaches data done rest n :
  Main.reaches data done n →
  Realm.resolve Realm.main_own Realm.truthy (Realm.Own data) (done ++ rest)
  = Realm.resolve Realm.main_own Realm.truthy (Realm.Own n) rest.
Proof.
  induction 1 as [|n0 t c ts n' Hc _ IH]; [done|].
  simpl. unfold Realm.main_own at 1. rewrite Hc. simpl. apply IH.
Qed.

Lemma realm_resolve_dead_end data tokens :
  Realm.dead_end data tokens →
  Realm.resolve Realm.main_own Realm.truthy (Realm.Own data) tokens
  = Realm.DeadEnd.
Proof.
  intros (done & t & rest & n & -> & Hr & Ht & Hi).
  rewrite (realm_resolve_reaches _ _ _ _ Hr). simpl.
  unfold Realm.main_own. rewrite Ht. simpl.
  by rewrite inherited_property_plain.
Qed.

Lemma realm_resolve_plain data tokens :
  Forall (fun token => Prototype.inherited token = false) tokens →
  Realm.resolve Realm.main_own Realm.truthy (Realm.Own data) tokens
  = match Main.resolve data tokens with
    | Some n => Realm.Reached (Realm.Own n)
    | None => Realm.DeadEnd
    end.
Proof.
  intros Hp. revert data. induction Hp as [|t ts Ht _ IH]; intros data; [done|].
  simpl. unfold Realm.main_own at 1.
  destruct (Main.children data !! t) as [c|]; simpl; [apply IH|].
  by rewrite inherited_property_plain.
Qed.

(** On completed tokens that name no inherited property, the walk of
    [src/main.ts] stays among the own children of the tree. *)
Lemma realm_getSuggestions_plain data line context :
  Forall (fun token => Prototype.inherited token = false)
    (Spec.completed_tokens line (start context)) →
  Realm.getSuggestions data line context
  = Some (Main.getSuggestions data line context).
Proof.
  intros Hp. unfold Realm.getSuggestions, Main.getSuggestions.
  rewrite main_tokens, (realm_resolve_plain _ _ Hp).
  by destruct (Main.resolve data _).
Qed.

(** In [Object.prototype], the walk of the R04 file finds nothing to
    step into. *)
Lemma realm_r04_prototype tokens :
  Realm.resolve Realm.r04_own (fun v => Realm.truthy v && Realm.is_object v)
    Realm.ObjectPrototype (toLowerCase <$> tokens)
  = match tokens with
    | [] => Realm.Reached Realm.ObjectPrototype
    | _ :: _ => Realm.DeadEnd
    end.
Proof.
  destruct tokens as [|p rest]; [done|]. simpl.
  unfold Realm.inherited_property.
  destruct (String.eqb _ "constructor") eqn:E1; [done|].
  destruct (String.eqb _ "__proto__") eqn:E2; [done|].
  destruct (Prototype.inherited _) eqn:Ei; [|done].
  apply inherited_toLowerCase in Ei as [Ei|Ei]; rewrite Ei in *; done.
Qed.

(** The walk of the R04 file ends where [R04.resolve] ends, or in
    [Object.prototype], which has no key to offer. *)
Lemma realm_r04_resolve data tokens :
  match Realm.resolve Realm.r04_own
          (fun v => Realm.truthy v && Realm.is_object v) (Realm.Own data)
          (toLowerCase <$> tokens) with
  | Realm.Reached (Realm.Own n) => R04.resolve data tokens = Some n
  | Realm.Reached Realm.ObjectPrototype | Realm.DeadEnd =>
      R04.resolve data tokens = None
  | _ => False
  end.
Proof.
  revert data. induction tokens as [|p rest IH]; intros data; [done|].
  simpl. unfold Realm.r04_own at 1.
  destruct (data !! toLowerCase p) as [[s|child]|] eqn:E.
  - simpl. by rewrite andb_false_r.
  - simpl. apply IH.
  - unfold Realm.inherited_property.
    destruct (String.eqb _ "constructor") eqn:E1; [done|].
    destruct (String.eqb _ "__proto__") eqn:E2.
    + cbn [Realm.truthy Realm.is_object andb].
      rewrite realm_r04_prototype. by destruct rest.
    + destruct (Prototype.inherited _) eqn:Ei; [|done].
      apply inherited_toLowerCase in Ei as [Ei|Ei]; rewrite Ei in *; done.
Qed.

(** Whatever the tree and the line, the walk of the R04 file answers
    what [R04.getSuggestions] answers. *)
Lemma realm_r04_getSuggestions data line context :
  Realm.getSuggestionsR04 data line context
  = Some (R04.getSuggestions data line context).
Proof.
  unfold Realm.getSuggestionsR04, R04.getSuggestions.
  pose proof (realm_r04_resolve data
    (if Nat.ltb 0 (String.length (trim (substring 0 (start context) line)))
     then split_ws (trim (substring 0 (start context) line)) else [])) as H.
  destruct (Realm.resolve _ _ _ _) as [[n| | | | | |]| |]; try done;
    by rewrite H.
Qed.

End RealmFacts.

(** The engine of [src/main.ts] on UTF-16 strings, on ASCII lines. *)
Section WideFacts.

Import Wide.

Lemma wide_is_space_letter u :
  (33 ≤ u)%N → (u ≤ 122)%N → is_space u = false.
Proof.
  intros H1 H2. unfold is_space.
  replace (u <=? 13)%N with false by (symmetry; apply N.leb_gt; lia).
  replace (8192 <=? u)%N with false by (symmetry; apply N.leb_gt; lia).
  repeat match goal with
  | |- context [(u =? ?b)%N] =>
      replace (u =? b)%N with false by (symmetry; apply N.eqb_neq; lia)
  end.
  by rewrite andb_false_r.
Qed.

Lemma wide_lower_ascii_space u :
  is_space (Wide.lower_ascii u) = is_space u.
Proof.
  unfold Wide.lower_ascii.
  destruct ((65 <=? u) && (u <=? 90))%N eqn:E; [|done].
  apply andb_true_iff in E as [H1 H2].
  apply N.leb_le in H1, H2.
  rewrite !wide_is_space_letter; [done|lia..].
Qed.

Lemma wide_lower_unit_ascii u :
  (u <? 128)%N = true →
  lower_unit u = Some [Wide.lower_ascii u]
  ∧ (Wide.lower_ascii u <? 128)%N = true
  ∧ Wide.lower_ascii (Wide.lower_ascii u) = Wide.lower_ascii u.
Proof.
  intros Hu. unfold lower_unit, Wide.lower_ascii.
  destruct ((65 <=? u) && (u <=? 90))%N eqn:E.
  - apply andb_true_iff in E as [H1 H2].
    apply N.leb_le in H1, H2.
    split; [done|]. split; [apply N.ltb_lt; lia|].
    destruct (N.leb_spec (u + 32) 90) as [H|H]; [lia|].
    by rewrite andb_false_r.
  - rewrite Hu. split; [done|]. split; [done|]. by rewrite E.
Qed.

Lemma wide_is_ascii_lower s :
  Wide.is_ascii s = true →
  Wide.is_ascii (Wide.lower_ascii <$> s) = true.
Proof.
  induction s as [|u s IH]; [done|]. simpl.
  intros [Hu Hs]%andb_true_iff.
  destruct (wide_lower_unit_ascii u Hu) as (_ & -> & _). by apply IH.
Qed.

Lemma wide_toLowerCase_ascii s :
  Wide.is_ascii s = true →
  toLowerCase s = Some (Wide.lower_ascii <$> s).
Proof.
  induction s as [|u s IH]; [done|]. simpl.
  intros [Hu Hs]%andb_true_iff.
  destruct (wide_lower_unit_ascii u Hu) as (-> & _ & _).
  simpl. by rewrite (IH Hs).
Qed.

Lemma wide_toLowerCase_lower s :
  Wide.is_ascii s = true →
  toLowerCase (Wide.lower_ascii <$> s) = toLowerCase s.
Proof.
  induction s as [|u s IH]; [done|].
  intros [Hu Hs]%andb_true_iff.
  destruct (wide_lower_unit_ascii u Hu) as (E1 & Hl & E2).
  destruct (wide_lower_unit_ascii _ Hl) as (E3 & _ & _).
  rewrite fmap_cons. cbn [toLowerCase].
  by rewrite E3, E2, E1, (IH Hs).
Qed.

(** A map on the code units that keeps the white space apart commutes
    with the text functions of the engine. *)
Section Units.

Context (f : N → N) (Hf : ∀ u, is_space (f u) = is_space u).

Lemma wide_trimStart_fmap (s : list N) : trimStart (f <$> s) = f <$> trimStart s.
Proof.
  induction s as [|u s IH]; [done|]. simpl. rewrite Hf.
  by destruct (is_space u).
Qed.

Lemma wide_trim_fmap (s : list N) : trim (f <$> s) = f <$> trim s.
Proof.
  unfold trim.
  by rewrite wide_trimStart_fmap, <- fmap_reverse, wide_trimStart_fmap,
    fmap_reverse.
Qed.

Lemma wide_split_from_fmap inws (s : list N) :
  split_from inws (f <$> s) = fmap (M := list) f <$> split_from inws s.
Proof.
  revert inws. induction s as [|u s IH]; intros inws; [done|].
  simpl. rewrite Hf. destruct (is_space u).
  - destruct inws; simpl; by rewrite IH.
  - rewrite IH. by destruct (split_from false s).
Qed.

Lemma wide_match_tail_fmap i (s : list N) :
  match_tail i (f <$> s)
  = (fun m : nat * list N => (m.1, f <$> m.2)) <$> match_tail i s.
Proof.
  revert i. induction s as [|u s IH]; intros i; [done|].
  rewrite fmap_cons. cbn [match_tail]. rewrite <- fmap_cons.
  replace (forallb (fun u => negb (is_space u)) (f <$> u :: s))
    with (forallb (fun u => negb (is_space u)) (u :: s)).
  - destruct (forallb _ (u :: s)); [done|]. apply IH.
  - clear IH. induction (u :: s) as [|v l IHl]; [done|].
    simpl. by rewrite Hf, IHl.
Qed.

Lemma wide_onTrigger_fmap (line : list N) ch :
  onTrigger (f <$> line) ch
  = (fun c => mkTrigger (start c) (end_ c) (f <$> query c))
    <$> onTrigger line ch.
Proof.
  unfold onTrigger. rewrite <- fmap_take, wide_trimStart_fmap.
  destruct (trimStart (take ch line)); [done|]. simpl.
  rewrite wide_match_tail_fmap.
  by destruct (match_tail 0 (take ch line)) as [[index m]|].
Qed.

End Units.

Lemma wide_is_ascii_take n (s : list N) :
  Wide.is_ascii s = true → Wide.is_ascii (take n s) = true.
Proof.
  revert n. induction s as [|u s IH]; intros [|n]; try done.
  simpl. intros [-> Hs]%andb_true_iff. by apply IH.
Qed.

Lemma wide_is_ascii_trimStart (s : list N) :
  Wide.is_ascii s = true → Wide.is_ascii (trimStart s) = true.
Proof.
  induction s as [|u s IH]; [done|]. intros H. simpl.
  destruct (is_space u); [|done].
  simpl in H. apply andb_true_iff in H as [_ Hs]. by apply IH.
Qed.

Lemma wide_is_ascii_forall (s : list N) :
  Wide.is_ascii s = true ↔ Forall (fun u => (u <? 128)%N = true) s.
Proof.
  unfold Wide.is_ascii. induction s as [|u s IH]; simpl.
  - split; [constructor|done].
  - rewrite andb_true_iff, Forall_cons. by rewrite IH.
Qed.

Lemma wide_is_ascii_trim (s : list N) :
  Wide.is_ascii s = true → Wide.is_ascii (trim s) = true.
Proof.
  intros H. unfold trim. apply wide_is_ascii_forall.
  apply Forall_reverse. apply wide_is_ascii_forall.
  apply wide_is_ascii_trimStart. apply wide_is_ascii_forall.
  apply Forall_reverse. apply wide_is_ascii_forall.
  by apply wide_is_ascii_trimStart.
Qed.

Lemma wide_is_ascii_match_tail i (s : list N) index m :
  Wide.is_ascii s = true →
  match_tail i s = Some (index, m) → Wide.is_ascii m = true.
Proof.
  revert i. induction s as [|u s IH]; intros i Hs; [done|].
  cbn [match_tail].
  destruct (forallb _ (u :: s)).
  - by intros [= _ <-].
  - simpl in Hs. apply andb_true_iff in Hs as [_ Hs]. by apply IH.
Qed.

Lemma wide_is_ascii_query (line : list N) ch c :
  Wide.is_ascii line = true →
  onTrigger line ch = Some c → Wide.is_ascii (query c) = true.
Proof.
  intros Hl. unfold onTrigger.
  destruct (trimStart (take ch line)); [done|].
  destruct (match_tail 0 (take ch line)) as [[index m]|] eqn:E.
  - intros [= <-]. simpl. eapply wide_is_ascii_match_tail; [|done].
    by apply wide_is_ascii_take.
  - by intros [= <-].
Qed.

(** On an ASCII line, the list of suggestions depends on the line and
    on the query through their lower-case forms. *)
Lemma wide_getSuggestions_lower data (line : list N) c :
  Wide.is_ascii line = true →
  Wide.is_ascii (query c) = true →
  getSuggestions data (Wide.lower_ascii <$> line)
    (mkTrigger (start c) (end_ c) (Wide.lower_ascii <$> query c))
  = getSuggestions data line c.
Proof.
  intros Hl Hq. unfold getSuggestions. cbn [start query].
  rewrite <- fmap_take, (wide_trim_fmap _ wide_lower_ascii_space).
  rewrite (wide_toLowerCase_lower _ Hq).
  assert (Wide.is_ascii (trim (take (start c) line)) = true) as Hp
    by by apply wide_is_ascii_trim, wide_is_ascii_take.
  destruct (trim (take (start c) line)) as [|u pre] eqn:E; [done|].
  rewrite fmap_cons, <- fmap_cons.
  by rewrite (wide_toLowerCase_lower _ Hp).
Qed.

(** Putting an ASCII line in lower case changes neither the trigger
    decision nor the suggestions, whatever the code units of the names
    in the tree. *)
Lemma wide_suggest_lower data (line : list N) ch :
  Wide.is_ascii line = true →
  toLowerCase line = Some (Wide.lower_ascii <$> line)
  ∧ suggest data (Wide.lower_ascii <$> line) ch = suggest data line ch.
Proof.
  intros Hl. split; [by apply wide_toLowerCase_ascii|].
  unfold suggest.
  rewrite (wide_onTrigger_fmap _ wide_lower_ascii_space).
  destruct (onTrigger line ch) as [c|] eqn:E; [|done]. simpl.
  rewrite wide_getSuggestions_lower; [done..|].
  by eapply wide_is_ascii_query.
Qed.

(** The code units of an ASCII text, and of its lower-case form. *)
Lemma wide_of_string_ascii (s : string) :
  Text.is_ascii s = true →
  Wide.is_ascii (of_string s) = true
  ∧ of_string (Text.toLowerCase s) = Wide.lower_ascii <$> of_string s.
Proof.
  induction s as [|c s IH]; [done|]. cbn [Text.is_ascii].
  intros [Hc Hs]%andb_true_iff. destruct (IH Hs) as [IH1 IH2].
  unfold of_string in *. cbn [Text.toLowerCase list_ascii_of_string].
  rewrite !fmap_cons. cbn [Wide.is_ascii forallb].
  change (forallb (fun u => (u <? 128)%N) ?l) with (Wide.is_ascii l).
  rewrite IH1, IH2, andb_true_r.
  assert ((N.of_nat (nat_of_ascii c) <? 128)%N = true
          ∧ N.of_nat (nat_of_ascii (Text.lower_char c))
            = Wide.lower_ascii (N.of_nat (nat_of_ascii c))) as [-> ->];
    [|done].
  clear -Hc. destruct c as [[] [] [] [] [] [] [] []];
    try discriminate Hc; vm_compute; done.
Qed.

End WideFacts.

(* ===================================================================== *)
(** * Properties of the suggestion engine *)
(* ===================================================================== *)

(** C2. A line whose completed tokens come to a token that is no child
    of the node: the specification asks for the empty list.
    - In [src/main.ts] the loop tests [current[token]], which also finds
      the properties every object inherits: on the empty tree and the
      line "constructor name " it steps into the function [Object] and
      into its name, and offers the indices of the string "Object".
    - When the token names no inherited property either, the answer of
      [src/main.ts] is the empty list, and no error is raised.
    - The R04 file steps into objects only; its answer is the empty list
      at every dead end. *)
Theorem dead_end_gives_empty_list :
  (Main.dead_end Main.empty_node
     (Spec.completed_tokens "constructor name " 17)
   ∧ Realm.suggest Main.empty_node "constructor name " 17
     = Some (Some ["0"; "1"; "2"; "3"; "4"; "5"]))
  ∧ (∀ line ch data context,
       Main.onTrigger line ch = Some context →
       Realm.dead_end data (Spec.completed_tokens line (start context)) →
       Realm.getSuggestions data line context = Some []
       ∧ Realm.suggest data line ch = Some (Some []))
  ∧ (∀ line ch data context,
       R04.onTrigger line ch = Some context →
       R04.dead_end data (Spec.completed_tokens line (start context)) →
       R04.getSuggestions data line context = []
       ∧ R04.suggest data line ch = Some []
       ∧ Realm.getSuggestionsR04 data line context = Some []).
Proof.
  split; [|split].
  - split; [|vm_compute; reflexivity].
    exists [], "constructor", ["name"], Main.empty_node.
    split; [reflexivity|]. split; [constructor|reflexivity].
  - intros line ch data context Ht Hd.
    assert (Realm.getSuggestions data line context = Some []) as Hg.
    { unfold Realm.getSuggestions. rewrite main_tokens.
      by rewrite (realm_resolve_dead_end _ _ Hd). }
    split; [done|]. unfold Realm.suggest. rewrite Ht. simpl. by rewrite Hg.
  - intros line ch data context Ht Hd.
    assert (R04.getSuggestions data line context = []) as Hg.
    { unfold R04.getSuggestions. rewrite <- r04_tokens in Hd.
      by rewrite (r04_resolve_dead_end _ _ Hd). }
    split; [done|]. split.
    + unfold R04.suggest. rewrite Ht. simpl. by rewrite Hg.
    + by rewrite realm_r04_getSuggestions, Hg.
Qed.

(** Scenario D of the specification: the prefix "show bogus" of a
    dictionary holding "show ip interface" and "show ip isis status". *)
Lemma dead_end_gives_empty_list_witness :
  Realm.suggest
    (Main.Node {[ "show" := Main.Node {[ "ip" := Main.Node ∅ ]} ]})
    "show bogus x" 12 = Some (Some [])
  ∧ R04.suggest
      {[ "show" := R04.Obj {[ "ip" := R04.Obj ∅ ]} ]}
      "show bogus x" 12 = Some [].
Proof.
  split.
  - refine (proj2 (proj1 (proj2 dead_end_gives_empty_list)
                     "show bogus x" 12 _ (mkTrigger 11 12 "x") _ _));
      [reflexivity|].
    exists ["show"], "bogus", [], (Main.Node {[ "ip" := Main.Node ∅ ]}).
    split; [reflexivity|]. split; [|split; reflexivity].
    eapply Main.reaches_step; [reflexivity|constructor].
  - refine (proj1 (proj2 (proj2 (proj2 dead_end_gives_empty_list)
                     "show bogus x" 12 _ (mkTrigger 11 12 "x") _ _)));
      [reflexivity|].
    exists ["show"], "bogus", [], {[ "ip" := R04.Obj ∅ ]}.
    split; [reflexivity|]. split; [|by intros child].
    eapply R04.reaches_step; [reflexivity|constructor].
Defined.

(** C3. Whatever the tree, the line and the trigger, the list of
    suggestions is strictly ascending in the order of the token strings
    and has no duplicate.  Both variants. *)
Theorem suggestions_strictly_sorted (line : string) (context : TriggerInfo) :
  (∀ data,
     Spec.strictly_sorted (Main.getSuggestions data line context)
     ∧ NoDup (Main.getSuggestions data line context))
  ∧ (∀ data,
     Spec.strictly_sorted (R04.getSuggestions data line context)
     ∧ NoDup (R04.getSuggestions data line context)).
Proof.
  split; intros data.
  - apply main_getSuggestions_sorted.
  - apply r04_getSuggestions_sorted.
Qed.

(** C4, as the code has it.  On a line of ASCII characters, putting the
    line in lower case before the query changes nothing: same trigger
    decision, same list of suggestions, in both variants (the walk of
    [src/main.ts] followed along the prototype chain).  It is so on
    UTF-16 strings as well, whatever the code units of the names in the
    tree; there [toLowerCase] keeps the length of an ASCII line, which
    is what the cursor offset relies on. *)
Theorem query_case_insensitive (line : string) (ch : nat) :
  is_ascii line = true →
  (∀ data, Realm.suggest data (toLowerCase line) ch = Realm.suggest data line ch)
  ∧ (∀ data, R04.suggest data (toLowerCase line) ch = R04.suggest data line ch)
  ∧ Wide.toLowerCase (Wide.of_string line)
    = Some (Wide.of_string (toLowerCase line))
  ∧ (∀ data,
       Wide.suggest data (Wide.of_string (toLowerCase line)) ch
       = Wide.suggest data (Wide.of_string line) ch).
Proof.
  intros Ha. destruct (onTrigger_toLowerCase line ch) as [Hm Hr].
  destruct (wide_of_string_ascii line Ha) as [Hw El].
  split; [|split; [|split]]; try intros data.
  - unfold Realm.suggest. rewrite Hm.
    destruct (Main.onTrigger line ch) as [c|]; simpl; [|done].
    by rewrite realm_getSuggestions_toLowerCase.
  - unfold R04.suggest. rewrite Hr.
    destruct (R04.onTrigger line ch) as [c|]; simpl; [|done].
    by rewrite r04_getSuggestions_toLowerCase.
  - rewrite El. by apply wide_toLowerCase_ascii.
  - rewrite El. by apply wide_suggest_lower.
Qed.

(** The example of the specification: the prefix "ShOw Ip" and its
    lower-case form "show ip". *)
Lemma query_case_insensitive_witness :
  Realm.suggest
    (Main.Node {[ "show" := Main.Node {[ "ip" := Main.Node ∅;
                                         "ipv6" := Main.Node ∅ ]} ]})
    "show ip" 7
  = Realm.suggest
      (Main.Node {[ "show" := Main.Node {[ "ip" := Main.Node ∅;
                                           "ipv6" := Main.Node ∅ ]} ]})
      "ShOw Ip" 7
  ∧ Realm.suggest
      (Main.Node {[ "show" := Main.Node {[ "ip" := Main.Node ∅;
                                           "ipv6" := Main.Node ∅ ]} ]})
      "ShOw Ip" 7
    = Some (Some ["ip"; "ipv6"]).
Proof.
  split; [|vm_compute; reflexivity].
  apply (proj1 (query_case_insensitive "ShOw Ip" 7 eq_refl)).
Defined.

(** Beyond ASCII the property fails: the line made of the capital I with
    dot above (U+0130) and "a" has two code units, its lower-case form
    has three ([i], U+0307, [a]).  With the cursor at column 2 the query
    of the first is the whole line, the query of the second stops before
    the "a"; the tree with the one child [i], U+0307, [b] (what
    [normalizeTree] makes of the key of U+0130 and "b") offers nothing
    for the first and its child for the second. *)
Lemma lower_case_line_changes_suggestions :
  Wide.toLowerCase [304; 97]%N = Some [105; 775; 97]%N
  ∧ Wide.suggest (Wide.Node [([105; 775; 98]%N, Wide.Node [])])
      [304; 97]%N 2
    = Some (Wide.Suggestions [])
  ∧ Wide.suggest (Wide.Node [([105; 775; 98]%N, Wide.Node [])])
      [105; 775; 97]%N 2
    = Some (Wide.Suggestions [[105; 775; 98]%N]).
Proof. repeat split; vm_compute; reflexivity. Qed.

(** On an ASCII line the two embeddings of [src/main.ts] agree:
    scenario A under mixed case. *)
Example wide_scenario_A :
  Wide.suggest
    (Wide.Node
       [ (Wide.of_string "show",
          Wide.Node
            [ (Wide.of_string "ip",
               Wide.Node [ (Wide.of_string "interface", Wide.Node []);
                           (Wide.of_string "isis", Wide.Node []) ]) ]) ])
    (Wide.of_string "ShOw Ip ") 8
  = Some (Wide.Suggestions
            [ Wide.of_string "interface"; Wide.of_string "isis" ])
  ∧ Main.suggest
      (Main.Node {[ "show" := Main.Node {[ "ip" := Main.Node
         {[ "interface" := Main.Node ∅; "isis" := Main.Node ∅ ]} ]} ]})
      "ShOw Ip " 8
    = Some [ "interface"; "isis" ].
Proof. split; vm_compute; reflexivity. Qed.

(** C7. The engine declines to trigger exactly when the text before the
    cursor, leading whitespace stripped, is empty: in particular at
    column 0 and on a line of whitespace only.  Declining is the result
    [None], which is not an empty list of suggestions.  Both variants. *)
Theorem trigger_decision (line : string) (ch : nat) :
  (Main.onTrigger line ch = None
     ↔ trimStart (substring 0 ch line) = EmptyString)
  ∧ (R04.onTrigger line ch = None
     ↔ trimStart (substring 0 ch line) = EmptyString)
  ∧ (Main.onTrigger line 0 = None ∧ R04.onTrigger line 0 = None)
  ∧ (all_space line = true →
     Main.onTrigger line ch = None ∧ R04.onTrigger line ch = None)
  ∧ (∀ data,
     Main.onTrigger line ch = None → Main.suggest data line ch = None)
  ∧ (∀ data,
     R04.onTrigger line ch = None → R04.suggest data line ch = None).
Proof.
  split; [apply main_onTrigger_None|].
  split; [apply r04_onTrigger_None|].
  split.
  { rewrite main_onTrigger_None, r04_onTrigger_None. by rewrite substring_0_0. }
  split.
  { intros Hs. rewrite main_onTrigger_None, r04_onTrigger_None.
    split; by apply trimStart_empty, all_space_substring. }
  split; intros data H.
  - unfold Main.suggest. by rewrite H.
  - unfold R04.suggest. by rewrite H.
Qed.

(** Scenario C of the specification, and a line that triggers. *)
Lemma trigger_decision_witness :
  (Main.onTrigger "    " 3 = None ∧ R04.onTrigger "    " 3 = None)
  ∧ Main.onTrigger "show ip" 6 ≠ None.
Proof.
  split.
  - apply (trigger_decision "    " 3). reflexivity.
  - intros H. apply (trigger_decision "show ip" 6) in H. discriminate H.
Defined.

(* ===================================================================== *)
(** * Acceptance of a suggestion *)
(* ===================================================================== *)

Section Acceptance.

Lemma append_cons (x : ascii) (a b : string) :
  String x a ++ b = String x (a ++ b).
Proof. reflexivity. Qed.

Lemma substring_0_length (s : string) (n : nat) :
  (n ≤ String.length s)%nat → String.length (substring 0 n s) = n.
Proof.
  revert n. induction s as [|c s IH]; intros [|n] Hn; simpl in *; try done.
  - lia.
  - rewrite IH; lia.
Qed.

Lemma substring_0_app (a b : string) (n : nat) :
  substring 0 (String.length a + n) (a ++ b) = a ++ substring 0 n b.
Proof.
  induction a as [|c a IH]; [done|].
  rewrite !append_cons. simpl. by rewrite IH.
Qed.

Lemma get_app_length (a : string) (c : ascii) (b : string) :
  String.get (String.length a) (a ++ String c b) = Some c.
Proof. induction a as [|x a IH]; [done|]. rewrite append_cons. apply IH. Qed.

Lemma string_app_assoc (a b c : string) : (a ++ b) ++ c = a ++ (b ++ c).
Proof.
  induction a as [|x a IH]; [done|]. rewrite !append_cons. by rewrite IH.
Qed.

Lemma string_app_empty_r (a : string) : a ++ EmptyString = a.
Proof. induction a as [|x a IH]; [done|]. by rewrite append_cons, IH. Qed.

Lemma string_app_length (a b : string) :
  String.length (a ++ b) = String.length a + String.length b.
Proof.
  induction a as [|x a IH]; [done|]. rewrite append_cons. simpl. by rewrite IH.
Qed.

End Acceptance.

(** C8, as the code has it.  Accepting a token replaces the span by
    the token and one space.  In [src/main.ts] the cursor is then set to
    the column of the span start plus the length of the token plus one,
    which in the new line is the position right after the inserted
    space; the R04 variant makes the same replacement and no other call:
    it leaves the cursor to the host. *)
Theorem acceptance_replaces_span (value line : string) (c : TriggerInfo) :
  (start c ≤ String.length line)%nat →
  let newCh := start c + String.length value + 1 in
  let line' := spliced line (value ++ " ") (start c) (end_ c) in
  Main.selectSuggestion value (Some c)
    = [ replaceRange (value ++ " ") (start c) (end_ c); setCursor newCh ]
  ∧ R04.selectSuggestion value (Some c)
    = [ replaceRange (value ++ " ") (start c) (end_ c) ]
  ∧ substring 0 newCh line' = substring 0 (start c) line ++ value ++ " "
  ∧ String.get (newCh - 1) line' = Some " "%char.
Proof.
  intros Hs newCh line'. split; [done|]. split; [done|].
  assert (String.length (substring 0 (start c) line) = start c) as Hl
    by by apply substring_0_length.
  unfold line', newCh, spliced. split.
  - rewrite <- Hl at 1. rewrite <- Nat.add_assoc, substring_0_app.
    f_equal.
    replace (String.length value + 1) with (String.length (value ++ " ") + 0).
    + by rewrite substring_0_app, substring_0_0, string_app_empty_r.
    + rewrite string_app_length. simpl. lia.
  - replace (start c + String.length value + 1 - 1)
      with (String.length (substring 0 (start c) line ++ value)).
    + rewrite (string_app_assoc value), <- string_app_assoc.
      apply get_app_length.
    + rewrite string_app_length. lia.
Qed.

(** Scenario E of the specification: accepting "isis" at the span
    [8,10) of the line "show ip is". *)
Lemma acceptance_replaces_span_witness :
  Main.selectSuggestion "isis" (Some (mkTrigger 8 10 "is"))
    = [ replaceRange "isis " 8 10; setCursor 13 ]
  ∧ spliced "show ip is" "isis " 8 10 = "show ip isis ".
Proof.
  split; [|reflexivity].
  apply (acceptance_replaces_span "isis" "show ip is" (mkTrigger 8 10 "is")).
  simpl. lia.
Defined.

(** Scenario E in the R04 variant: the span is replaced by "isis ", and
    the cursor is not set, neither to offset 13 nor elsewhere (the
    source says why: "Don't auto-trigger next suggestion immediately,
    let user type"). *)
Lemma r04_acceptance_sets_no_cursor :
  R04.selectSuggestion "isis" (Some (mkTrigger 8 10 "is"))
    = [ replaceRange "isis " 8 10 ]
  ∧ Forall (fun call => ∀ ch, call ≠ setCursor ch)
      (R04.selectSuggestion "isis" (Some (mkTrigger 8 10 "is"))).
Proof. split; [reflexivity|]. by repeat constructor. Qed.

(* ===================================================================== *)
(** * The token classifier *)
(* ===================================================================== *)

(** C9. A token gets one span, whose class is the one of the first rule
    that accepts it in the order: whitespace run, IPv4 address, MAC
    address, number, quoted string, keyword sets 1 to 5; no class when no
    rule accepts it. *)
Theorem classify_first_matching_rule (keywords : Main.Keywords) (token : string) :
  token ≠ EmptyString →
  Main.classify keywords token
  = Some (Main.mkSpan token (Spec.category_of keywords token)).
Proof.
  intros Hne. unfold Main.classify, Spec.category_of, Spec.rules, Spec.first_match.
  destruct (String.eqb_spec token EmptyString) as [->|_]; [done|].
  repeat match goal with |- context [if ?b then _ else _] => destruct b end;
    reflexivity.
Qed.

Lemma classify_first_matching_rule_witness :
  Main.classify (Main.mkKeywords {[ "10" ]} {[ "show" ]} ∅ ∅ {[ "show" ]}) "Show"
    = Some (Main.mkSpan "Show" (Some "aosr8-type"))
  ∧ Main.classify (Main.mkKeywords {[ "10" ]} {[ "show" ]} ∅ ∅ {[ "show" ]}) "10"
    = Some (Main.mkSpan "10" (Some "aosr8-number")).
Proof.
  split.
  - etrans; [apply (classify_first_matching_rule
               (Main.mkKeywords {[ "10" ]} {[ "show" ]} ∅ ∅ {[ "show" ]}) "Show");
             discriminate|].
    vm_compute. reflexivity.
  - etrans; [apply (classify_first_matching_rule
               (Main.mkKeywords {[ "10" ]} {[ "show" ]} ∅ ∅ {[ "show" ]}) "10");
             discriminate|].
    vm_compute. reflexivity.
Defined.

(* ===================================================================== *)
(** * The options list of the nested variant *)
(* ===================================================================== *)

(** C5. [traverse] reads the options list of the outermost dictionary at
    every level: the list of a nested level is never read (first
    dictionary: no child "ip" below "show"), and the list of the
    outermost level is added below every key (second dictionary: "x"
    appears below "show" as well). *)
Theorem options_read_from_outermost_level :
  Main.normalizeTree [ ("show", Main.JObj [ ("_options", Main.JArr [ Main.JStr "ip" ]) ]) ]
    = Some (Main.Node {[ "show" := Main.Node ∅ ]})
  ∧ Main.normalizeTree [ ("_options", Main.JArr [ Main.JStr "x" ]); ("show", Main.JObj []) ]
    = Some (Main.Node {[ "x" := Main.Node ∅; "show" := Main.Node {[ "x" := Main.Node ∅ ]} ]}).
Proof. split; vm_compute; reflexivity. Qed.

(* ===================================================================== *)
(** * The flat variant: [buildTreeFromR04] *)
(* ===================================================================== *)

Section R04Build.

Implicit Types (n cur child : gmap string R04.Value).

Lemma r04_typed_unfold n :
  R04.typed n ↔
    (∀ k v, n !! k = Some v → (k = "_desc" ↔ ∃ s, v = R04.Str s))
    ∧ (∀ k c, n !! k = Some (R04.Obj c) → R04.typed c).
Proof.
  split.
  - intros H. split.
    + intros k v. apply (H [] n). constructor.
    + intros k c Hk ts m Hr. apply (H (k :: ts) m). econstructor; eauto.
  - intros [H1 H2] ts m Hr. inversion Hr; subst.
    + apply H1.
    + eapply H2; eauto.
Qed.

Lemma r04_typed_empty : R04.typed ∅.
Proof. apply r04_typed_unfold. split; intros k v; by rewrite lookup_empty. Qed.

Lemma r04_typed_insert_node n k c :
  R04.typed n → R04.typed c → k ≠ "_desc" → R04.typed (<[k := R04.Obj c]> n).
Proof.
  intros [H1 H2]%r04_typed_unfold Hc Hk. apply r04_typed_unfold. split.
  - intros k' v. destruct (decide (k = k')) as [<-|Hne].
    + rewrite lookup_insert_eq. intros [= <-]. split; [done|]. by intros [s ?].
    + rewrite lookup_insert_ne by done. apply H1.
  - intros k' c'. destruct (decide (k = k')) as [<-|Hne].
    + rewrite lookup_insert_eq. by intros [= <-].
    + rewrite lookup_insert_ne by done. apply H2.
Qed.

Lemma r04_typed_insert_desc n d :
  R04.typed n → R04.typed (<["_desc" := R04.Str d]> n).
Proof.
  intros [H1 H2]%r04_typed_unfold. apply r04_typed_unfold. split.
  - intros k' v. destruct (decide ("_desc" = k')) as [<-|Hne].
    + rewrite lookup_insert_eq. intros [= <-]. split; [eauto|done].
    + rewrite lookup_insert_ne by done. apply H1.
  - intros k' c'. destruct (decide ("_desc" = k')) as [<-|Hne].
    + by rewrite lookup_insert_eq.
    + rewrite lookup_insert_ne by done. apply H2.
Qed.

(** One round of the loop in a well-shaped tree, for a part that is not
    the description property: the child is the node already there, or a
    new one. *)
Lemma r04_edge_token_spec token :
  R04.edge_token token = true
  ↔ token ≠ "_desc" ∧ Prototype.inherited token = false.
Proof.
  unfold R04.edge_token.
  rewrite andb_true_iff, !negb_true_iff, String.eqb_neq. done.
Qed.

Lemma r04_insert_command_step p rest desc cur :
  R04.typed cur → R04.edge_token (toLowerCase p) = true →
  ∃ child,
    (cur !! toLowerCase p = Some (R04.Obj child)
     ∨ (cur !! toLowerCase p = None ∧ child = ∅))
    ∧ R04.typed child
    ∧ R04.insert_command (p :: rest) desc cur
      = (match rest with
         | [] => Some (<["_desc" := R04.Str desc]> child)
         | _ :: _ => R04.insert_command rest desc child
         end) ≫= fun child' => Some (<[toLowerCase p := R04.Obj child']> cur).
Proof.
  intros Ht [Hp Hi]%r04_edge_token_spec.
  pose proof Ht as [H1 H2]%r04_typed_unfold. simpl. unfold R04.child_at.
  destruct (cur !! toLowerCase p) as [[s|node]|] eqn:E.
  - destruct Hp. apply (H1 _ _ E). eauto.
  - exists node. split; [by left|]. split; [by eapply H2|]. done.
  - rewrite Hi. exists ∅. split; [by right|].
    split; [apply r04_typed_empty|]. done.
Qed.

Lemma r04_insert_command_typed parts desc cur :
  R04.typed cur → Forall (fun p => R04.edge_token (toLowerCase p) = true) parts →
  ∃ cur', R04.insert_command parts desc cur = Some cur' ∧ R04.typed cur'.
Proof.
  revert cur. induction parts as [|p rest IH]; intros cur Ht Hp.
  { exists cur. by split. }
  apply Forall_cons in Hp as [Hp Hrest].
  destruct (r04_insert_command_step p rest desc cur Ht Hp)
    as (child & _ & Hc & ->).
  apply r04_edge_token_spec in Hp as [Hp _].
  destruct rest as [|q rest'].
  - eexists. split; [done|].
    by apply r04_typed_insert_node; [|apply r04_typed_insert_desc|].
  - destruct (IH child Hc Hrest) as (child' & -> & Hc').
    eexists. split; [done|]. by apply r04_typed_insert_node.
Qed.

Lemma r04_metadata_insert_desc n d :
  R04.metadata (<["_desc" := R04.Str d]> n) = Some d.
Proof. unfold R04.metadata. by rewrite lookup_insert_eq. Qed.

Lemma r04_metadata_insert_other n k v :
  k ≠ "_desc" → R04.metadata (<[k := v]> n) = R04.metadata n.
Proof. intros Hk. unfold R04.metadata. by rewrite lookup_insert_ne. Qed.

(** The path of the inserted command ends on a node with its
    description. *)
Lemma r04_insert_command_reaches parts desc cur cur' :
  parts ≠ [] → R04.typed cur →
  Forall (fun p => R04.edge_token (toLowerCase p) = true) parts →
  R04.insert_command parts desc cur = Some cur' →
  ∃ n, R04.reaches cur' (toLowerCase <$> parts) n ∧ R04.metadata n = Some desc.
Proof.
  revert cur cur'. induction parts as [|p rest IH]; intros cur cur' Hne Ht Hp;
    [done|].
  apply Forall_cons in Hp as [Hp Hrest].
  destruct (r04_insert_command_step p rest desc cur Ht Hp)
    as (child & _ & Hc & ->).
  apply r04_edge_token_spec in Hp as [Hp _].
  destruct rest as [|q rest'].
  - simpl. intros [= <-]. eexists. split.
    + eapply R04.reaches_step; [apply lookup_insert_eq|constructor].
    + apply r04_metadata_insert_desc.
  - destruct (R04.insert_command (q :: rest') desc child) as [child'|] eqn:E;
      [|done].
    simpl. intros [= <-].
    destruct (IH child child' ltac:(done) Hc Hrest E) as (n & Hr & Hm).
    exists n. split; [|done].
    eapply R04.reaches_step; [apply lookup_insert_eq|done].
Qed.

(** Every other path that led to a node still does, and the node it
    leads to has the same description. *)
Lemma r04_insert_command_preserves parts desc cur cur' tokens n :
  R04.typed cur →
  Forall (fun p => R04.edge_token (toLowerCase p) = true) parts →
  R04.insert_command parts desc cur = Some cur' →
  tokens ≠ toLowerCase <$> parts →
  R04.reaches cur tokens n →
  ∃ n', R04.reaches cur' tokens n' ∧ R04.metadata n' = R04.metadata n.
Proof.
  revert cur cur' tokens n.
  induction parts as [|p rest IH]; intros cur cur' tokens n Ht Hp.
  { simpl. intros [= <-] _ Hr. eauto. }
  apply Forall_cons in Hp as [Hp Hrest].
  destruct (r04_insert_command_step p rest desc cur Ht Hp)
    as (child & Hchild & Hc & ->).
  apply r04_edge_token_spec in Hp as [Hp _].
  intros Hins Hne Hr.
  destruct (match rest with
            | [] => Some (<["_desc" := R04.Str desc]> child)
            | _ :: _ => R04.insert_command rest desc child
            end) as [child'|] eqn:E; [|done].
  simpl in Hins. injection Hins as <-.
  inversion Hr as [|? t c0 ts ? Ht0 Hr0]; subst.
  - (* the root itself *)
    eexists. split; [constructor|]. by apply r04_metadata_insert_other.
  - destruct (decide (t = toLowerCase p)) as [->|Hneq].
    + (* the path enters the updated child *)
      destruct Hchild as [Hchild|[Hchild _]]; [|congruence].
      assert (c0 = child) as -> by congruence.
      destruct rest as [|q rest'].
      * injection E as <-.
        destruct ts as [|t' ts']; [done|].
        inversion Hr0 as [|? ? c1 ? ? Ht1 Hr1]; subst.
        pose proof Hc as [Hc1 _]%r04_typed_unfold.
        assert (t' ≠ "_desc") as Ht'.
        { intros ->. destruct (proj1 (Hc1 _ _ Ht1) eq_refl) as [s ?]. done. }
        exists n. split; [|done].
        eapply R04.reaches_step; [apply lookup_insert_eq|].
        eapply R04.reaches_step; [|done]. by rewrite lookup_insert_ne.
      * destruct (IH child child' ts n Hc Hrest E) as (n' & Hr' & Hm');
          [naive_solver|done|].
        exists n'. split; [|done].
        eapply R04.reaches_step; [apply lookup_insert_eq|done].
    + exists n. split; [|done].
      eapply R04.reaches_step; [|done]. by rewrite lookup_insert_ne.
Qed.

Lemma r04_command_tokens_nonempty cmdName : split_ws (trim cmdName) ≠ [].
Proof. apply split_from_nonempty. Qed.

Lemma r04_valid_commands_cons cmdName details rest :
  R04.valid_commands ((cmdName, details) :: rest) →
  Forall (fun p => R04.edge_token (toLowerCase p) = true)
    (split_ws (trim cmdName))
  ∧ R04.valid_commands rest.
Proof.
  intros H. split.
  - apply (Forall_fmap toLowerCase (fun t => R04.edge_token t = true)).
    apply (H cmdName details). left.
  - intros c d Hin. apply (H c d). by right.
Qed.

Lemma r04_description_of_elem commandsR04 cmdName details :
  (cmdName, details) ∈ commandsR04 →
  is_Some (R04.description_of commandsR04 (R04.command_tokens cmdName)).
Proof.
  induction commandsR04 as [|[c d] rest IH]; [by intros ?%elem_of_nil|].
  intros [[= <- <-]|Hin]%elem_of_cons; simpl.
  - destruct (R04.description_of rest _); [eauto|].
    rewrite decide_True by done. eauto.
  - destruct (IH Hin) as [x ->]. eauto.
Qed.


(** The loop over the entries: in a well-shaped tree and for a
    dictionary that keeps clear of the description property, it
    succeeds; a path with a description in force ends on a node carrying
    it, and the nodes of the other paths are kept with their
    description. *)
Lemma r04_build_from_spec entries tree :
  R04.typed tree → R04.valid_commands entries →
  ∃ tree',
    R04.build_from entries tree = Some tree' ∧ R04.typed tree'
    ∧ ∀ tokens,
        match R04.description_of entries tokens with
        | Some d => ∃ n, R04.reaches tree' tokens n ∧ R04.metadata n = Some d
        | None =>
            ∀ n, R04.reaches tree tokens n →
              ∃ n', R04.reaches tree' tokens n'
                    ∧ R04.metadata n' = R04.metadata n
        end.
Proof.
  revert tree. induction entries as [|[cmdName details] rest IH];
    intros tree Ht Hwf.
  { exists tree. split; [done|]. split; [done|]. simpl. eauto. }
  apply r04_valid_commands_cons in Hwf as [Hparts Hwf].
  destruct (r04_insert_command_typed _ (R04.description details) tree Ht Hparts)
    as (tree1 & Hins & Ht1).
  destruct (IH tree1 Ht1 Hwf) as (tree' & Hb & Ht' & Hspec).
  exists tree'. simpl. rewrite Hins. simpl. split; [done|]. split; [done|].
  intros tokens. specialize (Hspec tokens).
  destruct (R04.description_of rest tokens) as [d|]; [done|].
  case_decide as Heq.
  - destruct (r04_insert_command_reaches _ _ _ _
                (r04_command_tokens_nonempty cmdName) Ht Hparts Hins)
      as (n1 & Hr1 & Hm1).
    unfold R04.command_tokens in Heq. rewrite Heq in Hr1.
    destruct (Hspec n1 Hr1) as (n' & Hr' & Hm'). exists n'. split; [done|].
    by rewrite Hm'.
  - intros n Hr.
    destruct (r04_insert_command_preserves _ _ _ _ tokens n Ht Hparts Hins)
      as (n1 & Hr1 & Hm1); [by intros ->|done|].
    destruct (Hspec n1 Hr1) as (n' & Hr' & Hm'). exists n'. split; [done|].
    by rewrite Hm'.
Qed.

End R04Build.


(* ===================================================================== *)
(** * The tokens of a command string *)
(* ===================================================================== *)

Section Tokens.



Lemma all_space_trimEnd s : all_space (trimEnd s) = all_space s.
Proof.
  induction s as [|c s IH]; [done|]. cbn [trimEnd].
  destruct (all_space (String c s)) eqn:E; [done|].
  cbn [all_space] in *. by rewrite IH.
Qed.

Lemma trimEnd_idemp s : trimEnd (trimEnd s) = trimEnd s.
Proof.
  induction s as [|c s IH]; [done|]. cbn [trimEnd].
  destruct (all_space (String c s)) eqn:E; [done|].
  cbn [trimEnd all_space] in *. by rewrite all_space_trimEnd, E, IH.
Qed.

Lemma trimStart_head c r : trimStart (String c r) = String c r → is_space c = false.
Proof.
  simpl. destruct (is_space c) eqn:E; [|done]. intros H.
  assert (String.length (trimStart r) ≤ String.length r)%nat as Hle.
  { clear. induction r as [|x r IH]; simpl; [done|].
    destruct (is_space x); simpl; lia. }
  rewrite H in Hle. simpl in Hle. lia.
Qed.

Lemma trimStart_idemp s : trimStart (trimStart s) = trimStart s.
Proof.
  induction s as [|c s IH]; [done|]. simpl.
  destruct (is_space c) eqn:E; [done|]. simpl. by rewrite E.
Qed.

(** A trimmed text that is not empty starts with a character that is
    not whitespace. *)
Lemma trim_head s :
  trim s ≠ EmptyString →
  ∃ c r, trim s = String c r ∧ is_space c = false.
Proof.
  unfold trim. intros Hne.
  destruct (trimStart s) as [|c r] eqn:E; [done|].
  assert (is_space c = false) as Hc.
  { apply (trimStart_head c r). rewrite <- E. apply trimStart_idemp. }
  cbn [trimEnd] in *. destruct (all_space (String c r)); [done|]. eauto.
Qed.

(** In a text without trailing whitespace, every piece after the first
    is non-empty. *)
Lemma split_from_pieces s :
  trimEnd s = s →
  (s ≠ EmptyString → Forall (fun t => t ≠ EmptyString) (split_from true s))
  ∧ Forall (fun t => t ≠ EmptyString) (tail (split_from false s)).
Proof.
  induction s as [|c s IH]; intros Hs.
  { split; [done|]. simpl. constructor. }
  cbn [trimEnd] in Hs.
  destruct (all_space (String c s)) eqn:Ea; [done|].
  injection Hs as Hs. destruct (IH Hs) as [IH1 IH2].
  cbn [all_space] in Ea. simpl. destruct (is_space c) eqn:Ec.
  - assert (s ≠ EmptyString) as Hne by (intros ->; done).
    split; [intros _|]; simpl; by apply IH1.
  - destruct (split_from false s) as [|t ts]; simpl in *.
    + split; [intros _|]; by repeat constructor.
    + split; [intros _|]; [constructor|]; done.
Qed.

Lemma split_ws_trim_nonempty s :
  trim s ≠ EmptyString →
  Forall (fun t => t ≠ EmptyString) (split_ws (trim s)).
Proof.
  intros Hne. destruct (trim_head s Hne) as (c & r & E & Hc).
  assert (trimEnd (trim s) = trim s) as Hi by apply trimEnd_idemp.
  destruct (split_from_pieces (trim s) Hi) as [_ Htl].
  unfold split_ws in *. rewrite E in *. simpl in *. rewrite Hc in *.
  destruct (split_from false r) as [|t ts]; simpl in *;
    by repeat constructor.
Qed.

(** The empty command string has one token, the empty one. *)
Lemma split_ws_trim_blank s :
  trim s = EmptyString → split_ws (trim s) = [EmptyString].
Proof. by intros ->. Qed.

End Tokens.

(** Induction on a JSON document, with the hypothesis for the values of
    the members of an object. *)
Lemma Json_members_ind (P : Main.Json → Prop) :
  P Main.JNull → (∀ b, P (Main.JBool b)) → (∀ n, P (Main.JNum n)) →
  (∀ s, P (Main.JStr s)) → (∀ items, P (Main.JArr items)) →
  (∀ members, Forall (fun kv => P kv.2) members → P (Main.JObj members)) →
  ∀ j, P j.
Proof.
  intros Hnull Hbool Hnum Hstr Harr Hobj. fix IH 1.
  intros [|b|n|s|items|members].
  - exact Hnull.
  - exact (Hbool b).
  - exact (Hnum n).
  - exact (Hstr s).
  - exact (Harr items).
  - apply Hobj. revert members. fix IHm 1. intros [|[key nextLevel] rest].
    + constructor.
    + constructor; [exact (IH nextLevel)|exact (IHm rest)].
Qed.

(* ===================================================================== *)
(** * The edge labels of the trees *)
(* ===================================================================== *)

Section Edges.

Context (P : string → Prop).














End Edges.

(* ===================================================================== *)
(** * The nested variant: [normalizeTree] *)
(* ===================================================================== *)

Section MainBuild.









(** ** The paths of the nested dictionary *)

Lemma main_grows_refl root : Main.grows root root.
Proof. intros ts n Hr. eauto. Qed.

Lemma main_grows_trans a b c : Main.grows a b → Main.grows b c → Main.grows a c.
Proof. intros Hab Hbc ts n Hr. destruct (Hab ts n Hr) as [n' Hr']. eauto. Qed.

Lemma main_reaches_app root p q n m :
  Main.reaches root p n → Main.reaches n q m → Main.reaches root (p ++ q)%list m.
Proof.
  induction 1 as [|r t c ts n' Hc _ IH]; simpl; [done|].
  intros Hq. econstructor; [done|]. by apply IH.
Qed.

(** Replacing the child under [k] by a larger one. *)
Lemma main_grows_insert temp k c c' :
  Main.child_at temp k = Some c → Main.grows c c' →
  Main.grows temp (Main.Node (<[k := c']> (Main.children temp))).
Proof.
  intros Hk Hg ts n Hr. inversion Hr as [|? t c0 ts' ? Hc Hr']; subst.
  { eexists. constructor. }
  destruct (decide (k = t)) as [<-|Hne].
  - unfold Main.child_at in Hk. rewrite Hc in Hk. injection Hk as <-.
    destruct (Hg _ _ Hr') as [n' Hn'].
    exists n'. econstructor; [|done]. simpl. apply lookup_insert_eq.
  - exists n. econstructor; [|done]. simpl. by rewrite lookup_insert_ne.
Qed.

(** [insert_parts] keeps the paths there were, and below the path
    [parts] it puts what the continuation returns. *)
Lemma main_insert_parts_paths parts last temp temp' :
  parts ≠ [] →
  (∀ c c', last c = Some c' → Main.grows c c') →
  Main.insert_parts parts last temp = Some temp' →
  Main.grows temp temp'
  ∧ ∃ c c', last c = Some c' ∧ Main.reaches temp' parts c'.
Proof.
  intros Hne Hlast. revert temp temp'.
  induction parts as [|part rest IH]; intros temp temp'; [done|].
  simpl. destruct (Main.child_at temp part) as [child|] eqn:Ec; [|done]. simpl.
  destruct rest as [|q rest'].
  - destruct (last _) as [c'|] eqn:E; [|done]. simpl. intros [= <-]. split.
    + eapply main_grows_insert; [done|]. by eapply Hlast.
    + eexists _, c'. split; [done|].
      econstructor; [simpl; apply lookup_insert_eq|constructor].
  - destruct (Main.insert_parts (q :: rest') last _) as [c'|] eqn:E; [|done].
    simpl. intros [= <-].
    destruct (IH ltac:(done) _ _ E) as (Hg & c & c2 & Hc & Hr). split.
    + by eapply main_grows_insert.
    + exists c, c2. split; [done|].
      econstructor; [simpl; apply lookup_insert_eq|done].
Qed.

Lemma main_add_options_grows options root root' :
  Main.add_options options root = Some root' → Main.grows root root'.
Proof.
  destruct options as [[| | | |opts|]|]; simpl;
    try (intros [= <-]; apply main_grows_refl).
  revert root. induction opts as [|opt rest IH]; intros root; simpl.
  { intros [= <-]. apply main_grows_refl. }
  destruct opt as [| | |s| |]; simpl; try done.
  destruct (Main.children root !! toLowerCase s) as [c|] eqn:E; simpl.
  - apply IH.
  - destruct (Prototype.inherited (toLowerCase s)) eqn:Ei; simpl; [apply IH|].
    intros H. eapply main_grows_trans; [|by apply IH].
    apply (main_grows_insert _ _ Main.empty_node).
    + unfold Main.child_at. by rewrite E, Ei.
    + apply main_grows_refl.
Qed.

(** Every path spelled by the keys of the dictionary leads to a node of
    the tree, and the paths the tree had are kept. *)
Lemma main_traverse_paths options j :
  ∀ root root',
    Main.traverse options j root = Some root' →
    Main.grows root root'
    ∧ ∀ tokens, Main.key_path j tokens → ∃ n, Main.reaches root' tokens n.
Proof.
  induction j as [| | | | |members IH] using Json_members_ind;
    intros root root' Ht;
    try (simpl in Ht; split; [by eapply main_add_options_grows|];
         intros tokens Hp; inversion Hp; subst; eexists; constructor).
  simpl in Ht.
  destruct (Main.for_in _ members root) as [root1|] eqn:E; [|done].
  simpl in Ht. pose proof (main_add_options_grows _ _ _ Ht) as Hg1.
  assert (Main.grows root root1
          ∧ ∀ key nextLevel tokens,
              (key, nextLevel) ∈ members → key ≠ "_options" →
              tokens = []
              ∨ (Main.is_plain_object nextLevel = true
                 ∧ Main.key_path nextLevel tokens) →
              ∃ n, Main.reaches root1
                     (split_ws (toLowerCase key) ++ tokens)%list n)
    as [Hg Hkeys].
  { clear Ht Hg1 root'. revert root root1 E.
    induction IH as [|[key nextLevel] rest Hnext _ IHm]; intros root root1.
    { simpl. intros [= <-]. split; [apply main_grows_refl|].
      by intros ??? ?%elem_of_nil. }
    simpl. destruct (String.eqb_spec key "_options") as [->|Hne].
    { intros E. destruct (IHm _ _ E) as [Hg Hk]. split; [done|].
      intros k v ts [[= -> ->]|Hin]%elem_of_cons Hk'; [done|]. by apply Hk. }
    destruct (Main.insert_parts _ _ root) as [root2|] eqn:E2; [|done]. simpl.
    intros E. destruct (IHm _ _ E) as [Hg Hk].
    assert (∀ c c',
              (if Main.is_plain_object nextLevel
               then Main.traverse options nextLevel c else Some c) = Some c' →
              Main.grows c c') as Hlast.
    { intros c c' Hc. destruct (Main.is_plain_object nextLevel).
      - by eapply Hnext.
      - injection Hc as <-. apply main_grows_refl. }
    destruct (main_insert_parts_paths _ _ _ _ (split_from_nonempty _ _)
                Hlast E2) as (Hg2 & c & c' & Hc & Hr).
    split; [by eapply main_grows_trans|].
    intros k v ts [[= -> ->]|Hin]%elem_of_cons Hk' Hts; [|by eapply Hk].
    assert (∃ n, Main.reaches c' ts n) as [n Hn].
    { destruct Hts as [->|[Hplain Hpath]]; [eexists; constructor|].
      simpl in Hc. rewrite Hplain in Hc. by eapply Hnext. }
    eapply Hg. by eapply main_reaches_app. }
  split; [by eapply main_grows_trans|].
  intros tokens Hp.
  inversion Hp as [|? key nextLevel Hin Hne|? key nextLevel ts Hin Hne Hplain Hts];
    subst.
  - eexists. constructor.
  - destruct (Hkeys key nextLevel [] Hin Hne) as [n Hn]; [by left|].
    rewrite app_nil_r in Hn. by eapply Hg1.
  - destruct (Hkeys key nextLevel ts Hin Hne) as [n Hn]; [by right|].
    by eapply Hg1.
Qed.

(** For a dictionary of the nested variant, every path spelled by its
    keys leads from the root of the tree to a node (which, in this
    variant, carries nothing but its children). *)
Lemma main_normalizeTree_paths raw tree tokens :
  Main.normalizeTree raw = Some tree →
  Main.key_path (Main.JObj raw) tokens →
  ∃ n, Main.reaches tree tokens n.
Proof.
  intros Hn Hp. unfold Main.normalizeTree in Hn.
  by eapply (main_traverse_paths _ _ _ _ Hn).
Qed.

End MainBuild.

(* ===================================================================== *)
(** * Properties of the normalizer *)
(* ===================================================================== *)

Section Checks.

(** A test that decides [R04.valid_commands] on a given dictionary. *)
Lemma r04_valid_commands_check (commandsR04 : list (string * R04.CommandDetail)) :
  forallb (fun entry => forallb R04.edge_token (R04.command_tokens entry.1))
          commandsR04 = true →
  R04.valid_commands commandsR04.
Proof.
  intros H cmdName details Hin. apply list_elem_of_In in Hin.
  rewrite forallb_forall in H. apply H in Hin. cbn [fst] in Hin.
  rewrite forallb_forall in Hin. apply Forall_forall. intros token Ht.
  apply Hin. by apply list_elem_of_In.
Qed.

End Checks.

(** Scenarios A and B of the specification, on the tree of
    [buildTreeFromR04]. *)
Example scenario_A_and_B :
  (tree ← R04.buildTreeFromR04 Spec.scenario_commands;
   R04.suggest tree "show ip " 8) = Some ["interface"; "isis"]
  ∧ (tree ← R04.buildTreeFromR04 Spec.scenario_commands;
     R04.suggest tree "show ip is" 10) = Some ["isis"].
Proof. split; vm_compute; reflexivity. Qed.





(* ===================================================================== *)
(** * The indices of a string *)
(* ===================================================================== *)

Section Indices.

Lemma pretty_N_go_digits x s :
  all_digits s = true → all_digits (pretty_N_go x s) = true.
Proof.
  revert s. induction (N.lt_wf_0 x) as [x _ IH]; intros s Hs.
  assert (x = 0 ∨ 0 < x)%N as [->|?] by lia.
  - by rewrite pretty_N_go_0.
  - rewrite pretty_N_go_step by done. apply IH; [by apply N.div_lt|].
    simpl. rewrite Hs. unfold pretty_N_char. by repeat case_match.
Qed.

(** The decimal numeral of an index is made of digits. *)
Lemma pretty_nat_digits (i : nat) : all_digits (pretty i) = true.
Proof.
  unfold pretty, pretty_nat, pretty, pretty_N.
  case_decide; [done|]. by apply pretty_N_go_digits.
Qed.

Lemma is_digit_facts c :
  is_digit c = true → is_space c = false ∧ lower_char c = c.
Proof. destruct c as [[] [] [] [] [] [] [] []]; by vm_compute. Qed.

Lemma numeral_toLowerCase s : all_digits s = true → toLowerCase s = s.
Proof.
  induction s as [|c s IH]; [done|]. simpl.
  intros [Hc Hs]%andb_true_iff.
  by rewrite (proj2 (is_digit_facts c Hc)), IH.
Qed.

Lemma all_digits_split b s :
  all_digits s = true → Forall (fun t => all_digits t = true) (split_from b s).
Proof.
  revert b. induction s as [|c s IH]; intros b; simpl.
  { intros _. by repeat constructor. }
  intros [Hc Hs]%andb_true_iff.
  rewrite (proj1 (is_digit_facts c Hc)).
  specialize (IH false Hs). destruct (split_from false s) as [|t ts].
  - repeat constructor. simpl. by rewrite Hc.
  - apply Forall_cons in IH as [Ht Hts]. constructor; [|done].
    simpl. by rewrite Hc, Ht.
Qed.

(** A numeral is not the name of an inherited property. *)
Lemma all_digits_inherited s :
  all_digits s = true → Prototype.inherited s = false.
Proof.
  destruct s as [|c s]; [done|]. simpl. intros [Hc _]%andb_true_iff.
  destruct c as [[] [] [] [] [] [] [] []]; try discriminate Hc; reflexivity.
Qed.

Lemma all_digits_tokens s :
  all_digits s = true →
  Forall (fun token => Prototype.inherited token = false)
    (split_ws (toLowerCase s)).
Proof.
  intros Hs. rewrite numeral_toLowerCase by done.
  eapply Forall_impl; [by apply all_digits_split|].
  intros t. apply all_digits_inherited.
Qed.

End Indices.

(* ===================================================================== *)
(** * The builders write to the objects they allocate, and to no other *)
(* ===================================================================== *)

Section Frame.

Import Store.

Context (strings : bool) (σ0 : list Object).
Context (Hrealm : realm σ0) (Hclosed : closed σ0) (Hplain : plain σ0).

Implicit Types (σ : list Object) (v w : Val).

Lemma extends_refl : extends strings σ0 σ0.
Proof.
  split; [done|]. intros l o Hl Ho. apply lookup_lt_Some in Ho. lia.
Qed.

Lemma extends_unchanged σ : extends strings σ0 σ → unchanged σ0 σ.
Proof. intros [Hp _] l o Ho. by eapply prefix_lookup_Some. Qed.

Lemma extends_length σ : extends strings σ0 σ → (length σ0 ≤ length σ)%nat.
Proof. intros [Hp _]. by apply prefix_length. Qed.

Lemma realm_length : (2 ≤ length σ0)%nat.
Proof.
  destruct Hrealm as [_ H]. apply lookup_lt_Some in H.
  unfold object_function in H. lia.
Qed.

(** Nothing has been added to [Object.prototype]. *)
Lemma extends_added σ : extends strings σ0 σ → added σ = [].
Proof.
  intros Hσ. unfold added. destruct Hrealm as [H _].
  by rewrite (extends_unchanged σ Hσ _ _ H).
Qed.

(** An object of [σ0] is found in every extension. *)
Lemma extends_old σ l :
  extends strings σ0 σ → (l < length σ0)%nat → σ !! l = σ0 !! l.
Proof.
  intros Hσ Hl. destruct (lookup_lt_is_Some_2 σ0 l Hl) as [o Ho].
  rewrite Ho. by apply (extends_unchanged σ Hσ).
Qed.

(** What is read from the store is read from every store that has its
    objects unchanged. *)
Lemma read_json_unchanged σ σ' fuel v j :
  unchanged σ σ' → read_json fuel σ v = Some j → read_json fuel σ' v = Some j.
Proof.
  intros Hu. revert v j. induction fuel as [|fuel IH]; intros v j; [done|].
  destruct v as [| | | | |l]; try done. simpl.
  destruct (σ !! l) as [o|] eqn:E; [|done]. rewrite (Hu l o E). simpl.
  destruct (mapM _ (props o)) as [members|] eqn:Em; [|done]. simpl.
  intros [= <-].
  assert (mapM (fun '(k, w) => j ← read_json fuel σ' w; Some (k, j)) (props o)
          = Some members) as ->; [|done].
  apply mapM_Some. apply mapM_Some in Em.
  eapply Forall2_impl; [exact Em|]. intros [k w] kj. simpl.
  destruct (read_json fuel σ w) as [jw|] eqn:Ew; [|done].
  by rewrite (IH _ _ Ew).
Qed.

(** ** The rules of [keeps] *)

Lemma keeps_ret {A} (a : A) (Q : A → Prop) : Q a → keeps strings σ0 (mret a) Q.
Proof. intros HQ σ Hσ. by split. Qed.

Lemma keeps_bind {A B} (m : M A) (k : A → M B) (Q : A → Prop) (R : B → Prop) :
  keeps strings σ0 m Q → (∀ a, Q a → keeps strings σ0 (k a) R) →
  keeps strings σ0 (m ≫= k) R.
Proof.
  intros Hm Hk σ Hσ. specialize (Hm σ Hσ). unfold mbind, M_bind.
  destruct (m σ) as [a σ'| | |]; [|done..].
  destruct Hm as [Hσ' Ha]. by apply Hk.
Qed.

Lemma keeps_weaken {A} (m : M A) (Q R : A → Prop) :
  keeps strings σ0 m Q → (∀ a, Q a → R a) → keeps strings σ0 m R.
Proof.
  intros Hm HQR σ Hσ. specialize (Hm σ Hσ).
  destruct (m σ) as [a σ'| | |]; [|done..]. destruct Hm. auto.
Qed.

Lemma keeps_throw {A} (Q : A → Prop) : keeps strings σ0 throw Q.
Proof. by intros σ Hσ. Qed.

Lemma keeps_out_of_fuel {A} (Q : A → Prop) : keeps strings σ0 out_of_fuel Q.
Proof. by intros σ Hσ. Qed.

Lemma keeps_alloc : keeps strings σ0 alloc (fresh (length σ0)).
Proof.
  intros σ Hσ. unfold alloc. split; [|by apply extends_length].
  destruct Hσ as [Hp Hn]. split; [by apply prefix_app_r|].
  intros l o Hl. rewrite lookup_app.
  destruct (σ !! l) as [o'|] eqn:E.
  - intros [= <-]. by eapply Hn.
  - destruct (l - length σ) as [|?]; [|done]. intros [= <-].
    split; [done|constructor].
Qed.

Lemma fresh_node n v : fresh n v → node n v.
Proof. by destruct v. Qed.

Lemma has_elem_of key ps : has key ps = true ↔ key ∈ ps.*1.
Proof.
  induction ps as [|[k v] ps IH]; simpl.
  - split; [done|]. by intros ?%elem_of_nil.
  - rewrite orb_true_iff, IH, elem_of_cons, String.eqb_eq.
    split; (intros [H|H]; [left|right]); done.
Qed.

(** The own property of a node, when there is one. *)
Lemma own_node_property key ps :
  Forall (node_property strings (length σ0)) ps → has key ps = true →
  match own key ps with
  | VRef l => (length σ0 ≤ l)%nat
  | VString _ => strings = true ∧ key = "_desc"
  | _ => False
  end.
Proof.
  induction 1 as [|[k v] ps Hv _ IH]; simpl; [done|].
  destruct (String.eqb_spec k key) as [->|Hne]; [|done].
  intros _. unfold node_property in Hv. simpl in Hv. by destruct v.
Qed.

Lemma put_node_property key v ps :
  node_property strings (length σ0) (key, v) →
  Forall (node_property strings (length σ0)) ps →
  Forall (node_property strings (length σ0)) (put key v ps).
Proof.
  intros Hv. induction 1 as [|[k w] ps Hw Hps IH]; simpl.
  { by repeat constructor. }
  destruct (String.eqb_spec k key) as [->|Hne]; by constructor.
Qed.

(** Reading, in a store where nothing has been added to
    [Object.prototype], a property that is not a built-in one. *)
Lemma from_object_prototype_plain σ self key :
  extends strings σ0 σ → Prototype.inherited key = false →
  from_object_prototype self key σ = Done VUndefined σ.
Proof.
  intros Hσ Hi. unfold from_object_prototype.
  rewrite (extends_added σ Hσ). simpl.
  destruct (inherited_false key Hi) as [-> ->]. by rewrite Hi.
Qed.

(** A node of the tree is not a built-in object. *)
Lemma node_not_builtin l :
  (length σ0 ≤ l)%nat →
  Nat.eqb l object_prototype = false ∧ Nat.eqb l object_function = false.
Proof.
  intros Hl. pose proof realm_length.
  unfold object_prototype, object_function.
  split; apply Nat.eqb_neq; lia.
Qed.

(** Reading through a node under a name that is not inherited: the own
    property or [undefined]. *)
Lemma get_property_node σ l o key :
  extends strings σ0 σ → (length σ0 ≤ l)%nat → σ !! l = Some o →
  Prototype.inherited key = false →
  get_property (VRef l) key σ
  = Done (if has key (props o) then own key (props o) else VUndefined) σ
  ∧ is_array o = false
  ∧ Forall (node_property strings (length σ0)) (props o).
Proof.
  intros Hσ Hl E Hi. destruct (proj2 Hσ l o Hl E) as [Ha Hps].
  split; [|done]. unfold get_property. rewrite E, Ha. simpl.
  destruct (has key (props o)); [done|].
  destruct (node_not_builtin l Hl) as [-> ->].
  by rewrite from_object_prototype_plain.
Qed.

(** ... and (unless the name is [_desc] in the tree of
    [buildTreeFromR04]) the result is a node. *)
Lemma keeps_get_node temp key :
  node (length σ0) temp → Prototype.inherited key = false →
  (strings = true → key ≠ "_desc") →
  keeps strings σ0 (get_property temp key) (node (length σ0)).
Proof.
  intros Ht Hi Hd σ Hσ.
  destruct temp as [| | | | |l]; try done. simpl in Ht.
  destruct (σ !! l) as [o|] eqn:E; [|by unfold get_property; rewrite E].
  destruct (get_property_node σ l o key Hσ Ht E Hi) as (-> & _ & Hps).
  split; [done|]. destruct (has key (props o)) eqn:Eh; [|done].
  pose proof (own_node_property key _ Hps Eh) as H.
  destruct (own key (props o)); try done. destruct H as [Hs ->]. by destruct Hd.
Qed.

Lemma keeps_get_any_node temp key :
  node (length σ0) temp → Prototype.inherited key = false →
  keeps strings σ0 (get_property temp key) (fun _ => True).
Proof.
  intros Ht Hi σ Hσ.
  destruct temp as [| | | | |l]; try done. simpl in Ht.
  destruct (σ !! l) as [o|] eqn:E; [|by unfold get_property; rewrite E].
  by destruct (get_property_node σ l o key Hσ Ht E Hi) as (-> & _ & _).
Qed.

(** Writing a property of a node through a node. *)
Lemma keeps_set_node temp key w :
  node (length σ0) temp → Prototype.inherited key = false →
  node_property strings (length σ0) (key, w) →
  keeps strings σ0 (set_property temp key w) (fun _ => True).
Proof.
  intros Ht Hi Hw σ Hσ. unfold set_property.
  destruct temp as [| | | | |l]; try done. simpl in Ht.
  destruct (σ !! l) as [o|] eqn:E; [|done].
  destruct (proj2 Hσ l o Ht E) as [Ha Hps]. rewrite Ha.
  destruct (inherited_false key Hi) as [_ ->].
  destruct (node_not_builtin l Ht) as [_ ->].
  assert (extends strings σ0
            (alter (fun o => mkObject (is_array o) (put key w (props o))) l σ))
    as Hσ'.
  { destruct Hσ as [Hp Hn]. split.
    - destruct Hp as [k ->]. rewrite alter_app_r_alt by done.
      by apply prefix_app_r.
    - intros l' o' Hl'. destruct (decide (l = l')) as [<-|Hne].
      + rewrite list_lookup_alter_eq, E. simpl. intros [= <-]. simpl.
        split; [done|]. by apply put_node_property.
      + rewrite list_lookup_alter_ne by done. by apply Hn. }
  by destruct (has key (props o)).
Qed.

Lemma keeps_ensure_child temp name :
  node (length σ0) temp → Prototype.inherited name = false →
  keeps strings σ0 (ensure_child temp name) (fun _ => True).
Proof.
  intros Hn Hi. unfold ensure_child.
  eapply keeps_bind; [by apply keeps_get_any_node|]. intros v _.
  destruct (truthy v); [by apply keeps_ret|].
  eapply keeps_bind; [apply keeps_alloc|]. intros o Ho.
  apply keeps_set_node; [done..|]. by destruct o.
Qed.

(** ** Reading the raw dictionary *)

Lemma own_old key ps n :
  Forall (fun kv => old n kv.2) ps → old n (own key ps).
Proof.
  induction 1 as [|[k v] ps Hv _ IH]; simpl; [done|].
  by destruct (String.eqb k key).
Qed.

Lemma string_own_old n s key : old n (string_own s key).
Proof.
  unfold string_own. destruct (String.eqb key "length"); [done|].
  destruct (List.find _ _) as [i|]; [|done]. by destruct (String.get i s).
Qed.

Lemma free_name_plain key :
  free_name key = true → Prototype.inherited key = false.
Proof.
  unfold free_name. rewrite !orb_true_iff, !String.eqb_eq, Nat.leb_le.
  intros [[[->| ->]| ->]|Hl]; try done.
  destruct key as [|c [|d key]]; simpl in Hl; try lia; [done|].
  unfold Prototype.inherited, Prototype.names. simpl.
  by repeat (destruct (Ascii.eqb _ _); simpl).
Qed.

Lemma past_builtins_free σ key :
  extends strings σ0 σ → free_name key = true →
  past_builtins key σ = Done VUndefined σ.
Proof.
  intros Hσ Hf. unfold past_builtins. rewrite Hf.
  by apply from_object_prototype_plain, free_name_plain.
Qed.

(** The own names of an old value are the same in every extension. *)
Lemma own_names_old σ v :
  extends strings σ0 σ → old (length σ0) v → own_names σ v = own_names σ0 v.
Proof.
  intros Hσ Hv. destruct v as [| | | | |l]; try done. simpl in *.
  by rewrite (extends_old σ l Hσ Hv).
Qed.

Lemma for_in_keys_old σ v :
  extends strings σ0 σ → old (length σ0) v →
  for_in_keys v σ = Done (own_names σ0 v) σ.
Proof.
  intros Hσ Hv. unfold for_in_keys. rewrite (extends_added σ Hσ). simpl.
  rewrite (own_names_old σ v Hσ Hv).
  destruct v as [| | | | |l]; try done.
  by destruct (Nat.eqb l object_prototype).
Qed.

Lemma keeps_for_in_keys v :
  old (length σ0) v →
  keeps strings σ0 (for_in_keys v) (fun keys => keys = own_names σ0 v).
Proof. intros Hv σ Hσ. by rewrite for_in_keys_old. Qed.

Lemma string_has_index s key :
  key ∈ pretty <$> seq 0 (String.length s) → string_has s key = true.
Proof.
  intros (i & -> & Hi)%list_elem_of_fmap. unfold string_has.
  apply orb_true_iff. right. apply existsb_exists.
  exists i. split; [by apply list_elem_of_In|apply String.eqb_refl].
Qed.

(** Reading an own property of an old value, or a property with a
    [free_name], yields an old value. *)
Lemma keeps_get_old v key :
  old (length σ0) v →
  key ∈ own_names σ0 v ∨ free_name key = true →
  keeps strings σ0 (get_property v key) (old (length σ0)).
Proof.
  intros Hv Hk σ Hσ. unfold get_property.
  destruct v as [| | | |s|l]; try done.
  - destruct Hk as [?%elem_of_nil|Hf]; [done|]. by rewrite past_builtins_free.
  - destruct Hk as [?%elem_of_nil|Hf]; [done|]. by rewrite past_builtins_free.
  - destruct (string_has s key) eqn:Eh.
    { split; [done|]. apply string_own_old. }
    destruct Hk as [Hk|Hf]; [|by rewrite past_builtins_free].
    apply string_has_index in Hk. congruence.
  - simpl in Hv. rewrite (extends_old σ l Hσ Hv).
    destruct (σ0 !! l) as [o|] eqn:E; [|done].
    destruct (is_array o && String.eqb key "length"); [done|].
    destruct (has key (props o)) eqn:Eh.
    { split; [done|]. apply own_old. by eapply Hclosed. }
    assert (free_name key = true) as Hf.
    { destruct Hk as [Hk|Hf]; [|done]. simpl in Hk. rewrite E in Hk.
      apply has_elem_of in Hk. congruence. }
    pose proof (free_name_plain key Hf) as Hi.
    rewrite past_builtins_free by done.
    rewrite !from_object_prototype_plain by done.
    assert (String.eqb key "name" = false ∧ String.eqb key "length" = false
            ∧ String.eqb key "prototype" = false) as (-> & -> & ->).
    { unfold free_name in Hf. rewrite !orb_true_iff, !String.eqb_eq, Nat.leb_le in Hf.
      destruct Hf as [[[->| ->]| ->]|Hl]; try done.
      repeat split; apply String.eqb_neq; intros ->; simpl in Hl; lia. }
    by destruct (Nat.eqb l object_prototype), (Nat.eqb l object_function),
      (is_array o).
Qed.

Lemma keeps_isArray v : keeps strings σ0 (isArray v) (fun _ => True).
Proof.
  intros σ Hσ. unfold isArray. destruct v as [| | | |s|l]; try done.
  by destruct (σ !! l).
Qed.

Lemma keeps_isArray_old v :
  old (length σ0) v →
  keeps strings σ0 (isArray v) (fun array => array = true → old_array σ0 v).
Proof.
  intros Hv σ Hσ. unfold isArray. destruct v as [| | | |s|l]; try done.
  simpl in Hv. rewrite (extends_old σ l Hσ Hv).
  destruct (σ0 !! l) as [o|] eqn:E; [|done].
  split; [done|]. intros Ha. by exists l, o.
Qed.

(** The elements of an array of [σ0] are plain options. *)
Lemma keeps_elements options :
  old_array σ0 options →
  keeps strings σ0 (elements options) (Forall plain_option).
Proof.
  intros (l & o & -> & E & Ha) σ Hσ. unfold elements.
  rewrite (extends_unchanged σ Hσ l o E). split; [done|].
  apply Forall_fmap. eapply Forall_impl; [by apply (Hplain l o)|].
  intros [k v] [_ Hv]. by apply Hv.
Qed.

Lemma keeps_for_each {A} (body : A → M unit) (P : A → Prop) (l : list A) :
  Forall P l →
  (∀ x, P x → keeps strings σ0 (body x) (fun _ => True)) →
  keeps strings σ0 (for_each body l) (fun _ => True).
Proof.
  intros Hl Hb. induction Hl as [|x l Hx _ IH]; simpl.
  - by apply keeps_ret.
  - eapply keeps_bind; [by apply Hb|]. intros _ _. apply IH.
Qed.

(** ** [normalizeTree] *)

Lemma keeps_loop_parts recurse currentRaw key parts temp :
  strings = false →
  (∀ nextLevel child,
     old (length σ0) nextLevel → node (length σ0) child →
     keeps strings σ0 (recurse nextLevel child) (fun _ => True)) →
  old (length σ0) currentRaw → key ∈ own_names σ0 currentRaw →
  Forall (fun part => Prototype.inherited part = false) parts →
  node (length σ0) temp →
  keeps strings σ0 (loop_parts recurse currentRaw key parts temp)
    (fun _ => True).
Proof.
  intros Hs Hrec Hraw Hkey Hparts. revert temp.
  induction Hparts as [|part rest Hpart _ IH]; intros temp Ht.
  { by apply keeps_ret. }
  simpl. eapply keeps_bind; [by apply keeps_ensure_child|]. intros _ _.
  assert (strings = true → part ≠ "_desc") as Hd by (by rewrite Hs).
  destruct rest as [|q rest'].
  - eapply keeps_bind; [apply keeps_get_old; [done|by left]|].
    intros nextLevel Hn.
    eapply keeps_bind; [apply keeps_isArray|]. intros array _.
    destruct (is_object nextLevel && negb array); [|by apply keeps_ret].
    eapply keeps_bind; [by apply keeps_get_node|]. intros child Hc.
    by apply Hrec.
  - eapply keeps_bind; [by apply keeps_get_node|]. intros next Hnext.
    by apply IH.
Qed.

Lemma keeps_add_option currentRoot opt :
  node (length σ0) currentRoot → plain_option opt →
  keeps strings σ0 (add_option currentRoot opt) (fun _ => True).
Proof.
  intros Hr Ho. destruct opt; simpl; try apply keeps_throw.
  by apply keeps_ensure_child.
Qed.

(** The keys of an old value are plain. *)
Lemma own_names_plain v :
  old (length σ0) v → Forall plain_key (own_names σ0 v).
Proof.
  intros Hv. destruct v as [| | | |s|l]; simpl; try by constructor.
  - apply Forall_fmap, Forall_forall. intros i _. simpl.
    apply all_digits_tokens, pretty_nat_digits.
  - destruct (σ0 !! l) as [o|] eqn:E; [|constructor].
    apply Forall_fmap. eapply Forall_impl; [by apply (Hplain l o)|].
    by intros [k w] [Hk _].
Qed.

Lemma keeps_traverse fuel raw currentRaw currentRoot :
  strings = false →
  old (length σ0) raw → old (length σ0) currentRaw →
  node (length σ0) currentRoot →
  keeps strings σ0 (traverse fuel raw currentRaw currentRoot) (fun _ => True).
Proof.
  intros Hs Hraw. revert currentRaw currentRoot.
  induction fuel as [|fuel IH]; intros currentRaw currentRoot Hc Hr.
  { apply keeps_out_of_fuel. }
  simpl. eapply keeps_bind; [by apply keeps_for_in_keys|]. intros keys ->.
  eapply keeps_bind.
  { apply (keeps_for_each _
             (fun key => key ∈ own_names σ0 currentRaw ∧ plain_key key)).
    { apply Forall_forall. intros key Hk. split; [done|].
      by apply (proj1 (Forall_forall _ _) (own_names_plain currentRaw Hc)). }
    intros key [Hk Hp].
    destruct (String.eqb key "_options"); [by apply keeps_ret|].
    by apply keeps_loop_parts. }
  intros _ _.
  eapply keeps_bind; [by apply keeps_for_in_keys|]. intros keys' ->.
  rewrite decide_True by done.
  eapply keeps_bind; [by apply (keeps_ret tt (fun _ => True))|]. intros _ _.
  eapply keeps_bind; [apply keeps_get_old; [done|by right]|].
  intros options Ho.
  eapply keeps_bind; [by apply keeps_isArray_old|]. intros array Ha.
  destruct (truthy options && array) eqn:Et; [|by apply keeps_ret].
  apply andb_true_iff in Et as [_ ->].
  eapply keeps_bind; [by apply keeps_elements, Ha|]. intros opts Hopts.
  eapply keeps_for_each; [exact Hopts|].
  intros opt Hopt. by apply keeps_add_option.
Qed.

(** ** [buildTreeFromR04] *)

Lemma keeps_get_description details :
  described σ0 details →
  keeps strings σ0 (get_property details "description")
    (fun d => ∃ s, d = VString s).
Proof.
  intros (l & o & d & -> & Ho & Ha & Hh & Hd) σ Hσ. unfold get_property.
  rewrite (extends_unchanged σ Hσ l o Ho), Ha, Hh, Hd. simpl. split; eauto.
Qed.

Lemma keeps_insert_command parts details currentLevel :
  strings = true → described σ0 details →
  Forall (fun p => R04.edge_token (toLowerCase p) = true) parts →
  node (length σ0) currentLevel →
  keeps strings σ0 (insert_command parts details currentLevel)
    (fun _ => True).
Proof.
  intros Hs Hd Hparts. revert currentLevel.
  induction Hparts as [|p rest Hp _ IH]; intros currentLevel Hc.
  { by apply keeps_ret. }
  apply r04_edge_token_spec in Hp as [Hp Hi].
  simpl. eapply keeps_bind; [by apply keeps_ensure_child|]. intros _ _.
  eapply keeps_bind; [by apply keeps_get_node|]. intros next Hnext.
  destruct rest as [|q rest'].
  - eapply keeps_bind; [by apply keeps_get_description|]. intros d [s ->].
    by apply keeps_set_node.
  - by apply IH.
Qed.

Lemma keeps_own_entries commandsR04 :
  typed_dictionary σ0 commandsR04 → valid_dictionary σ0 commandsR04 →
  keeps strings σ0 (own_entries commandsR04)
    (Forall (fun kv =>
               described σ0 kv.2
               ∧ Forall (fun p => R04.edge_token (toLowerCase p) = true)
                   (split_ws (trim kv.1)))).
Proof.
  intros (l & o & -> & E & Hd) Hv σ Hσ. unfold own_entries.
  rewrite (extends_unchanged σ Hσ l o E). split; [done|].
  specialize (Hv l o eq_refl E).
  apply Forall_forall. intros kv Hin. split.
  - by apply (proj1 (Forall_forall _ _) Hd).
  - apply (Forall_fmap toLowerCase (fun t => R04.edge_token t = true)).
    by apply (proj1 (Forall_forall _ _) Hv).
Qed.

(** A builder that allocates its root first. *)
Lemma keeps_rooted (rest : Val → M Val) :
  (∀ root, fresh (length σ0) root →
           keeps strings σ0 (rest root) (fun r => r = root)) →
  match (alloc ≫= rest) σ0 with
  | Done root σ' => unchanged σ0 σ' ∧ root = VRef (length σ0)
  | Throw σ' => unchanged σ0 σ'
  | Beyond => False
  | OutOfFuel => True
  end.
Proof.
  intros Hb. unfold mbind, M_bind. unfold alloc at 1.
  destruct (keeps_alloc σ0 extends_refl) as [Hσ1 Hroot].
  unfold alloc in Hσ1, Hroot.
  specialize (Hb _ Hroot _ Hσ1).
  destruct (rest _ _) as [r σ'| σ'| |]; [|by apply extends_unchanged|done..].
  destruct Hb as [Hσ' ->]. split; [by apply extends_unchanged|done].
Qed.

Lemma keeps_normalizeTree fuel raw root :
  strings = false → old (length σ0) raw → fresh (length σ0) root →
  keeps strings σ0 (traverse fuel raw raw root ;; mret root) (fun r => r = root).
Proof.
  intros Hs Hraw Hr.
  eapply keeps_bind; [by apply keeps_traverse, fresh_node|].
  intros _ _. by apply keeps_ret.
Qed.

Lemma keeps_buildTreeFromR04 commandsR04 autocompleteTree :
  strings = true →
  typed_dictionary σ0 commandsR04 → valid_dictionary σ0 commandsR04 →
  fresh (length σ0) autocompleteTree →
  keeps strings σ0
    (entries ← own_entries commandsR04;
     for_each
       (fun '(cmdName, details) =>
          insert_command (split_ws (trim cmdName)) details autocompleteTree)
       entries ;;
     mret autocompleteTree)
    (fun r => r = autocompleteTree).
Proof.
  intros Hs Ht Hv Hr. eapply keeps_bind; [by apply keeps_own_entries|].
  intros entries He. eapply keeps_bind; [|intros _ _; by apply keeps_ret].
  eapply keeps_for_each; [exact He|].
  intros [cmdName details] [Hd Hp]. by apply keeps_insert_command, fresh_node.
Qed.

(** ** Fuel *)

Lemma fuel_free_ret {A} (a : A) : fuel_free (mret a : M A).
Proof. by intros σ. Qed.

Lemma fuel_free_bind {A B} (m : M A) (k : A → M B) :
  fuel_free m → (∀ a, fuel_free (k a)) → fuel_free (m ≫= k).
Proof.
  intros Hm Hk σ. unfold mbind, M_bind. specialize (Hm σ).
  destruct (m σ) as [a σ'| | |]; [apply Hk|done..].
Qed.

Lemma fuel_free_from_object_prototype self key :
  fuel_free (from_object_prototype self key).
Proof.
  intros σ. unfold from_object_prototype.
  by repeat (case_match; try done).
Qed.

Lemma fuel_free_past_builtins key : fuel_free (past_builtins key).
Proof.
  intros σ. unfold past_builtins.
  destruct (free_name key); [apply fuel_free_from_object_prototype|done].
Qed.

Lemma fuel_free_get v key : fuel_free (get_property v key).
Proof.
  intros σ. unfold get_property.
  pose proof (fuel_free_past_builtins key σ).
  pose proof (fuel_free_from_object_prototype true key σ).
  pose proof (fuel_free_from_object_prototype false key σ).
  by repeat (case_match; try done).
Qed.

Lemma fuel_free_set v key w : fuel_free (set_property v key w).
Proof. intros σ. unfold set_property. by repeat (case_match; try done). Qed.

Lemma fuel_free_for_in_keys v : fuel_free (for_in_keys v).
Proof. intros σ. unfold for_in_keys. by repeat (case_match; try done). Qed.

Lemma fuel_free_isArray v : fuel_free (isArray v).
Proof. intros σ. unfold isArray. by repeat (case_match; try done). Qed.

Lemma fuel_free_elements v : fuel_free (elements v).
Proof. intros σ. unfold elements. by repeat (case_match; try done). Qed.

Lemma fuel_free_own_entries v : fuel_free (own_entries v).
Proof. intros σ. unfold own_entries. by repeat (case_match; try done). Qed.

Lemma fuel_free_ensure_child temp name : fuel_free (ensure_child temp name).
Proof.
  apply fuel_free_bind; [apply fuel_free_get|]. intros v.
  destruct (truthy v); [apply fuel_free_ret|].
  apply fuel_free_bind; [done|]. intros o. apply fuel_free_set.
Qed.

Lemma fuel_free_for_each {A} (body : A → M unit) (l : list A) :
  (∀ x, fuel_free (body x)) → fuel_free (for_each body l).
Proof.
  intros Hb. induction l as [|x l IH]; simpl; [apply fuel_free_ret|].
  apply fuel_free_bind; [apply Hb|]. by intros _.
Qed.

Lemma fuel_free_insert_command parts details currentLevel :
  fuel_free (insert_command parts details currentLevel).
Proof.
  revert currentLevel. induction parts as [|p rest IH]; intros currentLevel.
  { apply fuel_free_ret. }
  simpl. apply fuel_free_bind; [apply fuel_free_ensure_child|]. intros _.
  apply fuel_free_bind; [apply fuel_free_get|]. intros next.
  destruct rest as [|q rest'].
  - apply fuel_free_bind; [apply fuel_free_get|]. intros d. apply fuel_free_set.
  - apply IH.
Qed.

Lemma fuel_free_buildTreeFromR04 commandsR04 :
  fuel_free (buildTreeFromR04 commandsR04).
Proof.
  apply fuel_free_bind; [done|]. intros tree.
  apply fuel_free_bind; [apply fuel_free_own_entries|].
  intros entries. apply fuel_free_bind; [|intros _; apply fuel_free_ret].
  apply fuel_free_for_each. intros [cmdName details].
  apply fuel_free_insert_command.
Qed.

Lemma within_fuel_free {A} (m : M A) : fuel_free m → within_fuel strings σ0 m.
Proof. intros H σ _. apply H. Qed.

Lemma within_bind {A B} (m : M A) (k : A → M B) (Q : A → Prop) :
  keeps strings σ0 m Q → within_fuel strings σ0 m →
  (∀ a, Q a → within_fuel strings σ0 (k a)) →
  within_fuel strings σ0 (m ≫= k).
Proof.
  intros Hm Hw Hk σ Hσ. specialize (Hm σ Hσ). specialize (Hw σ Hσ).
  unfold mbind, M_bind. destruct (m σ) as [a σ'| | |]; [|done..].
  destruct Hm as [Hσ' Ha]. by apply Hk.
Qed.

Lemma within_for_each {A} (body : A → M unit) (P : A → Prop) (l : list A) :
  Forall P l →
  (∀ x, P x → keeps strings σ0 (body x) (fun _ => True)
              ∧ within_fuel strings σ0 (body x)) →
  within_fuel strings σ0 (for_each body l).
Proof.
  intros Hl Hb. induction Hl as [|x l Hx _ IH]; simpl.
  { apply within_fuel_free, fuel_free_ret. }
  eapply within_bind; [by apply Hb|by apply Hb|]. by intros _ _.
Qed.

Lemma own_shallow fuel key ps :
  Forall (fun kv => is_object kv.2 = true → shallow σ0 fuel kv.2) ps →
  is_object (own key ps) = true → shallow σ0 fuel (own key ps).
Proof.
  induction 1 as [|[k v] ps Hv _ IH]; simpl; [done|].
  by destruct (String.eqb k key).
Qed.

(** The values read from a shallow raw dictionary are shallow. *)
Lemma keeps_get_shallow fuel currentRaw key :
  shallow σ0 (S fuel) currentRaw →
  old (length σ0) currentRaw → key ∈ own_names σ0 currentRaw →
  keeps strings σ0 (get_property currentRaw key)
    (fun v => old (length σ0) v ∧ (is_object v = true → shallow σ0 fuel v)).
Proof.
  intros Hs Ho Hk σ Hσ.
  pose proof (keeps_get_old currentRaw key Ho (or_introl Hk) σ Hσ) as Hold.
  unfold get_property in *.
  destruct currentRaw as [| | | |s|l];
    try (by apply elem_of_nil in Hk); try done.
  - rewrite (string_has_index s key Hk) in *.
    destruct Hold as [? ?]. split; [done|]. split; [done|].
    unfold string_own. destruct (String.eqb key "length"); [done|].
    destruct (List.find _ _) as [i|]; [|done]. by destruct (String.get i s).
  - simpl in Hs, Hk, Ho. rewrite (extends_old σ l Hσ Ho) in *.
    destruct (σ0 !! l) as [o|] eqn:E; [|done].
    destruct (is_array o && String.eqb key "length"); [done|].
    apply has_elem_of in Hk. rewrite Hk in *.
    destruct Hold as [? ?]. split; [done|]. split; [done|].
    by apply own_shallow.
Qed.

Lemma within_loop_parts fuel recurse currentRaw key parts temp :
  strings = false →
  (∀ nextLevel child,
     old (length σ0) nextLevel → node (length σ0) child →
     keeps strings σ0 (recurse nextLevel child) (fun _ => True)) →
  (∀ nextLevel child,
     old (length σ0) nextLevel → shallow σ0 fuel nextLevel →
     node (length σ0) child →
     within_fuel strings σ0 (recurse nextLevel child)) →
  shallow σ0 (S fuel) currentRaw →
  old (length σ0) currentRaw → key ∈ own_names σ0 currentRaw →
  Forall (fun part => Prototype.inherited part = false) parts →
  node (length σ0) temp →
  within_fuel strings σ0 (loop_parts recurse currentRaw key parts temp).
Proof.
  intros Hstr Hk Hw Hs Ho Hkey Hparts. revert temp.
  induction Hparts as [|part rest Hpart _ IH]; intros temp Ht.
  { apply within_fuel_free, fuel_free_ret. }
  assert (strings = true → part ≠ "_desc") as Hd by (by rewrite Hstr).
  simpl. eapply within_bind;
    [by apply keeps_ensure_child
    |apply within_fuel_free, fuel_free_ensure_child|].
  intros _ _. destruct rest as [|q rest'].
  - eapply within_bind;
      [by apply keeps_get_shallow|apply within_fuel_free, fuel_free_get|].
    intros nextLevel [Hold Hn].
    eapply within_bind;
      [apply keeps_isArray|apply within_fuel_free, fuel_free_isArray|].
    intros array _.
    destruct (is_object nextLevel) eqn:Eo; simpl;
      [|apply within_fuel_free, fuel_free_ret].
    destruct (negb array); [|apply within_fuel_free, fuel_free_ret].
    eapply within_bind;
      [by apply keeps_get_node|apply within_fuel_free, fuel_free_get|].
    intros child Hc. apply Hw; [done|by apply Hn|done].
  - eapply within_bind;
      [by apply keeps_get_node|apply within_fuel_free, fuel_free_get|].
    intros next Hnext. by apply IH.
Qed.

(** With fuel beyond the depth of the raw dictionary, [traverse] ends. *)
Lemma within_traverse fuel raw currentRaw currentRoot :
  strings = false →
  old (length σ0) raw → old (length σ0) currentRaw →
  shallow σ0 fuel currentRaw →
  node (length σ0) currentRoot →
  within_fuel strings σ0 (traverse fuel raw currentRaw currentRoot).
Proof.
  intros Hstr Hraw. revert currentRaw currentRoot.
  induction fuel as [|fuel IH]; intros currentRaw currentRoot Hc Hs Hr; [done|].
  cbn [traverse].
  eapply within_bind;
    [by apply keeps_for_in_keys
    |apply within_fuel_free, fuel_free_for_in_keys|].
  intros keys ->.
  assert (Forall (fun key => key ∈ own_names σ0 currentRaw ∧ plain_key key)
            (own_names σ0 currentRaw)) as Hkeys.
  { apply Forall_forall. intros key Hk. split; [done|].
    by apply (proj1 (Forall_forall _ _) (own_names_plain currentRaw Hc)). }
  assert (∀ key, key ∈ own_names σ0 currentRaw ∧ plain_key key →
            keeps strings σ0
              (if String.eqb key "_options" then mret tt
               else loop_parts (traverse fuel raw) currentRaw key
                      (split_ws (toLowerCase key)) currentRoot)
              (fun _ => True)) as Hbody.
  { intros key [Hk Hp].
    destruct (String.eqb key "_options"); [by apply keeps_ret|].
    apply keeps_loop_parts; try done.
    intros nextLevel child Hn Hch. by apply keeps_traverse. }
  eapply within_bind.
  { by apply (keeps_for_each _ _ _ Hkeys). }
  { apply (within_for_each _ _ _ Hkeys). intros key [Hk Hp].
    split; [by apply Hbody|].
    destruct (String.eqb key "_options");
      [apply within_fuel_free, fuel_free_ret|].
    eapply within_loop_parts; try done.
    intros nextLevel child Hn Hch. by apply keeps_traverse. }
  intros _ _.
  apply within_fuel_free.
  apply fuel_free_bind; [apply fuel_free_for_in_keys|]. intros keys'.
  apply fuel_free_bind; [by destruct (decide _)|]. intros _.
  apply fuel_free_bind; [apply fuel_free_get|]. intros options.
  apply fuel_free_bind; [apply fuel_free_isArray|]. intros array.
  destruct (truthy options && array); [|apply fuel_free_ret].
  apply fuel_free_bind; [apply fuel_free_elements|].
  intros opts. apply fuel_free_for_each. intros opt.
  destruct opt; simpl; try done. apply fuel_free_ensure_child.
Qed.

Lemma within_normalizeTree fuel raw :
  strings = false → old (length σ0) raw →
  shallow σ0 fuel raw → normalizeTree fuel raw σ0 ≠ OutOfFuel.
Proof.
  intros Hstr Hraw Hs. unfold normalizeTree, mbind, M_bind. unfold alloc at 1.
  destruct (keeps_alloc σ0 extends_refl) as [Hσ1 Hroot].
  unfold alloc in Hσ1, Hroot.
  pose proof (within_traverse fuel raw raw _ Hstr Hraw Hraw Hs
                (fresh_node _ _ Hroot) _ Hσ1) as Hw.
  by destruct (traverse fuel raw raw _ _).
Qed.

End Frame.

(** C10.  The specification has the builders write to the nodes they
    create and to nothing else.
    - A token that names a property every object inherits breaks it:
      under [__proto__] the loops of both builders step into
      [Object.prototype], an object that exists before the call, and
      write there.  [buildTreeFromR04] on
      [{ "__proto__ b": { description: "D" } }] leaves the tree empty and
      [Object.prototype] with a property [b]; [normalizeTree] on
      [{ "zz": 1, "__proto__ zz": 2 }] adds [zz] to [Object.prototype].
    - Otherwise it is so.  In a store that starts, for a raw
      dictionary of the store whose keys and options are plain,
      [normalizeTree] leaves every object that exists when it starts as
      it is, the raw dictionary with all the objects below it included:
      what it writes, it writes to objects allocated during the call, the
      first of which is the root of the tree.  This holds when the call
      completes and when it raises an error, and the call stays within
      what the store describes.  The same for [buildTreeFromR04] and a
      dictionary of valid command strings that has its declared type;
      that call never runs out of fuel. *)
Theorem construction_leaves_raw_unchanged :
  Store.buildTreeFromR04 (Store.VRef 2) Store.polluting_example
  = Store.Done (Store.VRef 4)
      [ Store.mkObject false [ ("b", Store.VRef 5) ];
        Store.mkObject false [];
        Store.mkObject false [ ("__proto__ b", Store.VRef 3) ];
        Store.mkObject false [ ("description", Store.VString "D") ];
        Store.mkObject false [];
        Store.mkObject false [ ("_desc", Store.VString "D") ] ]
  ∧ Store.normalizeTree 1 (Store.VRef 2) Store.polluting_nested_example
    = Store.Done (Store.VRef 3)
        [ Store.mkObject false [ ("zz", Store.VRef 5) ];
          Store.mkObject false [];
          Store.mkObject false
            [ ("zz", Store.VNumber 1); ("__proto__ zz", Store.VNumber 2) ];
          Store.mkObject false [ ("zz", Store.VRef 4) ];
          Store.mkObject false [];
          Store.mkObject false [] ]
  ∧ ∀ σ : list Store.Object,
      Store.realm σ →
      (∀ fuel raw,
         Store.closed σ → Store.plain σ → Store.old (length σ) raw →
         match Store.normalizeTree fuel raw σ with
         | Store.Done root σ' =>
             Store.unchanged σ σ' ∧ Store.same_document σ σ' raw
             ∧ root = Store.VRef (length σ)
         | Store.Throw σ' =>
             Store.unchanged σ σ' ∧ Store.same_document σ σ' raw
         | Store.Beyond => False
         | Store.OutOfFuel => ¬ Store.shallow σ fuel raw
         end)
      ∧ (∀ commandsR04,
           Store.typed_dictionary σ commandsR04 →
           Store.valid_dictionary σ commandsR04 →
           match Store.buildTreeFromR04 commandsR04 σ with
           | Store.Done tree σ' =>
               Store.unchanged σ σ' ∧ Store.same_document σ σ' commandsR04
               ∧ tree = Store.VRef (length σ)
           | Store.Throw σ' =>
               Store.unchanged σ σ' ∧ Store.same_document σ σ' commandsR04
           | Store.Beyond | Store.OutOfFuel => False
           end).
Proof.
  split; [vm_compute; reflexivity|]. split; [vm_compute; reflexivity|].
  intros σ Hrealm.
  assert (∀ σ' v, Store.unchanged σ σ' → Store.same_document σ σ' v) as Hdoc.
  { intros σ' v Hu fuel j. by apply read_json_unchanged. }
  split.
  - intros fuel raw Hclosed Hplain Hraw.
    pose proof (keeps_rooted false σ _
      (fun root Hroot =>
         keeps_normalizeTree false σ Hrealm Hclosed Hplain fuel raw root
           eq_refl Hraw Hroot)) as H.
    pose proof (within_normalizeTree false σ Hrealm Hclosed Hplain fuel raw
                  eq_refl Hraw) as Hfuel.
    change (match Store.normalizeTree fuel raw σ with
            | Store.Done root σ' =>
                Store.unchanged σ σ' ∧ root = Store.VRef (length σ)
            | Store.Throw σ' => Store.unchanged σ σ'
            | Store.Beyond => False
            | Store.OutOfFuel => True
            end) in H.
    destruct (Store.normalizeTree fuel raw σ) as [root σ'|σ'| |].
    + destruct H as [Hu ->]. auto.
    + auto.
    + done.
    + intros Hs. by apply Hfuel.
  - intros commandsR04 Ht Hv.
    pose proof (fuel_free_buildTreeFromR04 commandsR04 σ) as Hfuel.
    pose proof (keeps_rooted true σ _
      (fun root Hroot =>
         keeps_buildTreeFromR04 true σ Hrealm commandsR04 root
           eq_refl Ht Hv Hroot)) as H.
    change (match Store.buildTreeFromR04 commandsR04 σ with
            | Store.Done root σ' =>
                Store.unchanged σ σ' ∧ root = Store.VRef (length σ)
            | Store.Throw σ' => Store.unchanged σ σ'
            | Store.Beyond => False
            | Store.OutOfFuel => True
            end) in H.
    destruct (Store.buildTreeFromR04 commandsR04 σ) as [root σ'|σ'| |].
    + destruct H as [Hu ->]. auto.
    + auto.
    + done.
    + done.
Qed.

Lemma construction_leaves_raw_unchanged_witness :
  match Store.buildTreeFromR04 (Store.VRef 2) Store.flat_example with
  | Store.Done tree σ' =>
      Store.unchanged Store.flat_example σ'
      ∧ Store.same_document Store.flat_example σ' (Store.VRef 2)
      ∧ tree = Store.VRef 5
  | Store.Throw σ' =>
      Store.unchanged Store.flat_example σ'
      ∧ Store.same_document Store.flat_example σ' (Store.VRef 2)
  | Store.Beyond | Store.OutOfFuel => False
  end
  ∧ match Store.normalizeTree 3 (Store.VRef 2) Store.nested_example with
    | Store.Done root σ' =>
        Store.unchanged Store.nested_example σ'
        ∧ Store.same_document Store.nested_example σ' (Store.VRef 2)
        ∧ root = Store.VRef 6
    | Store.Throw σ' =>
        Store.unchanged Store.nested_example σ'
        ∧ Store.same_document Store.nested_example σ' (Store.VRef 2)
    | Store.Beyond => False
    | Store.OutOfFuel =>
        ¬ Store.shallow Store.nested_example 3 (Store.VRef 2)
    end.
Proof.
  split.
  - apply (proj2 (proj2 (proj2 construction_leaves_raw_unchanged)
                    Store.flat_example (conj eq_refl eq_refl))).
    + eexists 2, _. split; [reflexivity|]. split; [reflexivity|]. simpl.
      repeat constructor; eexists _, _, _; repeat split; reflexivity.
    + intros l o [= <-] [= <-]. vm_compute. by repeat constructor.
  - apply (proj1 (proj2 (proj2 construction_leaves_raw_unchanged)
                    Store.nested_example (conj eq_refl eq_refl))).
    + intros l o Hl.
      do 6 (destruct l as [|l];
            [injection Hl as <-; simpl; repeat constructor; simpl; lia|]).
      done.
    + intros l o Hl.
      do 6 (destruct l as [|l];
            [injection Hl as <-; vm_compute; by repeat constructor|]).
      done.
    + simpl. lia.
Defined.

(** On these stores the builders end, and the trees they leave in the
    store are the ones of [Main.normalizeTree] and [R04.buildTreeFromR04]
    on the dictionaries read from the store. *)
Example store_runs_agree :
  Store.read_json 3 Store.nested_example (Store.VRef 2)
  = Some (Main.JObj
            [ ("_options", Main.JArr [ Main.JStr "Detail" ]);
              ("Show IP",
               Main.JObj
                 [ ("isis", Main.JNull); ("Interface", Main.JObj []) ]) ])
  ∧
  match Store.normalizeTree 3 (Store.VRef 2) Store.nested_example with
  | Store.Done root σ' => Store.read_node 5 σ' root
  | _ => None
  end
  = Main.normalizeTree
      [ ("_options", Main.JArr [ Main.JStr "Detail" ]);
        ("Show IP",
         Main.JObj [ ("isis", Main.JNull); ("Interface", Main.JObj []) ]) ]
  ∧ match Store.buildTreeFromR04 (Store.VRef 2) Store.flat_example with
    | Store.Done tree σ' => Store.read_value 5 σ' tree
    | _ => None
    end
    = R04.Obj <$> R04.buildTreeFromR04 Spec.scenario_commands.
Proof. repeat split; vm_compute; reflexivity. Qed.

(** On the dictionary whose second command walks through [_desc] below
    the node of the first, the store run raises [TypeError] where
    [R04.buildTreeFromR04] answers [None]: the walk stands on the string
    "D" and tries to create the property "b" on it.  The dictionary is
    left as it was. *)
Example store_run_raises :
  Store.buildTreeFromR04 (Store.VRef 2) Store.clash_example
  = Store.Throw
      (Store.clash_example ++
       [ Store.mkObject false [ ("a", Store.VRef 6) ];
         Store.mkObject false [ ("_desc", Store.VString "D") ];
         Store.mkObject false [] ])%list
  ∧ R04.buildTreeFromR04
      [ ("a", Spec.detail "a" "D"); ("a _desc b", Spec.detail "a _desc b" "E") ]
    = None.
Proof. split; vm_compute; reflexivity. Qed.

(** Where the builders leave the tree, [Main.normalizeTree] and
    [R04.buildTreeFromR04] answer [None]; an option that names an
    inherited property adds nothing. *)
Example builders_leave_the_tree :
  R04.buildTreeFromR04 [ ("__proto__ b", Spec.detail "__proto__ b" "D") ] = None
  ∧ Main.normalizeTree [ ("zz", Main.JNum 1); ("__proto__ zz", Main.JNum 2) ]
    = None
  ∧ Main.normalizeTree
      [ ("constructor", Main.JObj [ ("x", Main.JObj []) ]);
        ("show", Main.JObj []) ] = None
  ∧ Main.normalizeTree [ ("_options", Main.JArr [ Main.JStr "constructor" ]) ]
    = Some Main.empty_node.
Proof. repeat split; vm_compute; reflexivity. Qed.

(* ===================================================================== *)
(** * Words and token boundaries *)
(* ===================================================================== *)

Section WordsFacts.

Import Words.

Lemma boundary_cons c r :
  boundary (String c r)
  = match r with EmptyString => is_space c | _ => boundary r end.
Proof. by destruct r. Qed.

Lemma boundary_no_space s :
  boundary s = true → truthy s = true → no_space s = false.
Proof.
  induction s as [|c s IH]; [done|]. rewrite boundary_cons. intros Hb _.
  cbn [no_space]. destruct s as [|d s].
  - by rewrite Hb.
  - rewrite IH; [apply andb_false_r|done..].
Qed.

(** What [match_tail] finds: the text is a part ending at a boundary
    followed by the match, which is a non-empty run without whitespace. *)
Lemma match_tail_Some i s j m :
  match_tail i s = Some (j, m) →
  ∃ pre, s = pre ++ m ∧ j = i + String.length pre ∧ boundary pre = true
         ∧ no_space m = true ∧ truthy m = true.
Proof.
  revert i. induction s as [|c s IH]; intros i; [done|].
  cbn [match_tail]. destruct (no_space (String c s)) eqn:E.
  - intros [= <- <-]. exists EmptyString. simpl. repeat split; [lia|done].
  - intros H. destruct (IH _ H) as (pre & -> & -> & Hb & Hm & Ht).
    exists (String c pre). rewrite append_cons. simpl String.length.
    repeat split; [lia| |done..].
    rewrite boundary_cons. destruct pre as [|d pre]; [|done].
    change (EmptyString ++ m) with m in E. cbn [no_space] in E.
    rewrite Hm, andb_true_r in E. by destruct (is_space c).
Qed.

Lemma match_tail_None i s : match_tail i s = None ↔ boundary s = true.
Proof.
  revert i. induction s as [|c s IH]; intros i; [done|].
  cbn [match_tail]. rewrite boundary_cons. split.
  - destruct (no_space (String c s)) eqn:E; [done|]. intros H.
    apply IH in H. destruct s as [|d s]; [|done].
    simpl in E. by destruct (is_space c).
  - intros Hb. destruct s as [|d s].
    + simpl. by rewrite Hb.
    + change (no_space (String c (String d s)))
        with (negb (is_space c) && no_space (String d s)).
      rewrite (boundary_no_space (String d s)) by done.
      rewrite andb_false_r. by apply IH.
Qed.

Lemma filter_split_from b s :
  filter (λ t, truthy t) (split_from b s) = words s.
Proof.
  unfold words, split_ws. destruct b; [|done].
  destruct s as [|c s]; [done|]. simpl. by destruct (is_space c).
Qed.

Lemma words_cons_space c r : is_space c = true → words (String c r) = words r.
Proof.
  intros Hc. rewrite <- (filter_split_from true r).
  unfold words, split_ws. simpl. by rewrite Hc.
Qed.

Lemma words_all_space s : all_space s = true → words s = [].
Proof.
  induction s as [|c s IH]; [done|]. simpl. intros [Hc Hs]%andb_true_iff.
  rewrite words_cons_space by done. by apply IH.
Qed.

Lemma words_trimStart s : words (trimStart s) = words s.
Proof.
  induction s as [|c s IH]; [done|]. simpl.
  destruct (is_space c) eqn:E; [|done]. by rewrite words_cons_space.
Qed.

Lemma split_from_false_single s :
  split_from false s = [EmptyString] → s = EmptyString.
Proof.
  destruct s as [|c s]; [done|]. simpl. destruct (is_space c).
  - intros [= H]. by apply split_from_nonempty in H.
  - by destruct (split_from false s).
Qed.

Lemma split_from_cons inws c r :
  split_from inws (String c r)
  = if is_space c then
      if inws then split_from true r else EmptyString :: split_from true r
    else
      match split_from false r with
      | t :: ts => String c t :: ts
      | [] => [String c EmptyString]
      end.
Proof. done. Qed.

(** Splitting a text that ends with whitespace, followed by more. *)
Lemma split_from_boundary a :
  truthy a = true → boundary a = true →
  ∀ inws, ∃ xs,
    split_from inws a = (xs ++ [EmptyString])%list
    ∧ ∀ b, split_from inws (a ++ b) = (xs ++ split_from true b)%list.
Proof.
  induction a as [|c a IH]; [done|]. intros _. rewrite boundary_cons.
  destruct a as [|d a].
  - intros Hc inws. destruct inws.
    + exists []. simpl. rewrite Hc. done.
    + exists [EmptyString]. simpl. rewrite Hc. done.
  - intros Hb inws. specialize (IH eq_refl Hb).
    destruct (is_space c) eqn:Ec.
    + destruct (IH true) as (xs & E1 & E2). destruct inws.
      * exists xs. split; [by rewrite split_from_cons, Ec|].
        intros b. rewrite append_cons, split_from_cons, Ec. apply E2.
      * exists (EmptyString :: xs).
        split; [by rewrite split_from_cons, Ec, E1|].
        intros b. rewrite append_cons, split_from_cons, Ec.
        simpl. f_equal. apply E2.
    + destruct (IH false) as (xs & E1 & E2). destruct xs as [|x xs].
      { by apply split_from_false_single in E1. }
      exists (String c x :: xs). split.
      * rewrite split_from_cons, Ec, E1. done.
      * intros b. rewrite append_cons, split_from_cons, Ec, E2. done.
Qed.

Lemma words_app_boundary a b :
  boundary a = true → words (a ++ b) = (words a ++ words b)%list.
Proof.
  intros Hb. destruct (truthy a) eqn:Ht; [|by destruct a].
  destruct (split_from_boundary a Ht Hb false) as (xs & E1 & E2).
  unfold words at 1 2, split_ws. rewrite E1, E2, !filter_app.
  rewrite filter_split_from. f_equal. simpl. by rewrite app_nil_r.
Qed.

Lemma split_from_all_space w :
  all_space w = true →
  ∀ inws, ∃ ts, split_from inws w = EmptyString :: ts
                ∧ filter (λ t, truthy t) ts = [].
Proof.
  induction w as [|c w IH]; intros Hw inws.
  { exists []. done. }
  simpl in Hw. apply andb_true_iff in Hw as [Hc Hw].
  destruct (IH Hw true) as (ts & E & F). cbn [split_from]. rewrite Hc.
  destruct inws; [eauto|]. exists (EmptyString :: ts). rewrite E. done.
Qed.

(** Whitespace at the end adds no word and changes no word. *)
Lemma split_from_app_all_space w a :
  all_space w = true →
  ∀ inws, ∃ t ts ts',
    split_from inws a = t :: ts ∧ split_from inws (a ++ w) = t :: ts'
    ∧ filter (λ t, truthy t) ts = filter (λ t, truthy t) ts'.
Proof.
  intros Hw. induction a as [|c a IH]; intros inws.
  - destruct (split_from_all_space w Hw inws) as (ts & E & F).
    exists EmptyString, [], ts. done.
  - rewrite append_cons, !split_from_cons. destruct (is_space c) eqn:Ec.
    + destruct inws; [apply IH|].
      destruct (IH true) as (t & ts & ts' & E1 & E2 & F).
      exists EmptyString, (t :: ts), (t :: ts'). rewrite E1, E2.
      repeat split. rewrite !filter_cons, F. done.
    + destruct (IH false) as (t & ts & ts' & E1 & E2 & F).
      exists (String c t), ts, ts'. rewrite E1, E2. done.
Qed.

Lemma words_app_all_space a w : all_space w = true → words (a ++ w) = words a.
Proof.
  intros Hw.
  destruct (split_from_app_all_space w a Hw false) as (t & ts & ts' & E1 & E2 & F).
  unfold words, split_ws. rewrite E1, E2, !filter_cons, F. done.
Qed.

Lemma trimEnd_app s : ∃ w, s = trimEnd s ++ w ∧ all_space w = true.
Proof.
  induction s as [|c s IH]; [by exists EmptyString|].
  cbn [trimEnd]. destruct (all_space (String c s)) eqn:E.
  - by exists (String c s).
  - destruct IH as (w & Hs & Hw). exists w. rewrite append_cons, <- Hs. done.
Qed.

Lemma words_trimEnd s : words (trimEnd s) = words s.
Proof.
  destruct (trimEnd_app s) as (w & Hs & Hw).
  rewrite Hs at 2. by rewrite words_app_all_space.
Qed.

Lemma words_trim s : words (trim s) = words s.
Proof. unfold trim. by rewrite words_trimEnd, words_trimStart. Qed.

Lemma words_no_space v :
  no_space v = true → truthy v = true → words v = [v].
Proof.
  intros Hv Ht. unfold words, split_ws.
  assert (split_from false v = [v]) as ->.
  { clear Ht. induction v as [|c v IH]; [done|]. simpl in *.
    apply andb_true_iff in Hv as [Hc Hv]. apply negb_true_iff in Hc.
    rewrite Hc, IH; done. }
  rewrite filter_cons, Ht. done.
Qed.

(** Once trimmed, a text that is not blank splits into its words. *)
Lemma split_ws_trim_words s :
  trim s ≠ EmptyString → split_ws (trim s) = words s.
Proof.
  intros Hne. rewrite <- words_trim. unfold words.
  pose proof (split_ws_trim_nonempty s Hne) as Hall.
  induction Hall as [|t ts Ht _ IH]; [done|].
  rewrite filter_cons. destruct t; [done|]. simpl. by rewrite <- IH.
Qed.

(** The completed tokens are the words before the span, in lower
    case. *)
Lemma completed_tokens_words line start :
  Spec.completed_tokens line start
  = toLowerCase <$> words (substring 0 start line).
Proof.
  unfold Spec.completed_tokens.
  destruct (String.eqb_spec (trim (substring 0 start line)) EmptyString) as [E|E].
  - by rewrite <- words_trim, E.
  - by rewrite split_ws_trim_words.
Qed.

Lemma truthy_app a b : truthy (a ++ b) = truthy a || truthy b.
Proof. by destruct a. Qed.

Lemma all_space_app a b : all_space (a ++ b) = all_space a && all_space b.
Proof.
  induction a as [|c a IH]; [done|]. rewrite append_cons. simpl.
  by rewrite IH, andb_assoc.
Qed.

Lemma no_space_all_space v :
  no_space v = true → truthy v = true → all_space v = false.
Proof. destruct v as [|c v]; [done|]. simpl. by destruct (is_space c). Qed.

Lemma boundary_app a b :
  truthy b = true → boundary (a ++ b) = boundary b.
Proof.
  intros Hb. induction a as [|c a IH]; [done|].
  rewrite append_cons, boundary_cons.
  destruct (a ++ b) eqn:E; [|by rewrite <- IH].
  destruct a; [|done]. change (b = EmptyString) in E. by subst.
Qed.

End WordsFacts.

(* ===================================================================== *)
(** * The span of the trigger *)
(* ===================================================================== *)

Section Span.

Import Words.

Lemma substring_0_substring (n m : nat) (s : string) :
  (n ≤ m)%nat → substring 0 n (substring 0 m s) = substring 0 n s.
Proof.
  revert n m. induction s as [|c s IH]; intros [|n] [|m] H; simpl; try done.
  - lia.
  - rewrite IH; [done|lia].
Qed.

(** The two outcomes of a trigger, in both variants. *)
Lemma onTrigger_cases line ch c :
  Main.onTrigger line ch = Some c ∨ R04.onTrigger line ch = Some c →
  (∃ j m, match_tail 0 (substring 0 ch line) = Some (j, m)
          ∧ c = mkTrigger j ch m)
  ∨ (match_tail 0 (substring 0 ch line) = None
     ∧ c = mkTrigger ch ch EmptyString).
Proof.
  unfold Main.onTrigger, R04.onTrigger.
  intros [H|H];
    (destruct (truthy _); [|done]);
    destruct (match_tail 0 _) as [[j m]|]; injection H as <-; eauto.
Qed.

Lemma onTrigger_span line ch c :
  (ch ≤ String.length line)%nat →
  Main.onTrigger line ch = Some c ∨ R04.onTrigger line ch = Some c →
  end_ c = ch
  ∧ start c + String.length (query c) = ch
  ∧ substring 0 ch line = substring 0 (start c) line ++ query c
  ∧ no_space (query c) = true
  ∧ boundary (substring 0 (start c) line) = true.
Proof.
  intros Hch H.
  pose proof (substring_0_length line ch Hch) as Hlen.
  destruct (onTrigger_cases _ _ _ H) as [(j & m & Hm & ->)|[Hm ->]]; simpl.
  - destruct (match_tail_Some _ _ _ _ Hm) as (pre & E & -> & Hb & Hn & _).
    rewrite E, string_app_length in Hlen. simpl.
    assert (substring 0 (String.length pre) line = pre) as Hpre.
    { rewrite <- (substring_0_substring _ ch) by lia. rewrite E.
      rewrite <- (Nat.add_0_r (String.length pre)) at 1.
      by rewrite substring_0_app, substring_0_0, string_app_empty_r. }
    rewrite Hpre. done.
  - rewrite string_app_empty_r. repeat split; [lia|].
    by apply (match_tail_None 0).
Qed.

Lemma spliced_prefix line value from to :
  (from ≤ String.length line)%nat →
  substring 0 (from + String.length value + 1)
    (spliced line (value ++ " ") from to)
  = substring 0 from line ++ value ++ " ".
Proof.
  intros Hs. unfold spliced.
  pose proof (substring_0_length line from Hs) as Hl.
  rewrite <- Hl at 1. rewrite <- Nat.add_assoc, substring_0_app.
  f_equal.
  replace (String.length value + 1) with (String.length (value ++ " ") + 0).
  - by rewrite substring_0_app, substring_0_0, string_app_empty_r.
  - rewrite string_app_length. simpl. lia.
Qed.

Lemma main_filter_query (q : string) (l : list string) :
  (if truthy q then filter (λ s, startsWith s q) l else l)
  = filter (λ s, startsWith s q) l.
Proof.
  destruct q as [|c q]; [|done]. simpl. symmetry.
  induction l as [|x l IH]; [done|].
  rewrite filter_cons. unfold startsWith at 1.
  destruct x; simpl; by rewrite IH.
Qed.

End Span.

(* ===================================================================== *)
(** * The suggestions as a set *)
(* ===================================================================== *)

Section Offered.

#[local] Existing Instance str_le_trans.
#[local] Existing Instance str_le_total.

Lemma str_le_antisym a b : str_le a b → str_le b a → a = b.
Proof.
  rewrite !str_le_compare. rewrite (String.compare_antisym b a).
  destruct (String.compare a b) eqn:E; simpl; try done.
  intros _ _. by apply String.compare_eq_iff.
Qed.

Lemma elem_of_sort (x : string) l : x ∈ sort l ↔ x ∈ l.
Proof. unfold sort. by rewrite merge_sort_Permutation. Qed.

(** Two lists without repetition that hold the same strings are sorted
    into the same list. *)
Lemma sort_unique (l1 l2 : list string) :
  NoDup l1 → NoDup l2 → (∀ x, x ∈ l1 ↔ x ∈ l2) → sort l1 = sort l2.
Proof.
  intros H1 H2 H.
  apply (StronglySorted_unique_strong str_le).
  - intros x1 x2 _ _. apply str_le_antisym.
  - apply StronglySorted_merge_sort; apply _.
  - apply StronglySorted_merge_sort; apply _.
  - unfold sort. rewrite !merge_sort_Permutation. by apply NoDup_Permutation.
Qed.

Lemma StronglySorted_filter (P : string → Prop) `{!∀ x, Decision (P x)} l :
  StronglySorted str_le l → StronglySorted str_le (filter P l).
Proof.
  induction 1 as [|x l Hs IH Hx]; [constructor|].
  rewrite filter_cons. case_decide; [|done].
  constructor; [done|]. apply Forall_forall. intros y [_ Hy]%list_elem_of_filter.
  by eapply Forall_forall in Hx.
Qed.

(** Filtering a sorted list, or sorting the filtered list. *)
Lemma filter_sort (P : string → Prop) `{!∀ x, Decision (P x)} l :
  filter P (sort l) = sort (filter P l).
Proof.
  apply (StronglySorted_unique_strong str_le).
  - intros x1 x2 _ _. apply str_le_antisym.
  - apply StronglySorted_filter, StronglySorted_merge_sort; apply _.
  - apply StronglySorted_merge_sort; apply _.
  - unfold sort. by rewrite !merge_sort_Permutation.
Qed.

Lemma startsWith_app (s q : string) :
  startsWith s q = true ↔ ∃ r, s = q ++ r.
Proof.
  unfold startsWith. revert s. induction q as [|c q IH]; intros s.
  - destruct s; simpl; split; eauto.
  - destruct s as [|d s]; simpl.
    + split; [done|]. by intros [r ?].
    + destruct (ascii_dec c d) as [->|Hne].
      * rewrite IH. split; intros [r Hr]; exists r.
        -- by rewrite append_cons, Hr.
        -- rewrite append_cons in Hr. by injection Hr.
      * split; [done|]. intros [r Hr]. rewrite append_cons in Hr.
        by injection Hr as -> _.
Qed.

Lemma startsWith_trans (s q p : string) :
  startsWith s q = true → startsWith q p = true → startsWith s p = true.
Proof.
  rewrite !startsWith_app. intros [r ->] [r' ->].
  exists (r' ++ r). by rewrite string_app_assoc.
Qed.

Lemma startsWith_toLowerCase (q p : string) :
  startsWith q p = true →
  startsWith (toLowerCase q) (toLowerCase p) = true.
Proof.
  rewrite !startsWith_app. intros [r ->].
  exists (toLowerCase r). by rewrite toLowerCase_app.
Qed.

Lemma main_reaches_resolve data tokens n :
  Main.resolve data tokens = Some n → Main.reaches data tokens n.
Proof.
  revert data. induction tokens as [|t ts IH]; intros data; simpl.
  - intros [= <-]. constructor.
  - destruct (Main.children data !! t) as [next|] eqn:E; [|done].
    intros H. econstructor; eauto.
Qed.

Lemma main_reaches_snoc data tokens t :
  (∃ child, Main.reaches data (tokens ++ [t])%list child)
  ↔ ∃ n, Main.reaches data tokens n ∧ is_Some (Main.children n !! t).
Proof.
  revert data. induction tokens as [|x ts IH]; intros data; simpl.
  - split.
    + intros [child Hr]. inversion Hr; subst. exists data.
      split; [constructor|eauto].
    + intros (n & Hr & [c Hc]). inversion Hr; subst.
      exists c. econstructor; [done|constructor].
  - split.
    + intros [child Hr]. inversion Hr as [|? ? c0 ? ? Hx Hr0]; subst.
      destruct (proj1 (IH c0) (ex_intro _ child Hr0)) as (n & Hn & Hc).
      exists n. split; [econstructor; eauto|done].
    + intros (n & Hr & Hc). inversion Hr as [|? ? c0 ? ? Hx Hr0]; subst.
      destruct (proj2 (IH c0)) as [child Hchild]; [eauto|].
      exists child. econstructor; eauto.
Qed.

Lemma main_elem_of_keys n t : t ∈ Main.keys n ↔ is_Some (Main.children n !! t).
Proof.
  unfold Main.keys. rewrite list_elem_of_fmap. split.
  - intros ([k v] & -> & Hin). apply elem_of_map_to_list in Hin. eauto.
  - intros [v Hv]. exists (t, v). split; [done|].
    by apply elem_of_map_to_list.
Qed.

Lemma r04_elem_of_keys (n : gmap string R04.Value) t :
  t ∈ R04.keys n ↔ is_Some (n !! t).
Proof.
  unfold R04.keys. rewrite list_elem_of_fmap. split.
  - intros ([k v] & -> & Hin). apply elem_of_map_to_list in Hin. eauto.
  - intros [v Hv]. exists (t, v). split; [done|].
    by apply elem_of_map_to_list.
Qed.

(** What the nested variant offers: the labels of the edges that
    continue the path of the completed tokens and start with the query
    in lower case. *)
Lemma main_offered data line context t :
  t ∈ Main.getSuggestions data line context
  ↔ startsWith t (toLowerCase (query context)) = true
    ∧ ∃ child,
        Main.reaches data
          (Spec.completed_tokens line (start context) ++ [t])%list child.
Proof.
  unfold Main.getSuggestions. rewrite main_tokens, main_reaches_snoc.
  destruct (Main.resolve data _) as [cur|] eqn:E.
  - rewrite main_filter_query.
    rewrite elem_of_sort, list_elem_of_filter, main_elem_of_keys.
    rewrite Is_true_true. apply main_reaches_resolve in E. split.
    + intros [Hq Hc]. eauto.
    + intros (Hq & n & Hr & Hc). split; [done|].
      apply main_resolve_reaches in Hr, E. congruence.
  - split; [by intros ?%elem_of_nil|].
    intros (_ & n & Hr & _). apply main_resolve_reaches in Hr. congruence.
Qed.

Lemma r04_reaches_resolve data tokens n :
  R04.resolve data tokens = Some n ↔ R04.reaches data (toLowerCase <$> tokens) n.
Proof.
  revert data. induction tokens as [|t ts IH]; intros data; simpl.
  - split.
    + intros [= <-]. constructor.
    + intros H. by inversion H.
  - split.
    + destruct (data !! toLowerCase t) as [[s|next]|] eqn:E; try done.
      intros H. econstructor; [done|]. by apply IH.
    + intros H. inversion H as [|? ? c0 ? ? Hx Hr0]; subst.
      rewrite Hx. by apply IH.
Qed.

Lemma r04_reaches_snoc (data : gmap string R04.Value) tokens t :
  (∃ child, R04.reaches data (tokens ++ [t])%list child)
  ↔ ∃ (n child : gmap string R04.Value),
      R04.reaches data tokens n ∧ n !! t = Some (R04.Obj child).
Proof.
  revert data. induction tokens as [|x ts IH]; intros data; simpl.
  - split.
    + intros [child Hr]. inversion Hr as [|? ? c0 ? ? Hx Hr0]; subst.
      exists data, c0. split; [constructor|done].
    + intros (n & c & Hr & Hc). inversion Hr; subst.
      exists c. econstructor; [done|constructor].
  - split.
    + intros [child Hr]. inversion Hr as [|? ? c0 ? ? Hx Hr0]; subst.
      destruct (proj1 (IH c0) (ex_intro _ child Hr0)) as (n & c & Hn & Hc).
      exists n, c. split; [econstructor; eauto|done].
    + intros (n & c & Hr & Hc). inversion Hr as [|? ? c0 ? ? Hx Hr0]; subst.
      destruct (proj2 (IH c0)) as [child Hchild]; [eauto|].
      exists child. econstructor; eauto.
Qed.

Lemma r04_reaches_typed (data : gmap string R04.Value) tokens n :
  R04.typed data → R04.reaches data tokens n → R04.typed n.
Proof.
  intros Ht Hr. induction Hr as [|n0 t c ts n' Hc Hr IH]; [done|].
  apply IH. apply r04_typed_unfold in Ht as [_ H2]. by eapply H2.
Qed.

Lemma r04_completed_resolve data line start :
  R04.resolve data
    (if Nat.ltb 0 (String.length (trim (substring 0 start line)))
     then split_ws (trim (substring 0 start line)) else [])
  = R04.resolve data (Spec.completed_tokens line start).
Proof. by rewrite <- r04_tokens, r04_resolve_lower. Qed.

Lemma completed_tokens_lower line start :
  toLowerCase <$> Spec.completed_tokens line start
  = Spec.completed_tokens line start.
Proof.
  rewrite <- r04_tokens, <- list_fmap_compose.
  apply list_fmap_ext. intros _ x _. simpl. apply toLowerCase_idemp.
Qed.

(** What the flat variant offers from a well-shaped tree. *)
Lemma r04_offered (data : gmap string R04.Value) line context t :
  R04.typed data →
  t ∈ R04.getSuggestions data line context
  ↔ startsWith t (toLowerCase (query context)) = true
    ∧ ∃ child,
        R04.reaches data
          (Spec.completed_tokens line (start context) ++ [t])%list child.
Proof.
  intros Ht. unfold R04.getSuggestions.
  rewrite r04_completed_resolve, r04_reaches_snoc.
  destruct (R04.resolve data _) as [cur|] eqn:E.
  - rewrite elem_of_sort, list_elem_of_filter, r04_elem_of_keys.
    apply r04_reaches_resolve in E. rewrite completed_tokens_lower in E.
    pose proof (r04_reaches_typed _ _ _ Ht E) as [H1 _]%r04_typed_unfold.
    rewrite andb_True, negb_True, !Is_true_true, String.eqb_eq. split.
    + intros [[Hd Hq] [v Hv]]. split; [done|].
      destruct v as [s|c]; [|eauto].
      destruct Hd. apply (H1 _ _ Hv). eauto.
    + intros (Hq & n & c & Hr & Hc).
      assert (n = cur) as ->.
      { rewrite <- completed_tokens_lower in Hr, E.
        apply r04_reaches_resolve in Hr, E. congruence. }
      split; [|eauto]. split; [|done].
      intros ->. destruct (proj1 (H1 _ _ Hc) eq_refl) as [s ?]. done.
  - split; [by intros ?%elem_of_nil|].
    intros (_ & n & c & Hr & _). rewrite <- completed_tokens_lower in Hr.
    apply r04_reaches_resolve in Hr. congruence.
Qed.

End Offered.

(* ===================================================================== *)
(** * The flat variant: the tree holds the dictionary and nothing else *)
(* ===================================================================== *)

Section R04Paths.

Implicit Types (n cur child tree : gmap string R04.Value).

Lemma r04_reaches_empty tokens n :
  R04.reaches ∅ tokens n → tokens = [] ∧ n = ∅.
Proof. intros H. inversion H as [|? ? ? ? ? Hx]; subst; [done|]. done. Qed.

Lemma r04_reaches_functional cur tokens n n' :
  R04.reaches cur tokens n → R04.reaches cur tokens n' → n = n'.
Proof.
  intros H. revert n'. induction H as [|n0 t c ts n1 Hc Hr IH]; intros n' H'.
  - by inversion H'.
  - inversion H' as [|? ? c' ? ? Hc' Hr']; subst.
    apply IH. congruence.
Qed.

Lemma r04_reaches_prefix cur tokens tokens' n :
  tokens' `prefix_of` tokens → R04.reaches cur tokens n →
  ∃ n', R04.reaches cur tokens' n'.
Proof.
  intros [rest ->] H. revert cur H.
  induction tokens' as [|t ts IH]; intros cur H.
  - exists cur. constructor.
  - inversion H as [|? ? c ? ? Hc Hr]; subst.
    destruct (IH _ Hr) as [n' Hn']. exists n'. econstructor; eauto.
Qed.

(** Where a path of the tree after one insertion comes from: it was a
    path before, to a node with the same description, or it is a new
    node on the way to the inserted command, without description. *)
Lemma r04_insert_command_origin parts desc cur cur' tokens n' :
  R04.typed cur →
  Forall (fun p => R04.edge_token (toLowerCase p) = true) parts →
  R04.insert_command parts desc cur = Some cur' →
  tokens ≠ toLowerCase <$> parts →
  R04.reaches cur' tokens n' →
  (∃ n, R04.reaches cur tokens n ∧ R04.metadata n = R04.metadata n')
  ∨ (tokens `prefix_of` (toLowerCase <$> parts) ∧ tokens ≠ []
     ∧ R04.metadata n' = None).
Proof.
  revert cur cur' tokens n'.
  induction parts as [|p rest IH]; intros cur cur' tokens n' Ht Hp.
  { simpl. intros [= <-] _ Hr. eauto. }
  apply Forall_cons in Hp as [Hp Hrest].
  destruct (r04_insert_command_step p rest desc cur Ht Hp)
    as (child & Hchild & Hc & ->).
  apply r04_edge_token_spec in Hp as [Hp _].
  intros Hins Hne Hr.
  destruct (match rest with
            | [] => Some (<["_desc" := R04.Str desc]> child)
            | _ :: _ => R04.insert_command rest desc child
            end) as [child'|] eqn:E; [|done].
  simpl in Hins. injection Hins as <-.
  inversion Hr as [|? t c0 ts ? Ht0 Hr0]; subst.
  { left. eexists. split; [constructor|].
    symmetry. by apply r04_metadata_insert_other. }
  destruct (decide (t = toLowerCase p)) as [->|Hneq]; cycle 1.
  { rewrite lookup_insert_ne in Ht0 by done.
    left. exists n'. split; [|done]. econstructor; eauto. }
  rewrite lookup_insert_eq in Ht0. injection Ht0 as <-.
  destruct rest as [|q rest'].
  - injection E as <-.
    destruct ts as [|t' ts']; [done|].
    inversion Hr0 as [|? ? c1 ? ? Ht1 Hr1]; subst.
    assert (t' ≠ "_desc") as Ht'.
    { intros ->. by rewrite lookup_insert_eq in Ht1. }
    rewrite lookup_insert_ne in Ht1 by done.
    destruct Hchild as [Hchild|[_ ->]]; [|done].
    left. exists n'. split; [|done].
    econstructor; [done|]. econstructor; eauto.
  - destruct (IH child child' ts n' Hc Hrest E) as [(n & Hn & Hm)|(Hpre & Hts & Hm)];
      [naive_solver|done| |].
    + destruct Hchild as [Hchild|[Hnone ->]].
      * left. exists n. split; [|done]. econstructor; eauto.
      * apply r04_reaches_empty in Hn as [-> ->]. right.
        split; [|split; [done|]].
        -- by apply prefix_cons, prefix_nil.
        -- by rewrite <- Hm.
    + right. split; [|done]. rewrite fmap_cons. by apply prefix_cons.
Qed.

(** The tree after the loop over the entries, for any tree the loop
    starts from. *)
Lemma r04_build_from_origin entries tree tree' :
  R04.typed tree → R04.valid_commands entries →
  R04.build_from entries tree = Some tree' →
  ∀ tokens n', R04.reaches tree' tokens n' →
    ((∃ n, R04.reaches tree tokens n)
     ∨ ∃ cmdName details,
         (cmdName, details) ∈ entries
         ∧ tokens `prefix_of` R04.command_tokens cmdName)
    ∧ (R04.description_of entries tokens = None →
       (∃ n, R04.reaches tree tokens n ∧ R04.metadata n = R04.metadata n')
       ∨ R04.metadata n' = None).
Proof.
  revert tree. induction entries as [|[cmdName details] rest IH];
    intros tree Ht Hwf.
  { simpl. intros [= <-] tokens n' Hr. split; [eauto|]. intros _. eauto. }
  apply r04_valid_commands_cons in Hwf as [Hparts Hwf].
  destruct (r04_insert_command_typed _ (R04.description details) tree Ht Hparts)
    as (tree1 & Hins & Ht1).
  simpl. rewrite Hins. simpl. intros Hb tokens n' Hr.
  destruct (IH tree1 Ht1 Hwf Hb tokens n' Hr) as [Hpath Hmeta].
  assert (∀ n1, R04.reaches tree1 tokens n1 →
            tokens = R04.command_tokens cmdName
            ∨ (∃ n, R04.reaches tree tokens n ∧ R04.metadata n = R04.metadata n1)
            ∨ (tokens `prefix_of` R04.command_tokens cmdName
               ∧ R04.metadata n1 = None)) as Hstep.
  { intros n1 Hr1.
    destruct (decide (tokens = R04.command_tokens cmdName)) as [|Hne]; [by left|].
    right.
    destruct (r04_insert_command_origin _ _ _ _ tokens n1 Ht Hparts Hins Hne Hr1)
      as [?|(? & _ & ?)]; eauto. }
  split.
  - destruct Hpath as [[n1 Hr1]|(c & d & Hin & Hpre)].
    + destruct (Hstep n1 Hr1) as [->|[(n & Hn & _)|[Hpre _]]].
      * right. exists cmdName, details. split; [left|done].
      * left. eauto.
      * right. exists cmdName, details. split; [left|done].
    + right. exists c, d. split; [by right|done].
  - destruct (R04.description_of rest tokens) as [d|] eqn:Ed; [done|].
    case_decide as Heq; [done|]. intros _.
    destruct (Hmeta eq_refl) as [(n1 & Hr1 & Hm1)|Hnone]; [|by right].
    destruct (Hstep n1 Hr1) as [->|[(n & Hn & Hm)|[_ Hm]]]; [done| |].
    + left. exists n. split; [done|]. congruence.
    + right. congruence.
Qed.

(** The tree built from a valid dictionary: its paths are the
    beginnings of the commands, and a node carries the description in
    force for its path. *)
Lemma r04_tree_paths entries :
  R04.valid_commands entries →
  ∃ tree,
    R04.buildTreeFromR04 entries = Some tree
    ∧ R04.typed tree
    ∧ ∀ tokens,
        ((∃ n, R04.reaches tree tokens n)
         ↔ tokens = []
           ∨ ∃ cmdName details,
               (cmdName, details) ∈ entries
               ∧ tokens `prefix_of` R04.command_tokens cmdName)
        ∧ ∀ n, R04.reaches tree tokens n →
               R04.metadata n = R04.description_of entries tokens.
Proof.
  intros Hwf.
  destruct (r04_build_from_spec entries ∅ r04_typed_empty Hwf)
    as (tree & Hb & Ht & Hspec).
  exists tree. split; [done|]. split; [done|]. intros tokens.
  pose proof (r04_build_from_origin entries ∅ tree r04_typed_empty Hwf Hb tokens)
    as Horigin.
  split; [split|].
  - intros [n Hr]. destruct (Horigin n Hr) as [[[n0 Hn0]|?] _]; [|by right].
    left. by apply r04_reaches_empty in Hn0 as [-> _].
  - intros [->|(c & d & Hin & Hpre)].
    + exists tree. constructor.
    + destruct (r04_description_of_elem _ _ _ Hin) as [x Hx].
      specialize (Hspec (R04.command_tokens c)). rewrite Hx in Hspec.
      destruct Hspec as (n & Hr & _). by eapply r04_reaches_prefix.
  - intros n Hr. specialize (Hspec tokens).
    destruct (R04.description_of entries tokens) as [d|] eqn:Ed.
    + destruct Hspec as (n0 & Hr0 & Hm0).
      by rewrite (r04_reaches_functional _ _ _ _ Hr Hr0).
    + destruct (Horigin n Hr) as [_ [(n0 & Hn0 & Hm0)|Hm]]; [done| |done].
      apply r04_reaches_empty in Hn0 as [_ ->]. by rewrite <- Hm0.
Qed.

End R04Paths.

Section Narrowing.

#[local] Existing Instance str_le_trans.
#[local] Existing Instance str_le_total.

Lemma sorted_NoDup_eq (l1 l2 : list string) :
  StronglySorted str_le l1 → StronglySorted str_le l2 →
  NoDup l1 → NoDup l2 → (∀ x, x ∈ l1 ↔ x ∈ l2) → l1 = l2.
Proof.
  intros S1 S2 N1 N2 H.
  apply (StronglySorted_unique_strong str_le); [|done..|by apply NoDup_Permutation].
  intros x1 x2 _ _. apply str_le_antisym.
Qed.

Lemma r04_getSuggestions_StronglySorted data line context :
  StronglySorted str_le (R04.getSuggestions data line context)
  ∧ NoDup (R04.getSuggestions data line context).
Proof.
  split; [|apply r04_getSuggestions_sorted].
  unfold R04.getSuggestions.
  destruct (R04.resolve _ _) as [current|]; [|constructor].
  apply StronglySorted_merge_sort; apply _.
Qed.

End Narrowing.

(* ===================================================================== *)
(** * Further properties of the suggestion engine *)
(* ===================================================================== *)

(** X1. When a trigger fires with the cursor inside the line, the span
    it reports ends at the cursor and holds exactly the query: the text
    before the cursor is the text before the span followed by the
    query, the query has no whitespace, and the text before the span is
    empty or ends with whitespace.  Both variants. *)
Theorem trigger_span_is_the_query (line : string) (ch : nat) (c : TriggerInfo) :
  (ch ≤ String.length line)%nat →
  Main.onTrigger line ch = Some c ∨ R04.onTrigger line ch = Some c →
  end_ c = ch
  ∧ start c + String.length (query c) = ch
  ∧ substring 0 ch line = substring 0 (start c) line ++ query c
  ∧ no_space (query c) = true
  ∧ Words.boundary (substring 0 (start c) line) = true.
Proof. apply onTrigger_span. Qed.

Lemma trigger_span_is_the_query_witness :
  end_ (mkTrigger 8 10 "is") = 10
  ∧ start (mkTrigger 8 10 "is") + String.length (query (mkTrigger 8 10 "is")) = 10
  ∧ substring 0 10 "show ip is"
    = substring 0 (start (mkTrigger 8 10 "is")) "show ip is"
      ++ query (mkTrigger 8 10 "is")
  ∧ no_space (query (mkTrigger 8 10 "is")) = true
  ∧ Words.boundary (substring 0 (start (mkTrigger 8 10 "is")) "show ip is")
    = true.
Proof.
  apply (trigger_span_is_the_query "show ip is" 10 (mkTrigger 8 10 "is")).
  - simpl. lia.
  - left. reflexivity.
Defined.

(** X2. Accepting a suggestion and triggering again at the cursor the
    nested variant sets: when the accepted value is one word, the new
    trigger has an empty query at the cursor, the completed tokens are
    the former ones followed by the value in lower case, and, when none
    of these tokens names a property every object inherits, the
    suggestions are all the children of the node that path leads to. *)
Theorem accept_then_trigger (data : Main.CommandNode) (line value : string)
    (ch : nat) (c : TriggerInfo) :
  (ch ≤ String.length line)%nat →
  Main.onTrigger line ch = Some c →
  no_space value = true → value ≠ EmptyString →
  Forall (fun token => Prototype.inherited token = false)
    (Spec.completed_tokens line (start c) ++ [toLowerCase value]) →
  let line' := spliced line (value ++ " ") (start c) (end_ c) in
  let ch' := start c + String.length value + 1 in
  Main.onTrigger line' ch' = Some (mkTrigger ch' ch' EmptyString)
  ∧ Spec.completed_tokens line' ch'
    = (Spec.completed_tokens line (start c) ++ [toLowerCase value])%list
  ∧ Realm.getSuggestions data line' (mkTrigger ch' ch' EmptyString)
    = Some match Main.resolve data
                   (Spec.completed_tokens line (start c) ++ [toLowerCase value])
           with
           | Some n => sort (Main.keys n)
           | None => []
           end.
Proof.
  intros Hch Hc Hv Hne Hplain line' ch'.
  destruct (onTrigger_span line ch c Hch (or_introl Hc))
    as (_ & Hlen & _ & _ & Hb).
  assert (truthy value = true) as Ht by by destruct value.
  assert (substring 0 ch' line'
          = substring 0 (start c) line ++ value ++ " ") as Hsub.
  { apply spliced_prefix. lia. }
  assert (Spec.completed_tokens line' ch'
          = (Spec.completed_tokens line (start c) ++ [toLowerCase value])%list)
    as Htok.
  { rewrite !completed_tokens_words, Hsub, words_app_boundary by done.
    rewrite words_app_all_space, (words_no_space value) by done.
    by rewrite fmap_app. }
  split; [|split; [done|]].
  - unfold Main.onTrigger. rewrite Hsub.
    assert (truthy (trimStart (substring 0 (start c) line ++ value ++ " "))
            = true) as ->.
    { apply not_false_iff_true. rewrite truthy_false, trimStart_empty.
      rewrite !all_space_app, (no_space_all_space value) by done.
      by rewrite andb_false_r. }
    assert (match_tail 0 (substring 0 (start c) line ++ value ++ " ") = None)
      as ->; [|done].
    apply match_tail_None.
    rewrite boundary_app by by rewrite truthy_app, Ht.
    by rewrite boundary_app.
  - rewrite realm_getSuggestions_plain by (cbn [start]; by rewrite Htok).
    unfold Main.getSuggestions. cbn [start query]. rewrite main_tokens, Htok.
    by destruct (Main.resolve data _).
Qed.

Lemma accept_then_trigger_witness :
  Main.onTrigger "show ip isis " 13 = Some (mkTrigger 13 13 EmptyString)
  ∧ Spec.completed_tokens "show ip isis " 13
    = (Spec.completed_tokens "show ip is" 8 ++ ["isis"])%list
  ∧ Realm.getSuggestions
      (Main.Node {[ "show" := Main.Node {[ "ip" := Main.Node
         {[ "isis" := Main.Node {[ "status" := Main.Node ∅ ]} ]} ]} ]})
      "show ip isis " (mkTrigger 13 13 EmptyString)
    = Some match Main.resolve
                   (Main.Node {[ "show" := Main.Node {[ "ip" := Main.Node
                      {[ "isis" := Main.Node {[ "status" := Main.Node ∅ ]} ]} ]} ]})
                   (Spec.completed_tokens "show ip is" 8 ++ ["isis"])
           with
           | Some n => sort (Main.keys n)
           | None => []
           end.
Proof.
  apply (accept_then_trigger _ "show ip is" "isis" 10 (mkTrigger 8 10 "is")).
  - simpl. lia.
  - reflexivity.
  - reflexivity.
  - discriminate.
  - vm_compute. by repeat constructor.
Defined.

(** X3. What the nested variant offers, whatever the tree, when no
    completed token names a property every object inherits: exactly the
    labels that start with the query in lower case and continue the
    path of the completed tokens by one edge. *)
Theorem offered_are_the_next_edges (data : Main.CommandNode) (line : string)
    (context : TriggerInfo) :
  Forall (fun token => Prototype.inherited token = false)
    (Spec.completed_tokens line (start context)) →
  ∃ suggestions,
    Realm.getSuggestions data line context = Some suggestions
    ∧ ∀ t,
        t ∈ suggestions
        ↔ startsWith t (toLowerCase (query context)) = true
          ∧ ∃ child,
              Main.reaches data
                (Spec.completed_tokens line (start context) ++ [t])%list child.
Proof.
  intros Hp. exists (Main.getSuggestions data line context).
  split; [by apply realm_getSuggestions_plain|]. intros t. apply main_offered.
Qed.

Lemma offered_are_the_next_edges_witness :
  ∃ suggestions,
    Realm.getSuggestions
      (Main.Node {[ "show" := Main.Node {[ "ip" := Main.Node ∅;
                                           "vlan" := Main.Node ∅ ]} ]})
      "Show I" (mkTrigger 5 6 "I") = Some suggestions
    ∧ ∀ t,
        t ∈ suggestions
        ↔ startsWith t (toLowerCase (query (mkTrigger 5 6 "I"))) = true
          ∧ ∃ child,
              Main.reaches
                (Main.Node {[ "show" := Main.Node {[ "ip" := Main.Node ∅;
                                                     "vlan" := Main.Node ∅ ]} ]})
                (Spec.completed_tokens "Show I" (start (mkTrigger 5 6 "I"))
                   ++ [t])%list child.
Proof.
  apply (offered_are_the_next_edges _ "Show I" (mkTrigger 5 6 "I")).
  vm_compute. by repeat constructor.
Defined.

(** X22. The flat variant steps into objects only
    ([typeof current[lowerToken] === 'object']), so its walk does not
    leave the tree for a built-in function or a primitive, and
    [Object.prototype], which it can enter under [__proto__], has no key
    to offer: whatever the tree and the line, following the loop along
    the prototype chain gives the suggestions of the walk along the own
    properties. *)
Theorem flat_walk_offers_own_properties (data : R04.CommandNode)
    (line : string) (context : TriggerInfo) :
  Realm.getSuggestionsR04 data line context
  = Some (R04.getSuggestions data line context).
Proof. apply realm_r04_getSuggestions. Qed.

(** [Object.keys] of whatever the walk of [src/main.ts] stands on has no
    repetition. *)
Lemma realm_keys_NoDup (current : Realm.Value Main.CommandNode) :
  NoDup (Realm.keys Main.keys current).
Proof.
  destruct current as [n| | |s|z| |]; simpl; try apply NoDup_nil_2.
  - apply main_keys_NoDup.
  - apply NoDup_fmap; [apply _|apply NoDup_seq].
Qed.

(** X23. Wherever the walk of [src/main.ts] ends, on a node of the
    tree, on a built-in object or on a string, the list it returns is
    strictly ascending in the order of the token strings and has no
    duplicate. *)
Theorem walk_suggestions_strictly_sorted (data : Main.CommandNode)
    (line : string) (context : TriggerInfo) (suggestions : list string) :
  Realm.getSuggestions data line context = Some suggestions →
  Spec.strictly_sorted suggestions ∧ NoDup suggestions.
Proof.
  unfold Realm.getSuggestions.
  destruct (Realm.resolve _ _ _ _) as [current| |]; [| |done].
  - intros [= <-]. apply sort_strictly_sorted.
    destruct (truthy _); [apply NoDup_filter|]; apply realm_keys_NoDup.
  - intros [= <-]. apply strictly_sorted_nil.
Qed.

(** The indices of the string "Object", which the line
    "constructor name " reaches from any tree without a child
    [constructor]. *)
Lemma walk_suggestions_strictly_sorted_witness :
  Realm.getSuggestions Main.empty_node "constructor name "
    (mkTrigger 17 17 EmptyString)
  = Some ["0"; "1"; "2"; "3"; "4"; "5"]
  ∧ Spec.strictly_sorted ["0"; "1"; "2"; "3"; "4"; "5"]
  ∧ NoDup ["0"; "1"; "2"; "3"; "4"; "5"].
Proof.
  assert (Realm.getSuggestions Main.empty_node "constructor name "
            (mkTrigger 17 17 EmptyString)
          = Some ["0"; "1"; "2"; "3"; "4"; "5"]) as H
    by (vm_compute; reflexivity).
  split; [exact H|].
  exact (walk_suggestions_strictly_sorted _ _ _ _ H).
Defined.

(** X4. Typing on narrows the list: when a query of ASCII characters
    is extended, the new list of suggestions is the former one filtered
    by the new query in lower case.  Both variants; for [src/main.ts]
    along the prototype chain, where the walk may end on a built-in
    object or on a string. *)
Theorem longer_query_filters_the_list (data : Main.CommandNode)
    (dataR04 : R04.CommandNode) (line : string) (start' end1 end2 : nat)
    (q1 q2 : string) :
  is_ascii q2 = true →
  startsWith q2 q1 = true →
  Realm.getSuggestions data line (mkTrigger start' end2 q2)
  = filter (λ t, startsWith t (toLowerCase q2))
      <$> Realm.getSuggestions data line (mkTrigger start' end1 q1)
  ∧ R04.getSuggestions dataR04 line (mkTrigger start' end2 q2)
  = filter (λ t, startsWith t (toLowerCase q2))
      (R04.getSuggestions dataR04 line (mkTrigger start' end1 q1)).
Proof.
  intros _ Hq%startsWith_toLowerCase. split.
  - unfold Realm.getSuggestions. cbn [start query].
    destruct (Realm.resolve _ _ _ _) as [cur| |]; [|done..].
    cbn [fmap option_fmap option_map]. f_equal.
    rewrite !main_filter_query, filter_sort, list_filter_filter.
    f_equal. apply list_filter_iff. intros t. rewrite !Is_true_true.
    split; [|tauto]. intros H. split; [done|]. by eapply startsWith_trans.
  - unfold R04.getSuggestions. cbn [start query].
    destruct (R04.resolve dataR04 _) as [cur|]; [|done].
    rewrite filter_sort, list_filter_filter.
    f_equal. apply list_filter_iff. intros t.
    rewrite !andb_True, !Is_true_true.
    split; [|tauto]. intros [Hd H]. repeat split; try done.
    by eapply startsWith_trans.
Qed.

Lemma longer_query_filters_the_list_witness :
  Realm.getSuggestions
    (Main.Node {[ "ip" := Main.Node ∅; "interfaces" := Main.Node ∅;
                  "vlan" := Main.Node ∅ ]})
    "IP" (mkTrigger 0 2 "IP")
  = filter (λ t, startsWith t (toLowerCase "IP"))
      <$> Realm.getSuggestions
            (Main.Node {[ "ip" := Main.Node ∅; "interfaces" := Main.Node ∅;
                          "vlan" := Main.Node ∅ ]})
            "IP" (mkTrigger 0 1 "I")
  ∧ R04.getSuggestions
      {[ "ip" := R04.Obj ∅; "interfaces" := R04.Obj ∅; "_desc" := R04.Str "d" ]}
      "IP" (mkTrigger 0 2 "IP")
  = filter (λ t, startsWith t (toLowerCase "IP"))
      (R04.getSuggestions
         {[ "ip" := R04.Obj ∅; "interfaces" := R04.Obj ∅;
            "_desc" := R04.Str "d" ]}
         "IP" (mkTrigger 0 1 "I")).
Proof.
  apply (longer_query_filters_the_list _ _ "IP" 0 1 2 "I" "IP");
    reflexivity.
Defined.

Section R04Offered.

(** What the flat variant offers from the tree of a valid dictionary. *)
Lemma r04_offered_commands entries :
  R04.valid_commands entries →
  ∃ tree,
    R04.buildTreeFromR04 entries = Some tree
    ∧ ∀ line context t,
        t ∈ R04.getSuggestions tree line context
        ↔ startsWith t (toLowerCase (query context)) = true
          ∧ ∃ cmdName details,
              (cmdName, details) ∈ entries
              ∧ (Spec.completed_tokens line (start context) ++ [t])%list
                  `prefix_of` R04.command_tokens cmdName.
Proof.
  intros Hwf. destruct (r04_tree_paths entries Hwf) as (tree & Hb & Ht & Hp).
  exists tree. split; [done|]. intros line context t.
  rewrite (r04_offered tree line context t Ht).
  destruct (Hp (Spec.completed_tokens line (start context) ++ [t])%list)
    as [Hiff _].
  rewrite Hiff. split; intros [Hq H]; (split; [done|]).
  - destruct H as [H|H]; [|done]. by destruct (Spec.completed_tokens _ _).
  - by right.
Qed.

End R04Offered.

(** X5. The tree built from a valid R04 dictionary holds the commands
    and nothing else: a token path leads to a node exactly when it is
    empty or the beginning of the tokens of some command, and the node
    carries the description in force for its path, or none. *)
Theorem tree_paths_are_command_prefixes
    (commandsR04 : list (string * R04.CommandDetail)) :
  R04.valid_commands commandsR04 →
  ∃ tree,
    R04.buildTreeFromR04 commandsR04 = Some tree
    ∧ ∀ tokens,
        ((∃ n, R04.reaches tree tokens n)
         ↔ tokens = []
           ∨ ∃ cmdName details,
               (cmdName, details) ∈ commandsR04
               ∧ tokens `prefix_of` R04.command_tokens cmdName)
        ∧ ∀ n, R04.reaches tree tokens n →
               R04.metadata n = R04.description_of commandsR04 tokens.
Proof.
  intros Hwf. destruct (r04_tree_paths commandsR04 Hwf) as (tree & Hb & _ & Hp).
  by exists tree.
Qed.

Lemma tree_paths_are_command_prefixes_witness :
  ∃ tree,
    R04.buildTreeFromR04 Spec.scenario_commands = Some tree
    ∧ ∀ tokens,
        ((∃ n, R04.reaches tree tokens n)
         ↔ tokens = []
           ∨ ∃ cmdName details,
               (cmdName, details) ∈ Spec.scenario_commands
               ∧ tokens `prefix_of` R04.command_tokens cmdName)
        ∧ ∀ n, R04.reaches tree tokens n →
               R04.metadata n
               = R04.description_of Spec.scenario_commands tokens.
Proof.
  apply (tree_paths_are_command_prefixes Spec.scenario_commands).
  apply r04_valid_commands_check. vm_compute. reflexivity.
Defined.

(** X6. From the tree of a valid R04 dictionary, the engine offers
    exactly the next words of the commands: a token is suggested if and
    only if it starts with the query in lower case and the completed
    tokens followed by it begin the tokens of some command. *)
Theorem offered_are_the_next_command_words
    (commandsR04 : list (string * R04.CommandDetail)) :
  R04.valid_commands commandsR04 →
  ∃ tree,
    R04.buildTreeFromR04 commandsR04 = Some tree
    ∧ ∀ line context t,
        t ∈ R04.getSuggestions tree line context
        ↔ startsWith t (toLowerCase (query context)) = true
          ∧ ∃ cmdName details,
              (cmdName, details) ∈ commandsR04
              ∧ (Spec.completed_tokens line (start context) ++ [t])%list
                  `prefix_of` R04.command_tokens cmdName.
Proof. apply r04_offered_commands. Qed.

Lemma offered_are_the_next_command_words_witness :
  ∃ tree,
    R04.buildTreeFromR04 Spec.scenario_commands = Some tree
    ∧ ∀ line context t,
        t ∈ R04.getSuggestions tree line context
        ↔ startsWith t (toLowerCase (query context)) = true
          ∧ ∃ cmdName details,
              (cmdName, details) ∈ Spec.scenario_commands
              ∧ (Spec.completed_tokens line (start context) ++ [t])%list
                  `prefix_of` R04.command_tokens cmdName.
Proof.
  apply (offered_are_the_next_command_words Spec.scenario_commands).
  apply r04_valid_commands_check. vm_compute. reflexivity.
Defined.

(** X7. The suggestions of the flat variant do not depend on the order
    of the entries of the dictionary: two valid dictionaries with the
    same entries give trees that answer every query with the same
    list. *)
Theorem suggestions_independent_of_entry_order
    (commandsR04 commandsR04' : list (string * R04.CommandDetail)) :
  R04.valid_commands commandsR04 →
  commandsR04 ≡ₚ commandsR04' →
  ∃ tree tree',
    R04.buildTreeFromR04 commandsR04 = Some tree
    ∧ R04.buildTreeFromR04 commandsR04' = Some tree'
    ∧ ∀ line context,
        R04.getSuggestions tree line context
        = R04.getSuggestions tree' line context.
Proof.
  intros Hwf Hperm.
  assert (R04.valid_commands commandsR04') as Hwf'.
  { intros c d Hin. apply (Hwf c d). by rewrite Hperm. }
  destruct (r04_offered_commands _ Hwf) as (tree & Hb & Ho).
  destruct (r04_offered_commands _ Hwf') as (tree' & Hb' & Ho').
  exists tree, tree'. split; [done|]. split; [done|]. intros line context.
  apply sorted_NoDup_eq; try apply r04_getSuggestions_StronglySorted.
  intros t. rewrite Ho, Ho'.
  by setoid_rewrite Hperm.
Qed.

Lemma suggestions_independent_of_entry_order_witness :
  ∃ tree tree',
    R04.buildTreeFromR04 Spec.scenario_commands = Some tree
    ∧ R04.buildTreeFromR04 (reverse Spec.scenario_commands) = Some tree'
    ∧ ∀ line context,
        R04.getSuggestions tree line context
        = R04.getSuggestions tree' line context.
Proof.
  apply (suggestions_independent_of_entry_order Spec.scenario_commands
           (reverse Spec.scenario_commands)).
  - apply r04_valid_commands_check. vm_compute. reflexivity.
  - vm_compute. apply perm_swap.
Defined.

(** X8. Adding entries to a valid R04 dictionary never withdraws a
    suggestion: whatever the tree of the smaller dictionary offers for
    a query, the tree of the larger one offers too. *)
Theorem more_commands_more_suggestions
    (commandsR04 commandsR04' : list (string * R04.CommandDetail)) :
  R04.valid_commands commandsR04' →
  commandsR04 ⊆ commandsR04' →
  ∃ tree tree',
    R04.buildTreeFromR04 commandsR04 = Some tree
    ∧ R04.buildTreeFromR04 commandsR04' = Some tree'
    ∧ ∀ line context,
        R04.getSuggestions tree line context
        ⊆ R04.getSuggestions tree' line context.
Proof.
  intros Hwf' Hsub.
  assert (R04.valid_commands commandsR04) as Hwf.
  { intros c d Hin. apply (Hwf' c d). by apply Hsub. }
  destruct (r04_offered_commands _ Hwf) as (tree & Hb & Ho).
  destruct (r04_offered_commands _ Hwf') as (tree' & Hb' & Ho').
  exists tree, tree'. split; [done|]. split; [done|]. intros line context t.
  rewrite Ho, Ho'. intros (Hq & c & d & Hin & Hpre).
  split; [done|]. exists c, d. split; [by apply Hsub|done].
Qed.

Lemma more_commands_more_suggestions_witness :
  ∃ tree tree',
    R04.buildTreeFromR04 [ ("show ip interface", Spec.detail "show ip interface" "D1") ]
      = Some tree
    ∧ R04.buildTreeFromR04 Spec.scenario_commands = Some tree'
    ∧ ∀ line context,
        R04.getSuggestions tree line context
        ⊆ R04.getSuggestions tree' line context.
Proof.
  apply (more_commands_more_suggestions
           [ ("show ip interface", Spec.detail "show ip interface" "D1") ]
           Spec.scenario_commands).
  - apply r04_valid_commands_check. vm_compute. reflexivity.
  - intros e He. apply list_elem_of_singleton in He as ->. left.
Defined.

Section KeyPaths.

Lemma main_reaches_app_inv root p q n :
  Main.reaches root (p ++ q)%list n →
  ∃ m, Main.reaches root p m ∧ Main.reaches m q n.
Proof.
  revert root. induction p as [|x xs IH]; intros root Hr; simpl in *.
  - exists root. split; [constructor|done].
  - inversion Hr as [|? ? c ? ? Hc Hr']; subst.
    destruct (IH _ Hr') as (m & Hm & Hq).
    exists m. split; [econstructor; eauto|done].
Qed.

(** When the completed tokens lead to a node along own children, the
    walk of [src/main.ts] is the one of [Main.resolve]. *)
Lemma realm_getSuggestions_resolved data line context n :
  Main.reaches data (Spec.completed_tokens line (start context)) n →
  Realm.getSuggestions data line context
  = Some (Main.getSuggestions data line context).
Proof.
  intros Hr. unfold Realm.getSuggestions, Main.getSuggestions.
  rewrite main_tokens, (main_resolve_reaches _ _ _ Hr).
  pose proof (realm_resolve_reaches data _ [] n Hr) as H.
  rewrite app_nil_r in H. by rewrite H.
Qed.

End KeyPaths.

(** X9. In the nested variant, every word along a key path of the
    dictionary is offered: when the completed tokens followed by a
    token begin a path spelled by the keys, and the token starts with
    the query in lower case, the token is among the suggestions. *)
Theorem key_path_words_are_offered (raw : list (string * Main.Json))
    (tree : Main.CommandNode) (line : string) (context : TriggerInfo)
    (t : string) (rest : list string) :
  Main.normalizeTree raw = Some tree →
  Main.key_path (Main.JObj raw)
    (Spec.completed_tokens line (start context) ++ t :: rest) →
  startsWith t (toLowerCase (query context)) = true →
  ∃ suggestions,
    Realm.getSuggestions tree line context = Some suggestions
    ∧ t ∈ suggestions.
Proof.
  intros Hn Hp Hq.
  destruct (main_normalizeTree_paths raw tree _ Hn Hp) as [n Hr].
  destruct (main_reaches_app_inv _ _ _ _ Hr) as (m & Hm & Ht).
  exists (Main.getSuggestions tree line context).
  split; [by eapply realm_getSuggestions_resolved|].
  apply main_offered. split; [done|].
  inversion Ht as [|? ? c ? ? Hc Hr']; subst.
  exists c. eapply main_reaches_app; [done|].
  econstructor; [done|constructor].
Qed.

Lemma key_path_words_are_offered_witness :
  ∃ suggestions,
    Realm.getSuggestions
      (Main.Node {[ "show" := Main.Node {[ "ip" := Main.Node
         {[ "interface" := Main.Node ∅ ]} ]} ]})
      "show I" (mkTrigger 5 6 "I") = Some suggestions
    ∧ "ip" ∈ suggestions.
Proof.
  apply (key_path_words_are_offered
           [ ("show ip", Main.JObj [ ("interface", Main.JObj []) ]) ]
           _ "show I" (mkTrigger 5 6 "I") "ip" ["interface"]).
  - vm_compute. reflexivity.
  - apply (Main.key_path_below _ "show ip" (Main.JObj [ ("interface", Main.JObj []) ])
             ["interface"]); [left|done|done|].
    apply (Main.key_path_key _ "interface" (Main.JObj [])); [left|done].
  - reflexivity.
Defined.

(* ===================================================================== *)
(** * The nested variant: where the options go *)
(* ===================================================================== *)

Section Options.

Lemma main_reaches_child (root : Main.CommandNode) o :
  (∃ n, Main.reaches root [o] n) ↔ is_Some (Main.children root !! o).
Proof.
  split.
  - intros [n Hr]. inversion Hr; subst. eauto.
  - intros [c Hc]. exists c. econstructor; [done|constructor].
Qed.

(** After the options are added, each of them is a child of the node. *)
Lemma main_add_options_has options root root' o :
  Prototype.inherited o = false →
  o ∈ Main.option_names options →
  Main.add_options options root = Some root' →
  is_Some (Main.children root' !! o).
Proof.
  intros Hi.
  destruct options as [[| | | |opts|]|]; simpl; try by intros ?%elem_of_nil.
  revert root. induction opts as [|opt rest IH]; intros root; simpl.
  { by intros ?%elem_of_nil. }
  destruct opt as [| | |s| |]; simpl; try done.
  intros Ho Hf.
  assert (∀ r, Main.forEach_option rest r = Some root' →
            is_Some (Main.children r !! toLowerCase s) →
            is_Some (Main.children root' !! toLowerCase s)) as Hkeep.
  { intros r Hr Hs. apply main_reaches_child.
    apply main_reaches_child in Hs as [n Hn].
    by eapply (main_add_options_grows (Some (Main.JArr rest))). }
  apply elem_of_cons in Ho as [->|Ho].
  - destruct (Main.children root !! toLowerCase s) as [c|] eqn:E.
    + apply (Hkeep _ Hf). by rewrite E.
    + rewrite Hi in Hf. apply (Hkeep _ Hf). simpl. by rewrite lookup_insert_eq.
  - destruct (Main.children root !! toLowerCase s); [by eapply IH|].
    destruct (Prototype.inherited (toLowerCase s)); by eapply IH.
Qed.

(** The options are added at every level [traverse] works on. *)
Lemma main_traverse_levels options o :
  Prototype.inherited o = false →
  o ∈ Main.option_names options →
  ∀ j root root',
    Main.traverse options j root = Some root' →
    ∀ tokens, Nested.level_path j tokens →
      ∃ n, Main.reaches root' (tokens ++ [o])%list n.
Proof.
  intros Hi Ho.
  induction j as [| | | | |members IH] using Json_members_ind;
    intros root root' Ht;
    try (simpl in Ht; intros tokens Hp; inversion Hp; subst;
         apply main_reaches_child; by eapply main_add_options_has).
  simpl in Ht.
  destruct (Main.for_in _ members root) as [root1|] eqn:E; [|done].
  simpl in Ht. pose proof (main_add_options_grows _ _ _ Ht) as Hg1.
  assert (Main.grows root root1
          ∧ ∀ key nextLevel tokens,
              (key, nextLevel) ∈ members → key ≠ "_options" →
              Main.is_plain_object nextLevel = true →
              Nested.level_path nextLevel tokens →
              ∃ n, Main.reaches root1
                     (split_ws (toLowerCase key) ++ tokens ++ [o])%list n)
    as [Hg Hkeys].
  { clear Ht Hg1 root'. revert root root1 E.
    induction IH as [|[key nextLevel] rest Hnext _ IHm]; intros root root1.
    { simpl. intros [= <-]. split; [apply main_grows_refl|].
      by intros ??? ?%elem_of_nil. }
    simpl. destruct (String.eqb_spec key "_options") as [->|Hne].
    { intros E. destruct (IHm _ _ E) as [Hg Hk]. split; [done|].
      intros k v ts [[= -> ->]|Hin]%elem_of_cons Hk'; [done|]. by apply Hk. }
    destruct (Main.insert_parts _ _ root) as [root2|] eqn:E2; [|done]. simpl.
    intros E. destruct (IHm _ _ E) as [Hg Hk].
    assert (∀ c c',
              (if Main.is_plain_object nextLevel
               then Main.traverse options nextLevel c else Some c) = Some c' →
              Main.grows c c') as Hlast.
    { intros c c' Hc. destruct (Main.is_plain_object nextLevel).
      - by eapply main_traverse_paths.
      - injection Hc as <-. apply main_grows_refl. }
    destruct (main_insert_parts_paths _ _ _ _ (split_from_nonempty _ _)
                Hlast E2) as (Hg2 & c & c' & Hc & Hr).
    split; [by eapply main_grows_trans|].
    intros k v ts [[= -> ->]|Hin]%elem_of_cons Hk' Hplain Hts;
      [|by eapply Hk].
    simpl in Hc. rewrite Hplain in Hc.
    destruct (Hnext _ _ Hc ts Hts) as [n Hn].
    eapply Hg. by eapply main_reaches_app. }
  intros tokens Hp.
  inversion Hp as [|? key nextLevel ts Hin Hne Hplain Hts]; subst.
  - apply main_reaches_child. by eapply main_add_options_has.
  - destruct (Hkeys key nextLevel ts Hin Hne Hplain Hts) as [n Hn].
    rewrite <- app_assoc. by eapply Hg1.
Qed.

End Options.

(** X10. In the nested variant the options of the outermost dictionary
    are added at every level: below the root and below the path of
    every nested dictionary the construction descends into, each option
    name in lower case is a child, so that it is offered there.  An
    option that names a property every object inherits adds nothing:
    [currentRoot[o]] is truthy already. *)
Theorem options_offered_at_every_level (raw : list (string * Main.Json))
    (tree : Main.CommandNode) (tokens : list string) (o : string) :
  Main.normalizeTree raw = Some tree →
  Nested.level_path (Main.JObj raw) tokens →
  o ∈ Main.option_names (Main.member "_options" raw) →
  Prototype.inherited o = false →
  ∃ n, Main.reaches tree tokens n ∧ is_Some (Main.children n !! o).
Proof.
  intros Hn Hp Ho Hi. apply main_reaches_snoc.
  by eapply (main_traverse_levels _ o Hi Ho _ _ _ Hn).
Qed.

Lemma options_offered_at_every_level_witness :
  ∃ n,
    Main.reaches
      (Main.Node {[ "detail" := Main.Node ∅;
                    "show" := Main.Node
                      {[ "vlan" := Main.Node {[ "detail" := Main.Node ∅ ]} ]} ]})
      ["show"; "vlan"] n
    ∧ is_Some (Main.children n !! "detail").
Proof.
  apply (options_offered_at_every_level
           [ ("_options", Main.JArr [ Main.JStr "Detail" ]);
             ("show vlan", Main.JObj []) ]).
  - vm_compute. reflexivity.
  - apply (Nested.level_below _ "show vlan" (Main.JObj []) []); [right; left|done|done|].
    constructor.
  - left.
  - reflexivity.
Defined.

(* ===================================================================== *)
(** * The code-block processors *)
(* ===================================================================== *)

Section HighlightFacts.

Import Highlight.

Lemma concat_empty_cons (x : string) (xs : list string) :
  String.concat EmptyString (x :: xs) = x ++ String.concat EmptyString xs.
Proof. destruct xs; simpl; [by rewrite string_app_empty_r|done]. Qed.

Lemma split_with_cons sep skip c r :
  split_with sep skip (String c r)
  = match skip with
    | S k =>
        match k with
        | 0 => String c EmptyString :: split_with sep 0 r
        | S _ =>
            match split_with sep k r with
            | t :: ts => String c t :: ts
            | [] => [String c EmptyString]
            end
        end
    | 0 =>
        match sep (String c r) with
        | S k =>
            EmptyString ::
            match k with
            | 0 => String c EmptyString :: split_with sep 0 r
            | S _ =>
                match split_with sep k r with
                | t :: ts => String c t :: ts
                | [] => [String c EmptyString]
                end
            end
        | 0 =>
            match split_with sep 0 r with
            | t :: ts => String c t :: ts
            | [] => [String c EmptyString]
            end
        end
    end.
Proof. done. Qed.

(** The parts of a split, one after the other, are the text: nothing
    is lost and nothing is added, whatever the separator. *)
Lemma split_with_concat sep skip s :
  String.concat EmptyString (split_with sep skip s) = s.
Proof.
  revert skip. induction s as [|c s IH]; intros skip; [done|].
  assert (∀ k, String.concat EmptyString
                 match split_with sep k s with
                 | t :: ts => String c t :: ts
                 | [] => [String c EmptyString]
                 end = String c s) as Hpre.
  { intros k. specialize (IH k). destruct (split_with sep k s) as [|t ts].
    - simpl in IH. by subst.
    - rewrite concat_empty_cons in *. rewrite append_cons. by f_equal. }
  assert (String.concat EmptyString
            (String c EmptyString :: split_with sep 0 s) = String c s) as Hone.
  { rewrite concat_empty_cons, IH. done. }
  rewrite split_with_cons.
  destruct skip as [|[|k]]; [|done|apply Hpre].
  destruct (sep (String c s)) as [|[|k]]; [apply Hpre|..];
    rewrite concat_empty_cons; [apply Hone|apply Hpre].
Qed.

Lemma classify_Some keywords part :
  part ≠ EmptyString →
  ∃ category, Main.classify keywords part = Some (Main.mkSpan part category).
Proof.
  intros Hne. unfold Main.classify.
  destruct (String.eqb_spec part EmptyString) as [|_]; [done|].
  repeat match goal with
         | |- context [if ?b then _ else _] => destruct b
         end; eauto.
Qed.

Lemma classifyR04_Some keywords part :
  part ≠ EmptyString →
  ∃ category, classifyR04 keywords part = Some (Main.mkSpan part category).
Proof.
  intros Hne. unfold classifyR04.
  destruct (String.eqb_spec part EmptyString) as [|_]; [done|].
  repeat match goal with
         | |- context [if ?b then _ else _] => destruct b
         end; eauto.
Qed.

(** The spans of the parts show the parts. *)
Lemma shown_parts (classify : string → option Main.Span) parts :
  classify EmptyString = None →
  (∀ part, part ≠ EmptyString →
     ∃ category, classify part = Some (Main.mkSpan part category)) →
  shown (omap classify parts) = String.concat EmptyString parts.
Proof.
  intros Hempty Hsome. unfold shown.
  induction parts as [|part parts IH]; [done|].
  rewrite concat_empty_cons. cbn [omap list_omap].
  destruct part as [|c part].
  - by rewrite Hempty.
  - destruct (Hsome (String c part)) as [category ->]; [done|].
    rewrite fmap_cons, concat_empty_cons. cbn [Main.text]. by rewrite IH.
Qed.

Lemma render_line_shown keywords line :
  shown (render_line keywords line) = line
  ∧ shown (render_lineR04 keywords line) = line.
Proof.
  unfold render_line, render_lineR04.
  destruct (is_comment line); [done|].
  rewrite !shown_parts;
    [|done|apply classifyR04_Some|done|apply classify_Some].
  unfold split. by rewrite !split_with_concat.
Qed.

Lemma lines_nonempty source : lines source ≠ [].
Proof.
  destruct source as [|c r]; [done|]. simpl.
  destruct (Ascii.eqb c line_feed); [done|]. by destruct (lines r).
Qed.

Lemma join_lines_lines source : join_lines (lines source) = source.
Proof.
  unfold join_lines. induction source as [|c r IH]; [done|].
  pose proof (lines_nonempty r) as Hne. simpl.
  destruct (Ascii.eqb_spec c line_feed) as [->|_].
  - destruct (lines r) as [|l ls]; [done|].
    change (String.concat (String line_feed EmptyString) (EmptyString :: l :: ls))
      with (String line_feed
              (String.concat (String line_feed EmptyString) (l :: ls))).
    by rewrite IH.
  - destruct (lines r) as [|l ls]; [done|].
    destruct ls as [|l' ls]; simpl in *; by rewrite <- IH.
Qed.

(** No line of the source holds a line feed. *)
Lemma lines_no_line_feed source :
  Forall (fun line => ∀ a b, line ≠ a ++ String line_feed b) (lines source).
Proof.
  induction source as [|c r IH]; simpl.
  { constructor; [|done]. intros [|??] ?; done. }
  destruct (Ascii.eqb_spec c line_feed) as [->|Hc].
  - constructor; [|done]. intros [|??] ?; done.
  - destruct (lines r) as [|l ls]; simpl.
    + constructor; [|done]. intros [|? [|??]] ? [=]; done.
    + apply Forall_cons in IH as [Hl Hls]. constructor; [|done].
      intros [|x a] b; rewrite ?append_cons; intros [= ? ?]; subst; [done|].
      by eapply Hl.
Qed.

Lemma blanks_cons c r :
  blanks (String c r)
  = match r with EmptyString => is_blank c | _ => is_blank c && blanks r end.
Proof. by destruct r. Qed.

Lemma blanks_prepend c x :
  is_blank c = true → blanks x = true → blanks (String c x) = true.
Proof. intros Hc Hx. rewrite blanks_cons, Hc, Hx. by destruct x. Qed.

(** The parts of a line of [src/main.ts]: the element under
    construction is a piece free of separators, or the rest of a run of
    blanks, and every other element has the shape of a part. *)
Lemma split_with_shape s :
  ∀ skip, (skip ≤ blank_run s)%nat →
    ∃ x xs, split_with separator skip s = x :: xs
            ∧ (if skip is 0 then plain x = true else blanks x = true)
            ∧ Forall (fun p => part_shape p = true) xs.
Proof.
  induction s as [|c s IH]; intros skip Hskip.
  { simpl in Hskip. assert (skip = 0) as -> by lia. by exists EmptyString, []. }
  assert (∀ k, is_blank c = true → (k ≤ blank_run s)%nat →
            ∃ x xs,
              match k with
              | 0 => String c EmptyString :: split_with separator 0 s
              | S _ =>
                  match split_with separator k s with
                  | t :: ts => String c t :: ts
                  | [] => [String c EmptyString]
                  end
              end = x :: xs
              ∧ blanks x = true
              ∧ Forall (fun p => part_shape p = true) xs) as Hinside.
  { intros k Hc Hk. destruct (IH k Hk) as (x & xs & E & Hx & Hxs).
    destruct k as [|k].
    - exists (String c EmptyString), (x :: xs). rewrite E.
      split; [done|]. split; [done|]. constructor; [|done].
      unfold part_shape. by rewrite Hx.
    - exists (String c x), xs. rewrite E. split; [done|].
      split; [by apply blanks_prepend|done]. }
  rewrite split_with_cons. destruct skip as [|k].
  - change (separator (String c s))
      with (if is_blank c then blank_run (String c s)
            else if is_delimiter c then 1 else 0).
    destruct (is_blank c) eqn:Ec.
    + cbn [blank_run]. rewrite Ec.
      destruct (Hinside (blank_run s) eq_refl (le_n _)) as (x & xs & E & Hx & Hxs).
      exists EmptyString, (x :: xs). rewrite E. split; [done|]. split; [done|].
      constructor; [|done]. unfold part_shape. by rewrite Hx, orb_true_r.
    + destruct (is_delimiter c) eqn:Ed.
      * destruct (IH 0 (Nat.le_0_l _)) as (x & xs & E & Hx & Hxs).
        exists EmptyString, (String c EmptyString :: x :: xs). rewrite E.
        split; [done|]. split; [done|].
        constructor; [|constructor; [|done]]; unfold part_shape.
        -- cbn [one_delimiter]. by rewrite Ed, orb_true_r.
        -- by rewrite Hx.
      * destruct (IH 0 (Nat.le_0_l _)) as (x & xs & E & Hx & Hxs).
        exists (String c x), xs. rewrite E. split; [done|]. split; [|done].
        simpl. by rewrite Ec, Ed, Hx.
  - simpl in Hskip. destruct (is_blank c) eqn:Ec; [|lia].
    apply Hinside; [done|lia].
Qed.

Lemma blanks_whitespace_run p : blanks p = true → is_whitespace_run p = true.
Proof.
  unfold is_whitespace_run. induction p as [|c p IH]; [done|].
  rewrite blanks_cons. simpl.
  assert (is_blank c = true → is_space c = true) as Hc.
  { unfold is_blank. intros [->%Ascii.eqb_eq| ->%Ascii.eqb_eq]%orb_true_iff; done. }
  destruct p as [|d p].
  - intros H. by rewrite (Hc H).
  - intros [H1 H2]%andb_true_iff. rewrite (Hc H1). by apply IH.
Qed.

End HighlightFacts.

(** X11. The code-block processors lose no text: in both files, the
    texts of the spans of a division, one after the other, are the line
    of the source, so that the divisions joined by line feeds are the
    source and no division shows a line feed. *)
Theorem rendered_text_is_the_source (keywords : Main.Keywords) (source : string) :
  Highlight.shown <$> Highlight.render keywords source = Highlight.lines source
  ∧ Highlight.shown <$> Highlight.renderR04 keywords source
    = Highlight.lines source
  ∧ Highlight.join_lines (Highlight.lines source) = source
  ∧ Forall (fun line => ∀ a b, line ≠ a ++ String Highlight.line_feed b)
      (Highlight.lines source).
Proof.
  unfold Highlight.render, Highlight.renderR04.
  assert (∀ f : string → list Main.Span,
            (∀ line, Highlight.shown (f line) = line) →
            Highlight.shown <$> (f <$> Highlight.lines source)
            = Highlight.lines source) as Hmap.
  { intros f Hf. rewrite <- list_fmap_compose.
    induction (Highlight.lines source) as [|l ls IH]; [done|].
    rewrite fmap_cons, IH. simpl. by rewrite Hf. }
  rewrite !Hmap by (intros line; apply render_line_shown).
  split; [done|]. split; [done|].
  split; [apply join_lines_lines|apply lines_no_line_feed].
Qed.

(** X12. On a line that is not a comment, the processor of
    [src/main.ts] creates no empty span, and every span shows a run of
    blanks, one delimiter character, or a text free of blanks and
    delimiters; a run of blanks gets no class. *)
Theorem spans_of_a_code_line (keywords : Main.Keywords) (line : string) :
  Highlight.is_comment line = false →
  Forall (fun span =>
            Main.text span ≠ EmptyString
            ∧ Highlight.part_shape (Main.text span) = true
            ∧ (Highlight.blanks (Main.text span) = true →
               Main.cls span = None))
    (Highlight.render_line keywords line).
Proof.
  intros Hc. unfold Highlight.render_line. rewrite Hc.
  destruct (split_with_shape line 0 (Nat.le_0_l _)) as (x & xs & E & Hx & Hxs).
  unfold Highlight.split. rewrite E.
  assert (Forall (fun p => Highlight.part_shape p = true) (x :: xs)) as Hall.
  { constructor; [|done]. unfold Highlight.part_shape. by rewrite Hx. }
  clear E Hx Hxs. induction Hall as [|p ps Hp _ IH]; [constructor|].
  cbn [omap list_omap]. destruct (Main.classify keywords p) as [span|] eqn:E;
    [|done].
  constructor; [|done]. unfold Main.classify in E.
  destruct (String.eqb_spec p EmptyString) as [|Hne]; [done|].
  injection E as <-.
  destruct (is_whitespace_run p) eqn:Ew.
  - done.
  - assert (Highlight.blanks p = false) as Hb.
    { apply not_true_iff_false. intros Hb%blanks_whitespace_run. congruence. }
    repeat match goal with
           | |- context [if ?b then _ else _] => destruct b
           end; simpl; rewrite Hb; done.
Qed.

Lemma spans_of_a_code_line_witness :
  Forall (fun span =>
            Main.text span ≠ EmptyString
            ∧ Highlight.part_shape (Main.text span) = true
            ∧ (Highlight.blanks (Main.text span) = true →
               Main.cls span = None))
    (Highlight.render_line (Main.mkKeywords {[ "show" ]} ∅ ∅ ∅ ∅)
       "show  vlan (10)").
Proof.
  apply (spans_of_a_code_line (Main.mkKeywords {[ "show" ]} ∅ ∅ ∅ ∅)
           "show  vlan (10)").
  reflexivity.
Defined.

(* ===================================================================== *)
(** * Letter case and the patterns *)
(* ===================================================================== *)

Section CaseFacts.

Import Case.

Ltac by_cases_on c :=
  destruct c as [[] [] [] [] [] [] [] []]; vm_compute; reflexivity.

Lemma is_digit_caseless : caseless is_digit.
Proof. intros c. by_cases_on c. Qed.

Lemma is_hex_caseless : caseless is_hex.
Proof. intros c. by_cases_on c. Qed.

Lemma is_word_char_caseless : caseless Lexer.is_word_char.
Proof. intros c. by_cases_on c. Qed.

Lemma is_space_caseless : caseless is_space.
Proof. intros c. apply is_space_lower_char. Qed.

Lemma not_line_terminator_caseless :
  caseless (fun c => negb (Lexer.is_line_terminator c)).
Proof. intros c. by_cases_on c. Qed.

Lemma eqb_dot_caseless : caseless (Ascii.eqb ".").
Proof. intros c. by_cases_on c. Qed.

Lemma eqb_colon_caseless : caseless (Ascii.eqb ":").
Proof. intros c. by_cases_on c. Qed.

Lemma eqb_dquote_caseless : caseless (Ascii.eqb dquote).
Proof. intros c. by_cases_on c. Qed.

Lemma eqb_bang_caseless : caseless (Ascii.eqb "!").
Proof. intros c. by_cases_on c. Qed.

Lemma eqb_hash_caseless : caseless (Ascii.eqb "#").
Proof. intros c. by_cases_on c. Qed.

Lemma is_line_terminator_caseless : caseless Lexer.is_line_terminator.
Proof. intros c. by_cases_on c. Qed.

Lemma eat_upto_toLowerCase p max s :
  caseless p →
  eat_upto p max (toLowerCase s)
  = (let '(n, r) := eat_upto p max s in (n, toLowerCase r)).
Proof.
  intros Hp. revert s. induction max as [|m IH]; intros [|c s]; simpl; try done.
  rewrite Hp. destruct (p c); [|done].
  rewrite IH. by destruct (eat_upto p m s).
Qed.

Lemma eat_caseless p lo hi : caseless p → caseless_piece (eat p lo hi).
Proof.
  intros Hp s. unfold eat. rewrite eat_upto_toLowerCase by done.
  destruct (eat_upto p hi s) as [n r]. by destruct (Nat.leb lo n).
Qed.

Lemma eat_char_caseless c : caseless (Ascii.eqb c) → caseless_piece (eat_char c).
Proof.
  intros Hc [|d s]; simpl; [done|]. rewrite Hc. by destruct (Ascii.eqb c d).
Qed.

Lemma in_sequence_caseless pieces :
  Forall caseless_piece pieces → caseless_piece (in_sequence pieces).
Proof.
  intros Hall s. unfold in_sequence.
  change (Some (toLowerCase s)) with (toLowerCase <$> Some s).
  generalize (Some s). induction Hall as [|piece pieces Hp _ IH]; [done|].
  intros [r|]; simpl.
  - rewrite Hp. apply IH.
  - apply (IH None).
Qed.

Lemma at_end_toLowerCase (r : option string) :
  at_end (toLowerCase <$> r) = at_end r.
Proof. by destruct r as [[|??]|]. Qed.

Lemma match_ip_caseless : caseless_piece Lexer.match_ip.
Proof.
  apply in_sequence_caseless.
  repeat constructor;
    first [apply eat_caseless, is_digit_caseless
          |apply eat_char_caseless, eqb_dot_caseless].
Qed.

Lemma match_mac_caseless : caseless_piece Lexer.match_mac.
Proof.
  apply in_sequence_caseless.
  repeat constructor;
    first [apply eat_caseless, is_hex_caseless
          |apply eat_char_caseless, eqb_colon_caseless].
Qed.

Lemma match_mac_dot_caseless : caseless_piece Lexer.match_mac_dot.
Proof.
  apply in_sequence_caseless.
  repeat constructor;
    first [apply eat_caseless, is_hex_caseless
          |apply eat_char_caseless, eqb_dot_caseless].
Qed.

Lemma is_ipv4_toLowerCase s : is_ipv4 (toLowerCase s) = is_ipv4 s.
Proof.
  unfold is_ipv4. change (in_sequence _ ?x) with (Lexer.match_ip x).
  by rewrite match_ip_caseless, at_end_toLowerCase.
Qed.

Lemma is_mac_colon_toLowerCase s : is_mac_colon (toLowerCase s) = is_mac_colon s.
Proof.
  unfold is_mac_colon. change (in_sequence _ ?x) with (Lexer.match_mac x).
  by rewrite match_mac_caseless, at_end_toLowerCase.
Qed.

Lemma is_mac_dot_toLowerCase s : is_mac_dot (toLowerCase s) = is_mac_dot s.
Proof.
  unfold is_mac_dot. change (in_sequence _ ?x) with (Lexer.match_mac_dot x).
  by rewrite match_mac_dot_caseless, at_end_toLowerCase.
Qed.

Lemma all_digits_toLowerCase s : all_digits (toLowerCase s) = all_digits s.
Proof.
  induction s as [|c s IH]; [done|]. simpl.
  by rewrite is_digit_caseless, IH.
Qed.

Lemma endsWithChar_toLowerCase s c :
  caseless (Ascii.eqb c) →
  endsWithChar (toLowerCase s) c = endsWithChar s c.
Proof.
  intros Hc. induction s as [|d s IH]; [done|].
  destruct s as [|e s].
  - simpl. rewrite !(Ascii.eqb_sym _ c). apply Hc.
  - exact IH.
Qed.

Lemma startsWith_char s c :
  startsWith s (String c EmptyString)
  = match s with String d _ => Ascii.eqb c d | EmptyString => false end.
Proof.
  destruct s as [|d s]; [done|]. unfold startsWith. simpl.
  destruct (ascii_dec c d) as [->|Hne].
  - rewrite Ascii.eqb_refl. by destruct s.
  - symmetry. by apply Ascii.eqb_neq.
Qed.

Lemma is_quoted_toLowerCase s : is_quoted (toLowerCase s) = is_quoted s.
Proof.
  unfold is_quoted. rewrite endsWithChar_toLowerCase by apply eqb_dquote_caseless.
  f_equal. rewrite !startsWith_char. destruct s as [|c s]; [done|].
  apply eqb_dquote_caseless.
Qed.

Lemma is_whitespace_run_toLowerCase s :
  is_whitespace_run (toLowerCase s) = is_whitespace_run s.
Proof.
  unfold is_whitespace_run. by rewrite truthy_toLowerCase, all_space_toLowerCase.
Qed.

(** The classifier of [src/main.ts] on a part in lower case. *)
Lemma classify_toLowerCase keywords part :
  Main.classify keywords (toLowerCase part)
  = (fun span => Main.mkSpan (toLowerCase (Main.text span)) (Main.cls span))
      <$> Main.classify keywords part.
Proof.
  unfold Main.classify.
  rewrite !eqb_empty, truthy_toLowerCase, toLowerCase_idemp.
  rewrite is_whitespace_run_toLowerCase, is_ipv4_toLowerCase,
    is_mac_colon_toLowerCase, is_mac_dot_toLowerCase, is_quoted_toLowerCase.
  unfold is_number. rewrite truthy_toLowerCase, all_digits_toLowerCase.
  destruct (negb (truthy part)); [done|]. simpl.
  repeat match goal with
         | |- context [if ?b then _ else _] => destruct b
         end; done.
Qed.

End CaseFacts.

(* ===================================================================== *)
(** * The stream tokenizer *)
(* ===================================================================== *)

Section LexerFacts.

Import Case Lexer.

Lemma left_of_refl s : left_of s s.
Proof. by exists EmptyString. Qed.

Lemma left_of_trans s m r : left_of s m → left_of m r → left_of s r.
Proof. intros [a ->] [b ->]. exists (a ++ b). by rewrite string_app_assoc. Qed.

Lemma left_of_cons c s r : left_of s r → left_of (String c s) r.
Proof. intros [a ->]. by exists (String c a). Qed.

Lemma advanced_cons c s r : left_of s r → advanced (String c s) r.
Proof. intros [a ->]. by exists (String c a). Qed.

Lemma advanced_left_of s m r : advanced s m → left_of m r → advanced s r.
Proof.
  intros (a & Ha & ->) [b ->]. exists (a ++ b).
  split; [by destruct a|by rewrite string_app_assoc].
Qed.

Lemma advanced_length s r :
  advanced s r → (String.length r < String.length s)%nat.
Proof.
  intros (a & Ha & ->). rewrite string_app_length.
  destruct a; [done|]. simpl. lia.
Qed.

Lemma taken_app t r : taken (t ++ r) r = t.
Proof.
  unfold taken. rewrite string_app_length.
  replace (String.length t + String.length r - String.length r)
    with (String.length t + 0) by lia.
  by rewrite substring_0_app, substring_0_0, string_app_empty_r.
Qed.

Lemma trimStart_left_of s : left_of s (trimStart s).
Proof.
  induction s as [|c s IH]; simpl; [apply left_of_refl|].
  destruct (is_space c); [by apply left_of_cons|apply left_of_refl].
Qed.

Lemma skip_while_left_of p s : left_of s (skip_while p s).
Proof.
  induction s as [|c s IH]; simpl; [apply left_of_refl|].
  destruct (p c); [by apply left_of_cons|apply left_of_refl].
Qed.

Lemma eatSpace_advanced s r : eatSpace s = Some r → advanced s r.
Proof.
  destruct s as [|c s]; simpl; [done|]. destruct (is_space c); [|done].
  intros [= <-]. apply advanced_cons, trimStart_left_of.
Qed.

Lemma eat_some_advanced p s r : eat_some p s = Some r → advanced s r.
Proof.
  destruct s as [|c s]; simpl; [done|]. destruct (p c); [|done].
  intros [= <-]. apply advanced_cons, skip_while_left_of.
Qed.

Lemma eat_char_advanced c s r : eat_char c s = Some r → advanced s r.
Proof.
  destruct s as [|d s]; simpl; [done|]. destruct (Ascii.eqb c d); [|done].
  intros [= <-]. apply advanced_cons, left_of_refl.
Qed.

Lemma eat_upto_left_of p max s :
  left_of s (eat_upto p max s).2
  ∧ ((0 < (eat_upto p max s).1)%nat → advanced s (eat_upto p max s).2).
Proof.
  revert s. induction max as [|m IH]; intros [|c s]; simpl;
    try (split; [apply left_of_refl|lia]).
  destruct (p c); [|split; [apply left_of_refl|simpl; lia]].
  destruct (IH s) as [IH1 _]. destruct (eat_upto p m s) as [n r]. simpl in *.
  split; [by apply left_of_cons|]. intros _. by apply advanced_cons.
Qed.

Lemma eat_left_of p lo hi s r : eat p lo hi s = Some r → left_of s r.
Proof.
  unfold eat. pose proof (eat_upto_left_of p hi s) as [H _].
  destruct (eat_upto p hi s) as [n r']. destruct (Nat.leb lo n); [|done].
  by intros [= <-].
Qed.

Lemma eat_advanced p lo hi s r :
  (0 < lo)%nat → eat p lo hi s = Some r → advanced s r.
Proof.
  unfold eat. intros Hlo. pose proof (eat_upto_left_of p hi s) as [_ H].
  destruct (eat_upto p hi s) as [n r']. destruct (Nat.leb_spec lo n); [|done].
  intros [= <-]. apply H. simpl. lia.
Qed.

Lemma in_sequence_left_of pieces s r :
  Forall (fun piece => ∀ x y, piece x = Some y → left_of x y) pieces →
  in_sequence pieces s = Some r → left_of s r.
Proof.
  unfold in_sequence. intros Hall. revert s.
  induction Hall as [|piece pieces Hp _ IH]; intros s; simpl.
  { intros [= <-]. apply left_of_refl. }
  destruct (piece s) as [m|] eqn:E.
  - intros H. eapply left_of_trans; [by eapply Hp|by apply IH].
  - clear. induction pieces as [|q qs IH]; simpl; [done|apply IH].
Qed.

Lemma in_sequence_advanced piece pieces s r :
  (∀ x y, piece x = Some y → advanced x y) →
  Forall (fun piece => ∀ x y, piece x = Some y → left_of x y) pieces →
  in_sequence (piece :: pieces) s = Some r → advanced s r.
Proof.
  intros Hp Hall. unfold in_sequence. simpl.
  destruct (piece s) as [m|] eqn:E.
  - intros H. eapply advanced_left_of; [by eapply Hp|].
    by eapply in_sequence_left_of.
  - clear. induction pieces as [|q qs IH]; simpl; [done|apply IH].
Qed.

Lemma advanced_is_left_of s r : advanced s r → left_of s r.
Proof. intros (a & _ & ->). by exists a. Qed.

Lemma eat_char_left_of c s r : eat_char c s = Some r → left_of s r.
Proof. intros H. by eapply advanced_is_left_of, eat_char_advanced. Qed.

Lemma match_ip_advanced s r : match_ip s = Some r → advanced s r.
Proof.
  apply in_sequence_advanced; [intros x y; apply eat_advanced; lia|].
  repeat constructor; intros x y;
    first [apply eat_left_of|apply eat_char_left_of].
Qed.

Lemma match_mac_advanced s r : match_mac s = Some r → advanced s r.
Proof.
  apply in_sequence_advanced; [intros x y; apply eat_advanced; lia|].
  repeat constructor; intros x y;
    first [apply eat_left_of|apply eat_char_left_of].
Qed.

Lemma match_mac_dot_advanced s r : match_mac_dot s = Some r → advanced s r.
Proof.
  apply in_sequence_advanced; [intros x y; apply eat_advanced; lia|].
  repeat constructor; intros x y;
    first [apply eat_left_of|apply eat_char_left_of].
Qed.

Lemma match_comment_advanced mark s r :
  match_comment mark s = Some r → advanced s r.
Proof.
  unfold match_comment. destruct (eat_char mark s) as [m|] eqn:E; [|done].
  simpl. intros [= <-].
  eapply advanced_left_of; [by eapply eat_char_advanced|].
  apply skip_while_left_of.
Qed.

Lemma close_quote_left_of s r : close_quote s = Some r → left_of s r.
Proof.
  induction s as [|c s IH]; simpl; [done|].
  destruct (Ascii.eqb c dquote).
  - intros [= <-]. apply left_of_cons, left_of_refl.
  - destruct (is_line_terminator c); [done|].
    intros H. by apply left_of_cons, IH.
Qed.

Lemma match_string_advanced s r : match_string s = Some r → advanced s r.
Proof.
  unfold match_string. destruct (eat_char dquote s) as [m|] eqn:E; [|done].
  simpl. intros H.
  eapply advanced_left_of; [by eapply eat_char_advanced|].
  by apply close_quote_left_of.
Qed.

(** Every call of [token] on a stream that is not at its end moves the
    stream forward. *)
Lemma token_advanced keywords s :
  s ≠ EmptyString → advanced s (token keywords s).2.
Proof.
  intros Hne. unfold token.
  destruct (eatSpace s) eqn:E1; [by apply eatSpace_advanced|].
  destruct (match_comment "!" s) eqn:E2; [by eapply match_comment_advanced|].
  destruct (match_comment "#" s) eqn:E3; [by eapply match_comment_advanced|].
  destruct (match_string s) eqn:E4; [by apply match_string_advanced|].
  destruct (match_ip s) eqn:E5; [by apply match_ip_advanced|].
  destruct (match_mac s) eqn:E6; [by apply match_mac_advanced|].
  destruct (match_mac_dot s) eqn:E7; [by apply match_mac_dot_advanced|].
  destruct (match_number s) eqn:E8; [by eapply eat_some_advanced|].
  destruct (match_word s) eqn:E9; [by eapply eat_some_advanced|].
  destruct s as [|c s]; [done|]. apply advanced_cons, left_of_refl.
Qed.

(** Reading a line: the host never gives up, and the tokens cover the
    line. *)
Lemma read_line_covers keywords fuel s :
  (String.length s ≤ fuel)%nat →
  ∃ toks,
    read_line fuel keywords s = Some toks
    ∧ String.concat EmptyString toks.*2 = s
    ∧ Forall (fun tok => tok.2 ≠ EmptyString) toks.
Proof.
  revert s. induction fuel as [|fuel IH]; intros s Hlen.
  { destruct s; [by exists []|simpl in Hlen; lia]. }
  destruct s as [|c s]; [by exists []|].
  cbn [read_line].
  pose proof (token_advanced keywords (String c s) ltac:(done)) as Hadv.
  destruct (token keywords (String c s)) as [tag rest]. simpl in Hadv.
  pose proof (advanced_length _ _ Hadv) as Hlt.
  destruct (Nat.ltb_spec (String.length rest) (String.length (String c s)));
    [|lia].
  destruct (IH rest) as (toks & -> & Hcat & Hall); [simpl in *; lia|].
  destruct Hadv as (t & Ht & E).
  exists ((tag, taken (String c s) rest) :: toks). split; [done|].
  rewrite E, taken_app. split.
  - rewrite fmap_cons, concat_empty_cons, Hcat. done.
  - by constructor.
Qed.

End LexerFacts.

(** X13. The tokenizer of the editor always moves forward: on a stream
    that is not at its end, a call of [token] takes a text that is not
    empty, and what it leaves is the rest of the stream. *)
Theorem token_moves_the_stream (keywords : Main.Keywords) (s : string) :
  s ≠ EmptyString →
  ∃ lexeme,
    lexeme ≠ EmptyString
    ∧ s = lexeme ++ (Lexer.token keywords s).2
    ∧ Lexer.taken s (Lexer.token keywords s).2 = lexeme.
Proof.
  intros Hne. destruct (token_advanced keywords s Hne) as (t & Ht & E).
  exists t. split; [done|]. split; [done|]. rewrite E at 1. apply taken_app.
Qed.

Lemma token_moves_the_stream_witness :
  ∃ lexeme,
    lexeme ≠ EmptyString
    ∧ "vlan 10" = lexeme ++ (Lexer.token (Main.mkKeywords ∅ {[ "vlan" ]} ∅ ∅ ∅) "vlan 10").2
    ∧ Lexer.taken "vlan 10"
        (Lexer.token (Main.mkKeywords ∅ {[ "vlan" ]} ∅ ∅ ∅) "vlan 10").2
      = lexeme.
Proof.
  apply (token_moves_the_stream (Main.mkKeywords ∅ {[ "vlan" ]} ∅ ∅ ∅) "vlan 10").
  discriminate.
Defined.

(** X14. Reading a line with the tokenizer never fails to advance, and
    the tokens cover the line: with one call of [token] allowed per
    character, the host gets a list of tokens, none of them empty,
    whose texts one after the other are the line. *)
Theorem tokens_cover_the_line (keywords : Main.Keywords) (line : string) :
  ∃ toks,
    Lexer.read_line (String.length line) keywords line = Some toks
    ∧ String.concat EmptyString toks.*2 = line
    ∧ Forall (fun tok => tok.2 ≠ EmptyString) toks.
Proof. by apply read_line_covers. Qed.

Section LexerCase.

Import Case Lexer.

Lemma skip_while_toLowerCase p s :
  caseless p → skip_while p (toLowerCase s) = toLowerCase (skip_while p s).
Proof.
  intros Hp. induction s as [|c s IH]; [done|]. simpl. rewrite Hp.
  by destruct (p c).
Qed.

Lemma eat_some_caseless p : caseless p → caseless_piece (eat_some p).
Proof.
  intros Hp [|c s]; simpl; [done|]. rewrite Hp. destruct (p c); [|done].
  simpl. by rewrite skip_while_toLowerCase.
Qed.

Lemma eatSpace_caseless : caseless_piece eatSpace.
Proof.
  intros [|c s]; simpl; [done|]. rewrite is_space_lower_char.
  destruct (is_space c); [|done]. simpl. by rewrite trimStart_toLowerCase.
Qed.

Lemma match_comment_caseless mark :
  caseless (Ascii.eqb mark) → caseless_piece (match_comment mark).
Proof.
  intros Hm s. unfold match_comment. rewrite (eat_char_caseless mark Hm).
  destruct (eat_char mark s) as [r|]; [|done]. simpl.
  by rewrite skip_while_toLowerCase by apply not_line_terminator_caseless.
Qed.

Lemma close_quote_caseless : caseless_piece close_quote.
Proof.
  intros s. induction s as [|c s IH]; [done|]. simpl.
  rewrite !(Ascii.eqb_sym _ dquote), eqb_dquote_caseless,
    is_line_terminator_caseless.
  destruct (Ascii.eqb dquote c); [done|].
  by destruct (is_line_terminator c).
Qed.

Lemma match_string_caseless : caseless_piece match_string.
Proof.
  intros s. unfold match_string.
  rewrite (eat_char_caseless dquote eqb_dquote_caseless).
  destruct (eat_char dquote s) as [r|]; [|done]. simpl.
  apply close_quote_caseless.
Qed.

Lemma next_toLowerCase s : next (toLowerCase s) = toLowerCase (next s).
Proof. by destruct s. Qed.

Lemma taken_toLowerCase s r :
  taken (toLowerCase s) (toLowerCase r) = toLowerCase (taken s r).
Proof. unfold taken. by rewrite !toLowerCase_length, substring_toLowerCase. Qed.

Lemma token_toLowerCase keywords s :
  token keywords (toLowerCase s)
  = ((token keywords s).1, toLowerCase (token keywords s).2).
Proof.
  unfold token.
  rewrite eatSpace_caseless,
    (match_comment_caseless "!" eqb_bang_caseless),
    (match_comment_caseless "#" eqb_hash_caseless),
    match_string_caseless, match_ip_caseless, match_mac_caseless,
    match_mac_dot_caseless.
  unfold match_number, match_word.
  rewrite (eat_some_caseless _ is_digit_caseless),
    (eat_some_caseless _ is_word_char_caseless), next_toLowerCase.
  destruct (eatSpace s); [done|].
  destruct (match_comment "!" s); [done|].
  destruct (match_comment "#" s); [done|].
  destruct (match_string s); [done|].
  destruct (match_ip s); [done|].
  destruct (match_mac s); [done|].
  destruct (match_mac_dot s); [done|].
  destruct (eat_some is_digit s); [done|].
  destruct (eat_some is_word_char s) as [r|]; [|done].
  simpl. by rewrite taken_toLowerCase, toLowerCase_idemp.
Qed.

Lemma skip_one_line r :
  one_line r = true →
  skip_while (fun c => negb (is_line_terminator c)) r = EmptyString.
Proof.
  induction r as [|c r IH]; [done|]. simpl.
  intros [-> Hr]%andb_true_iff. by apply IH.
Qed.

Lemma one_line_app a b : one_line (a ++ b) = one_line a && one_line b.
Proof.
  induction a as [|c a IH]; [done|]. rewrite append_cons. simpl.
  by rewrite IH, andb_assoc.
Qed.

Lemma token_comment keywords mark r :
  mark = "!"%char ∨ mark = "#"%char → one_line r = true →
  token keywords (String mark r) = (Some lineComment, EmptyString).
Proof.
  intros Hm Hr. unfold token, match_comment.
  destruct Hm as [-> | ->]; simpl; by rewrite skip_one_line.
Qed.

Lemma trimStart_app s :
  ∃ blank, s = blank ++ trimStart s ∧ all_space blank = true.
Proof.
  induction s as [|c s IH]; [by exists EmptyString|]. simpl.
  destruct (is_space c) eqn:E; [|by exists EmptyString].
  destruct IH as (blank & Hs & Hb). exists (String c blank).
  rewrite append_cons, <- Hs. simpl. by rewrite E, Hb.
Qed.

Lemma is_comment_mark line :
  Highlight.is_comment line = true →
  ∃ mark r, (mark = "!"%char ∨ mark = "#"%char)
            ∧ trimStart line = String mark r.
Proof.
  unfold Highlight.is_comment, trim. rewrite !startsWith_char.
  destruct (trimStart line) as [|c r]; [done|]. cbn [trimEnd].
  destruct (all_space (String c r)); [done|].
  intros [H|H]%orb_true_iff; apply Ascii.eqb_eq in H; subst; eauto.
Qed.

Lemma read_line_end keywords fuel :
  read_line fuel keywords EmptyString = Some [].
Proof. by destruct fuel. Qed.

Lemma read_line_step keywords fuel s :
  s ≠ EmptyString →
  read_line (S fuel) keywords s
  = toks ← read_line fuel keywords (token keywords s).2;
    Some (((token keywords s).1, taken s (token keywords s).2) :: toks).
Proof.
  intros Hne. pose proof (advanced_length _ _ (token_advanced keywords s Hne)) as Hlt.
  destruct s as [|c s]; [done|]. cbn [read_line].
  destruct (token keywords (String c s)) as [tag rest]. simpl in *.
  destruct (Nat.ltb_spec (String.length rest) (S (String.length s))); [done|lia].
Qed.

End LexerCase.

(** X15. A line the processor of [src/main.ts] shows as a comment is a
    comment for the tokenizer of the editor too: the line, if it has no
    line terminator, is read as its leading whitespace, when there is
    some, followed by one comment token that runs to the end. *)
Theorem comment_line_is_one_comment_token (keywords : Main.Keywords)
    (line : string) :
  Lexer.one_line line = true →
  Highlight.is_comment line = true →
  ∃ blank,
    line = blank ++ trimStart line
    ∧ all_space blank = true
    ∧ Lexer.read_line (String.length line) keywords line
      = Some ((if truthy blank then [(None, blank)] else [])
              ++ [(Some Lexer.lineComment, trimStart line)])%list.
Proof.
  intros Hone Hc.
  destruct (is_comment_mark line Hc) as (mark & r & Hm & Ht).
  destruct (trimStart_app line) as (blank & Hline & Hb).
  exists blank. split; [done|]. split; [done|].
  rewrite Ht in *.
  assert (Lexer.one_line r = true) as Hr.
  { rewrite Hline, one_line_app in Hone. simpl in Hone.
    by apply andb_true_iff in Hone as [_ [_ ?]%andb_true_iff]. }
  assert (∀ fuel, Lexer.read_line (S fuel) keywords (String mark r)
                  = Some [(Some Lexer.lineComment, String mark r)]) as Hcomment.
  { intros fuel. rewrite read_line_step, token_comment by done. simpl.
    rewrite read_line_end. simpl. do 3 f_equal.
    pose proof (taken_app (String mark r) EmptyString) as Hall.
    by rewrite string_app_empty_r in Hall. }
  destruct blank as [|c blank].
  - simpl in Hline. subst line. apply Hcomment.
  - simpl in Hb. apply andb_true_iff in Hb as [Hc' Hb].
    assert (Lexer.token keywords line = (None, String mark r)) as Htok.
    { rewrite <- Ht, Hline, append_cons. unfold Lexer.token, Lexer.eatSpace.
      rewrite Hc'. cbn [trimStart]. by rewrite Hc'. }
    rewrite Hline at 1. rewrite string_app_length. cbn [String.length plus].
    rewrite Nat.add_succ_r.
    rewrite read_line_step, Htok by (rewrite Hline; done). cbn [fst snd].
    rewrite Hcomment. simpl. do 3 f_equal.
    rewrite Hline. apply taken_app.
Qed.

Lemma comment_line_is_one_comment_token_witness :
  ∃ blank,
    "  ! uplinks" = blank ++ trimStart "  ! uplinks"
    ∧ all_space blank = true
    ∧ Lexer.read_line (String.length "  ! uplinks")
        (Main.mkKeywords ∅ ∅ ∅ ∅ ∅) "  ! uplinks"
      = Some ((if truthy blank then [(None, blank)] else [])
              ++ [(Some Lexer.lineComment, trimStart "  ! uplinks")])%list.
Proof.
  apply (comment_line_is_one_comment_token (Main.mkKeywords ∅ ∅ ∅ ∅ ∅)
           "  ! uplinks"); reflexivity.
Defined.

(** X16. On a stream of ASCII characters, the tokenizer of the editor
    does not tell the cases of the letters apart: on the stream in lower
    case, [token] returns the same tag and leaves the same rest in lower
    case, and a line in lower case is read as the same tokens, with the
    same tags and their texts in lower case. *)
Theorem token_ignores_case (keywords : Main.Keywords) (s : string) (fuel : nat) :
  is_ascii s = true →
  Lexer.token keywords (toLowerCase s)
  = ((Lexer.token keywords s).1, toLowerCase (Lexer.token keywords s).2)
  ∧ Lexer.read_line fuel keywords (toLowerCase s)
    = (fun toks : list (option Lexer.Tag * string) =>
         (fun tok => (tok.1, toLowerCase tok.2)) <$> toks)
      <$> Lexer.read_line fuel keywords s.
Proof.
  intros _. split; [apply token_toLowerCase|].
  revert s. induction fuel as [|fuel IH]; intros [|c s]; try done.
  change (toLowerCase (String c s))
    with (String (lower_char c) (toLowerCase s)).
  cbn [Lexer.read_line].
  change (String (lower_char c) (toLowerCase s))
    with (toLowerCase (String c s)).
  rewrite token_toLowerCase.
  destruct (Lexer.token keywords (String c s)) as [tag rest]. cbn [fst snd].
  rewrite !toLowerCase_length.
  destruct (Nat.ltb _ _); [|done].
  rewrite IH, taken_toLowerCase.
  by destruct (Lexer.read_line fuel keywords rest).
Qed.

Lemma token_ignores_case_witness :
  Lexer.token (Main.mkKeywords {[ "show" ]} {[ "ip" ]} ∅ ∅ ∅)
    (toLowerCase "Show IP")
  = ((Lexer.token (Main.mkKeywords {[ "show" ]} {[ "ip" ]} ∅ ∅ ∅)
        "Show IP").1,
     toLowerCase
       (Lexer.token (Main.mkKeywords {[ "show" ]} {[ "ip" ]} ∅ ∅ ∅)
          "Show IP").2)
  ∧ Lexer.read_line 7 (Main.mkKeywords {[ "show" ]} {[ "ip" ]} ∅ ∅ ∅)
      (toLowerCase "Show IP")
    = (fun toks : list (option Lexer.Tag * string) =>
         (fun tok => (tok.1, toLowerCase tok.2)) <$> toks)
      <$> Lexer.read_line 7 (Main.mkKeywords {[ "show" ]} {[ "ip" ]} ∅ ∅ ∅)
            "Show IP".
Proof.
  apply (token_ignores_case (Main.mkKeywords {[ "show" ]} {[ "ip" ]} ∅ ∅ ∅)
           "Show IP" 7).
  reflexivity.
Defined.

(** X17. The classifier of the code-block processor of [src/main.ts]
    does not tell the cases of the letters apart: a part in lower case
    gets a span exactly when the part does, and the same class. *)
Theorem classification_ignores_case (keywords : Main.Keywords) (part : string) :
  Main.cls <$> Main.classify keywords (toLowerCase part)
  = Main.cls <$> Main.classify keywords part.
Proof.
  rewrite classify_toLowerCase. by destruct (Main.classify keywords part).
Qed.

(* ===================================================================== *)
(** * The search modal *)
(* ===================================================================== *)

Section SearchFacts.

Import SearchModal.

(** [includes] finds the occurrences of a text in another. *)
Lemma includes_app s q : includes s q = true ↔ ∃ a b, s = a ++ q ++ b.
Proof.
  induction s as [|c s IH].
  - cbn [includes]. rewrite orb_false_r.
    change (String.prefix q EmptyString) with (startsWith EmptyString q).
    rewrite startsWith_app. split.
    + intros [r Hr]. by exists EmptyString, r.
    + intros ([|??] & b & Hab); [|done]. eauto.
  - cbn [includes]. rewrite orb_true_iff, IH.
    change (String.prefix q (String c s)) with (startsWith (String c s) q).
    rewrite startsWith_app. split.
    + intros [[r Hr]|(a & b & ->)].
      * by exists EmptyString, r.
      * by exists (String c a), b.
    + intros ([|x a] & b & Hab).
      * left. eauto.
      * right. rewrite append_cons in Hab. injection Hab as _ ->. eauto.
Qed.

Lemma includes_empty s : includes s EmptyString = true.
Proof. apply includes_app. by exists EmptyString, s. Qed.

Lemma take_length_lt {A} (n : nat) (l : list A) :
  (length (take n l) < n)%nat → take n l = l.
Proof.
  intros H. apply take_ge. rewrite length_take in H. lia.
Qed.

End SearchFacts.

(** X18. The search modal returns at most fifty commands, in the order
    of the dictionary, and each of them has the query, in lower case,
    somewhere in its command string or in its description in lower
    case; the empty query lists the first fifty commands. *)
Theorem search_results_match_the_query
    (commands : list (string * R04.CommandDetail)) (query : string) :
  (length (SearchModal.getSuggestions commands query) ≤ 50)%nat
  ∧ SearchModal.getSuggestions commands query `sublist_of` commands.*2
  ∧ Forall (fun cmd =>
              ∃ a b,
                toLowerCase (R04.command cmd) = a ++ toLowerCase query ++ b
                ∨ toLowerCase (R04.description cmd)
                  = a ++ toLowerCase query ++ b)
      (SearchModal.getSuggestions commands query)
  ∧ SearchModal.getSuggestions commands EmptyString = take 50 commands.*2.
Proof.
  unfold SearchModal.getSuggestions. repeat split.
  - rewrite length_take. lia.
  - etrans; [apply sublist_take|apply sublist_filter].
  - apply Forall_take, Forall_forall. intros cmd [H _]%list_elem_of_filter.
    unfold SearchModal.found in H. apply Is_true_true, orb_true_iff in H.
    destruct H as [(a & b & H)%includes_app|(a & b & H)%includes_app]; eauto.
  - f_equal. induction (commands.*2) as [|cmd l IH]; [done|].
    rewrite filter_cons_True; [by rewrite IH|].
    unfold SearchModal.found. simpl. by rewrite includes_empty.
Qed.

(** X19. When the search modal returns fewer than fifty commands, it
    returns every match: each command of the dictionary that has the
    query, in lower case, in its command string or in its description
    in lower case is in the list. *)
Theorem short_search_result_is_complete
    (commands : list (string * R04.CommandDetail)) (query : string)
    (key : string) (cmd : R04.CommandDetail) (a b : string) :
  (length (SearchModal.getSuggestions commands query) < 50)%nat →
  (key, cmd) ∈ commands →
  toLowerCase (R04.command cmd) = a ++ toLowerCase query ++ b
  ∨ toLowerCase (R04.description cmd) = a ++ toLowerCase query ++ b →
  cmd ∈ SearchModal.getSuggestions commands query.
Proof.
  unfold SearchModal.getSuggestions. intros Hlen Hin Hm.
  rewrite take_length_lt by done. apply list_elem_of_filter. split.
  - unfold SearchModal.found. apply Is_true_true, orb_true_iff.
    destruct Hm as [Hm|Hm]; [left|right]; apply includes_app; eauto.
  - apply list_elem_of_fmap. by exists (key, cmd).
Qed.

Lemma short_search_result_is_complete_witness :
  Spec.detail "show ip isis status" "D2"
  ∈ SearchModal.getSuggestions Spec.scenario_commands "ISIS".
Proof.
  apply (short_search_result_is_complete Spec.scenario_commands "ISIS"
           "show ip isis status" (Spec.detail "show ip isis status" "D2")
           "show ip " " status").
  - vm_compute. lia.
  - right. left.
  - left. reflexivity.
Defined.


(** X20. The flat variant never offers the name of the description
    property, whatever the tree and the query. *)
Theorem description_key_is_never_offered (data : R04.CommandNode)
    (line : string) (context : TriggerInfo) :
  "_desc" ∉ R04.getSuggestions data line context.
Proof.
  unfold R04.getSuggestions.
  destruct (R04.resolve data _) as [current|]; [|apply not_elem_of_nil].
  rewrite elem_of_sort, list_elem_of_filter. by intros [? _].
Qed.

(* ===================================================================== *)
(** * The two highlighters on literals *)
(* ===================================================================== *)

Section Literals.

Import Lexer.

Lemma in_sequence_cons piece pieces s :
  in_sequence (piece :: pieces) s
  = match piece s with
    | Some r => in_sequence pieces r
    | None => None
    end.
Proof.
  unfold in_sequence. simpl. destruct (piece s); [done|].
  induction pieces as [|q qs IH]; [done|apply IH].
Qed.

Lemma at_end_true r : at_end r = true → r = Some EmptyString.
Proof. by destruct r as [[|??]|]. Qed.

Lemma hex_is_no_mark c :
  is_hex c = true →
  is_space c = false ∧ Ascii.eqb "!" c = false ∧ Ascii.eqb "#" c = false
  ∧ Ascii.eqb dquote c = false ∧ Ascii.eqb "." c = false
  ∧ Ascii.eqb ":" c = false.
Proof. destruct c as [[] [] [] [] [] [] [] []]; vm_compute; try done; auto 10. Qed.

Lemma digit_is_hex c : is_digit c = true → is_hex c = true.
Proof. unfold is_hex. by intros ->. Qed.

(** A text that starts with a hexadecimal digit is not taken by the
    rules for whitespace, comments and strings. *)
Lemma token_hex_head keywords c s :
  is_hex c = true →
  token keywords (String c s)
  = match match_ip (String c s) with
    | Some r => (Some number, r)
    | None =>
        match (match match_mac (String c s) with
               | Some r => Some r
               | None => match_mac_dot (String c s)
               end) with
        | Some r => (Some special_string, r)
        | None =>
            match match_number (String c s) with
            | Some r => (Some number, r)
            | None =>
                match match_word (String c s) with
                | Some r =>
                    (tag_of_word keywords (toLowerCase (taken (String c s) r)), r)
                | None => (None, next (String c s))
                end
            end
        end
    end.
Proof.
  intros (Hs & Hb & Hh & Hq & _)%hex_is_no_mark.
  unfold token, eatSpace, match_comment, match_string, eat_char.
  by rewrite Hs, Hb, Hh, Hq.
Qed.

Lemma eat_head p lo hi s r :
  (0 < lo)%nat → eat p lo hi s = Some r →
  ∃ c s', s = String c s' ∧ p c = true.
Proof.
  unfold eat. intros Hlo. destruct hi as [|hi], s as [|c s]; simpl;
    try (destruct (Nat.leb_spec lo 0); [lia|done]).
  destruct (p c) eqn:E; [eauto|].
  destruct (Nat.leb_spec lo 0); [lia|done].
Qed.

Lemma eat_two p s r :
  eat p 2 2 s = Some r → ∃ a b, s = String a (String b r) ∧ p a = true ∧ p b = true.
Proof.
  unfold eat. destruct s as [|a [|b s]]; simpl; try done.
  - by destruct (p a).
  - destruct (p a) eqn:Ea; [|done]. destruct (p b) eqn:Eb; [|done].
    simpl. intros [= <-]. eauto.
Qed.

Lemma eat_four p s r :
  eat p 4 4 s = Some r →
  ∃ a b c d, s = String a (String b (String c (String d r)))
             ∧ p a = true ∧ p b = true ∧ p c = true ∧ p d = true.
Proof.
  unfold eat. destruct s as [|a [|b [|c [|d s]]]]; simpl; try done.
  - by destruct (p a).
  - destruct (p a); [|done]. by destruct (p b).
  - destruct (p a); [|done]. destruct (p b); [|done]. by destruct (p c).
  - destruct (p a) eqn:Ea; [|done]. destruct (p b) eqn:Eb; [|done].
    destruct (p c) eqn:Ec; [|done]. destruct (p d) eqn:Ed; [|done].
    simpl. intros [= <-]. eauto 10.
Qed.

Lemma eat_char_cons c d s :
  eat_char c (String d s) = if Ascii.eqb c d then Some s else None.
Proof. done. Qed.

Lemma eat_char_Some c s r : eat_char c s = Some r → s = String c r.
Proof.
  destruct s as [|d s]; simpl; [done|].
  destruct (Ascii.eqb_spec c d) as [->|]; [|done]. by intros [= <-].
Qed.

(** A MAC address in the colon form does not start like an IP
    address. *)
Lemma match_ip_mac_colon s : is_mac_colon s = true → match_ip s = None.
Proof.
  unfold is_mac_colon. rewrite in_sequence_cons.
  destruct (eat is_hex 2 2 s) as [r1|] eqn:E1; [|done].
  rewrite in_sequence_cons.
  destruct (eat_char ":" r1) as [r2|] eqn:E2; [|done]. intros _.
  apply eat_two in E1 as (a & b & -> & Ha & Hb).
  apply eat_char_Some in E2 as ->.
  apply hex_is_no_mark in Ha as (_ & _ & _ & _ & Ha & _).
  apply hex_is_no_mark in Hb as (_ & _ & _ & _ & Hb & _).
  unfold match_ip. rewrite in_sequence_cons. unfold eat. simpl.
  destruct (is_digit a); [|done]. destruct (is_digit b); simpl.
  - by rewrite in_sequence_cons, eat_char_cons.
  - by rewrite in_sequence_cons, eat_char_cons, Hb.
Qed.

(** Nor does a MAC address in the dot form, which does not start like
    one in the colon form either. *)
Lemma match_ip_mac_dot s :
  is_mac_dot s = true → match_ip s = None ∧ match_mac s = None.
Proof.
  unfold is_mac_dot. rewrite in_sequence_cons.
  destruct (eat is_hex 4 4 s) as [r1|] eqn:E1; [|done]. intros _.
  apply eat_four in E1 as (a & b & c & d & -> & Ha & Hb & Hc & Hd).
  pose proof (hex_is_no_mark _ Hb) as (_ & _ & _ & _ & Hb' & _).
  pose proof (hex_is_no_mark _ Hc) as (_ & _ & _ & _ & Hc' & Hc'').
  pose proof (hex_is_no_mark _ Hd) as (_ & _ & _ & _ & Hd' & _).
  split.
  - unfold match_ip. rewrite in_sequence_cons. unfold eat. simpl.
    destruct (is_digit a); [|done]. destruct (is_digit b); simpl.
    + destruct (is_digit c); simpl; rewrite in_sequence_cons, eat_char_cons.
      * by rewrite Hd'.
      * by rewrite Hc'.
    + by rewrite in_sequence_cons, eat_char_cons, Hb'.
  - unfold match_mac. rewrite in_sequence_cons. unfold eat. simpl.
    rewrite Ha, Hb. simpl. by rewrite in_sequence_cons, eat_char_cons, Hc''.
Qed.

Lemma is_ipv4_head s :
  is_ipv4 s = true →
  match_ip s = Some EmptyString
  ∧ ∃ c s', s = String c s' ∧ is_digit c = true.
Proof.
  intros H. pose proof (at_end_true _ H) as Hm. split; [done|].
  unfold is_ipv4 in H. rewrite in_sequence_cons in H.
  destruct (eat is_digit 1 3 s) as [r|] eqn:E; [|done].
  eapply eat_head in E; [done|lia].
Qed.

Lemma is_mac_head s :
  is_mac_colon s || is_mac_dot s = true →
  ∃ c s', s = String c s' ∧ is_hex c = true.
Proof.
  intros [H|H]%orb_true_iff.
  - unfold is_mac_colon in H. rewrite in_sequence_cons in H.
    destruct (eat is_hex 2 2 s) as [r|] eqn:E; [|done].
    eapply eat_head in E; [done|lia].
  - unfold is_mac_dot in H. rewrite in_sequence_cons in H.
    destruct (eat is_hex 4 4 s) as [r|] eqn:E; [|done].
    eapply eat_head in E; [done|lia].
Qed.

Lemma all_digits_eat_upto p max s :
  all_digits s = true → all_digits (eat_upto p max s).2 = true.
Proof.
  revert s. induction max as [|m IH]; intros [|c s]; simpl; try done.
  intros [Hc Hs]%andb_true_iff. destruct (p c).
  - specialize (IH s Hs). by destruct (eat_upto p m s).
  - simpl. by rewrite Hc, Hs.
Qed.

Lemma all_digits_eat p lo hi s r :
  all_digits s = true → eat p lo hi s = Some r → all_digits r = true.
Proof.
  unfold eat. intros Hs. pose proof (all_digits_eat_upto p hi s Hs) as H.
  destruct (eat_upto p hi s) as [n r']. destruct (Nat.leb lo n); [|done].
  by intros [= <-].
Qed.

Lemma eat_char_all_digits c s :
  is_digit c = false → all_digits s = true → eat_char c s = None.
Proof.
  intros Hc. destruct s as [|d s]; simpl; [done|].
  intros [Hd _]%andb_true_iff.
  destruct (Ascii.eqb_spec c d) as [->|]; [congruence|done].
Qed.

(** A text of digits only is neither the beginning of an IP address
    nor that of a MAC address. *)
Lemma all_digits_no_address s :
  all_digits s = true →
  match_ip s = None ∧ match_mac s = None ∧ match_mac_dot s = None.
Proof.
  intros Hs. unfold match_ip, match_mac, match_mac_dot.
  rewrite !in_sequence_cons.
  repeat split;
    (destruct (eat _ _ _ s) as [r|] eqn:E; [|done]);
    rewrite in_sequence_cons, eat_char_all_digits;
    first [done|by eapply all_digits_eat].
Qed.

Lemma skip_while_all_digits s :
  all_digits s = true → skip_while is_digit s = EmptyString.
Proof.
  induction s as [|c s IH]; [done|]. simpl.
  intros [-> Hs]%andb_true_iff. by apply IH.
Qed.

(** The token of a part the classifier of [src/main.ts] takes for a
    number, an IP address or a MAC address. *)
Lemma token_literal keywords part :
  (is_ipv4 part = true ∨ is_number part = true →
   token keywords part = (Some number, EmptyString))
  ∧ (is_mac_colon part || is_mac_dot part = true →
     token keywords part = (Some special_string, EmptyString)).
Proof.
  split.
  - intros [H|H].
    + destruct (is_ipv4_head part H) as (Hm & c & s & -> & Hc).
      by rewrite token_hex_head, Hm by by apply digit_is_hex.
    + unfold is_number in H. apply andb_true_iff in H as [Ht H].
      destruct part as [|c s]; [done|].
      destruct (all_digits_no_address _ H) as (H1 & H2 & H3).
      simpl in H. apply andb_true_iff in H as [Hc Hs].
      rewrite token_hex_head, H1, H2, H3 by by apply digit_is_hex.
      unfold match_number, eat_some. by rewrite Hc, skip_while_all_digits.
  - intros H. destruct (is_mac_head part H) as (c & s & -> & Hc).
    rewrite token_hex_head by done.
    apply orb_true_iff in H as [H|H].
    + rewrite (match_ip_mac_colon _ H).
      unfold is_mac_colon in H. apply at_end_true in H.
      change (in_sequence _ ?x) with (match_mac x) in H. by rewrite H.
    + destruct (match_ip_mac_dot _ H) as [-> ->].
      unfold is_mac_dot in H. apply at_end_true in H.
      change (in_sequence _ ?x) with (match_mac_dot x) in H. by rewrite H.
Qed.

End Literals.

(** X21. The two highlighters agree on numbers and addresses: a part
    the code-block processor of [src/main.ts] gives the class of a
    number or of a MAC address is, for the tokenizer of the editor, one
    token that takes the whole part, tagged as a number or as a special
    string. *)
Theorem literals_are_tagged_alike (keywords : Main.Keywords) (part : string)
    (category : string) (tag : Lexer.Tag) :
  Main.cls <$> Main.classify keywords part = Some (Some category) →
  (category, tag) ∈ [ ("aosr8-number", Lexer.number);
                      ("aosr8-mac", Lexer.special_string) ] →
  Lexer.token keywords part = (Some tag, EmptyString).
Proof.
  intros Hc Hin. destruct (token_literal keywords part) as [Hnum Hmac].
  unfold Main.classify in Hc.
  destruct (String.eqb part EmptyString); [done|].
  injection Hc as Hc.
  destruct (is_whitespace_run part); [done|].
  destruct (is_ipv4 part) eqn:E1; [|destruct (is_mac_colon part || is_mac_dot part) eqn:E2;
                                     [|destruct (is_number part) eqn:E3]].
  - injection Hc as <-.
    apply elem_of_cons in Hin as [[= ->]|[[=]|?%elem_of_nil]%elem_of_cons];
      [|done]. apply Hnum. by left.
  - injection Hc as <-.
    apply elem_of_cons in Hin as [[=]|[[= ->]|?%elem_of_nil]%elem_of_cons];
      [|done]. by apply Hmac.
  - injection Hc as <-.
    apply elem_of_cons in Hin as [[= ->]|[[=]|?%elem_of_nil]%elem_of_cons];
      [|done]. apply Hnum. by right.
  - repeat match type of Hc with
           | context [if ?b then _ else _] => destruct b
           end;
      simpl in Hc; try done; injection Hc as <-;
      by apply elem_of_cons in Hin as [[=]|[[=]|?%elem_of_nil]%elem_of_cons].
Qed.

Lemma literals_are_tagged_alike_witness :
  Lexer.token (Main.mkKeywords ∅ ∅ ∅ ∅ ∅) "00:1a:2B:3c:4D:5e"
  = (Some Lexer.special_string, EmptyString).
Proof.
  apply (literals_are_tagged_alike (Main.mkKeywords ∅ ∅ ∅ ∅ ∅)
           "00:1a:2B:3c:4D:5e" "aosr8-mac" Lexer.special_string).
  - reflexivity.
  - right. left.
Defined.
